(** * AssemblyLine: splice-graph construction and GTF transfrag parsing

    A shallow embedding of
    - [assemblyline/lib/assemble/transcript_graph.py] (boundary indexing,
      exon splitting, strand resolution, directed graph assembly and the
      mapping of transcript paths onto graph components), and
    - [assemblyline/lib2/transfrag.py] ([Transfrag.parse_gtf]),
    together with the properties stated about them.

    Python values are modelled as follows: integers are [Z]; lists are
    [list]; [dict] and [set] are stdpp's [gmap] and [gset]; a raised
    exception is [None] (or an explicit error value for [parse_gtf]);
    objects that are mutated in place live in a heap and are referred to
    by location. *)

From Stdlib Require Import ZArith Lia Floats.
From Equations Require Import Equations.
From stdpp Require Import base option list sorting gmap strings.

Local Open Scope Z_scope.
#[local] Set Warnings "-clear-no-such-hyp".

(** ** Python built-ins used by the sources *)
Module Py.

(** [l[i]]: a negative index counts from the end of the list, an index
    out of range raises [IndexError]. *)
Definition index {A} (l : list A) (i : Z) : option A :=
  if decide (0 ≤ i) then l !! Z.to_nat i
  else if decide (- Z.of_nat (length l) ≤ i)
       then l !! Z.to_nat (Z.of_nat (length l) + i)
       else None.

(** [xrange(lo, hi)] *)
Definition xrange (lo hi : Z) : list Z :=
  (λ k : nat, lo + Z.of_nat k) <$> seq 0 (Z.to_nat (hi - lo)).

(** [bisect.bisect_right(a, x)]:
<<
    lo, hi = 0, len(a)
    while lo < hi:
        mid = (lo+hi)//2
        if x < a[mid]: hi = mid
        else: lo = mid+1
    return lo
>> *)
Equations? bisect_right_loop (a : list Z) (x : Z) (lo hi : nat) : nat
  by wf (hi - lo)%nat lt :=
  bisect_right_loop a x lo hi with decide (lo < hi)%nat => {
    | left Hlt with decide (x < a !!! ((lo + hi) / 2)%nat) => {
        | left _ := bisect_right_loop a x lo ((lo + hi) / 2)%nat
        | right _ := bisect_right_loop a x (S ((lo + hi) / 2)%nat) hi }
    | right _ := lo }.
Proof.
  all: assert ((lo + hi) / 2 < hi)%nat by (apply Nat.Div0.div_lt_upper_bound; lia).
  all: assert (lo ≤ (lo + hi) / 2)%nat by (apply Nat.div_le_lower_bound; lia).
  all: lia.
Qed.

Definition bisect_right (a : list Z) (x : Z) : nat :=
  bisect_right_loop a x 0 (length a).

(** [bisect.bisect_left(a, x)]: as above with the test [a[mid] < x],
    which moves [lo]; otherwise [hi = mid]. *)
Equations? bisect_left_loop (a : list Z) (x : Z) (lo hi : nat) : nat
  by wf (hi - lo)%nat lt :=
  bisect_left_loop a x lo hi with decide (lo < hi)%nat => {
    | left Hlt with decide (a !!! ((lo + hi) / 2)%nat < x) => {
        | left _ := bisect_left_loop a x (S ((lo + hi) / 2)%nat) hi
        | right _ := bisect_left_loop a x lo ((lo + hi) / 2)%nat }
    | right _ := lo }.
Proof.
  all: assert ((lo + hi) / 2 < hi)%nat by (apply Nat.Div0.div_lt_upper_bound; lia).
  all: assert (lo ≤ (lo + hi) / 2)%nat by (apply Nat.div_le_lower_bound; lia).
  all: lia.
Qed.

Definition bisect_left (a : list Z) (x : Z) : nat :=
  bisect_left_loop a x 0 (length a).

(** [sorted(s)] for a set [s] of integers. *)
Definition sorted_set (s : gset Z) : list Z := merge_sort Z.le (elements s).

End Py.

(** ** Scores

    Scores are Python floats. The sources only add scores, multiply a
    score by an integer length and compare scores, so the embedding is
    written over an interface with exactly these operations. The
    instance [float_arith] is IEEE binary64, which is what the program
    runs on; [Z_arith] is exact arithmetic. *)
Class ScoreArith (score : Type) := {
  s_zero : score;                    (* [0.0] *)
  s_add : score → score → score;     (* [a + b] *)
  s_scale : score → Z → score;       (* [a * n] for an integer [n] *)
  s_gtb : score → score → bool;      (* [a > b] *)
  s_geb : score → score → bool;      (* [a >= b] *)
  (** [FLOAT_PRECISION] of [assemblyline.lib.base], whose value is not
      part of the sources at hand: a parameter of the development. *)
  FLOAT_PRECISION : score
}.

(** Conversion of a Python integer to a float, as CPython does it: the
    nearest binary64 value, ties to even; it is exact below [2^53] in
    absolute value, which covers genomic coordinates. Beyond the range of
    binary64, where Python raises [OverflowError], the value is an
    infinity. *)
Definition float_of_Z (z : Z) : float :=
  SF2Prim (binary_normalize prec emax z 0 false).

Definition float_arith (eps : float) : ScoreArith float := {|
  s_zero := 0%float;
  s_add := PrimFloat.add;
  s_scale a n := PrimFloat.mul a (float_of_Z n);
  s_gtb a b := PrimFloat.ltb b a;
  s_geb a b := PrimFloat.leb b a;
  FLOAT_PRECISION := eps
|}.

Definition Z_arith (eps : Z) : ScoreArith Z := {|
  s_zero := 0;
  s_add := Z.add;
  s_scale := Z.mul;
  s_gtb a b := Z.ltb b a;
  s_geb a b := Z.leb b a;
  FLOAT_PRECISION := eps
|}.

(** Arithmetic without rounding: addition is a commutative monoid and
    scaling by a count is repeated addition. *)
Class ExactScore (score : Type) `{ScoreArith score} : Prop := {
  s_add_comm (a b : score) : s_add a b = s_add b a;
  s_add_assoc (a b c : score) : s_add a (s_add b c) = s_add (s_add a b) c;
  s_add_zero_l (a : score) : s_add s_zero a = a;
  s_scale_0 (a : score) : s_scale a 0 = s_zero;
  s_scale_succ (a : score) (n : Z) :
    0 ≤ n → s_scale a (n + 1) = s_add a (s_scale a n)
}.

(** ** [assemblyline/lib/assemble/transcript_graph.py] *)
Module TranscriptGraph.

(** Modelled from the spec: the strand constants of
    [assemblyline.lib.transcript], which the sources use as indexes
    [0], [1], [2] into per-strand lists. *)
Inductive Strand := POS_STRAND | NEG_STRAND | NO_STRAND.

Global Instance Strand_eq_dec : EqDecision Strand.
Proof. solve_decision. Defined.

(** Modelled from the spec: [Exon] of [assemblyline.lib.transcript], a
    pair of coordinates compared by value. *)
Record Exon := mkExon { start : Z; end_ : Z }.

Global Instance Exon_eq_dec : EqDecision Exon.
Proof. solve_decision. Defined.
Global Instance Exon_countable : Countable Exon.
Proof.
  apply (inj_countable' (λ e, (start e, end_ e)) (λ p, mkExon p.1 p.2)).
  by intros [].
Defined.

(** A node of the resolver is a plain [(start, end)] tuple. *)
Abbreviation node := (Z * Z)%type.

(** Modelled from the spec: the transcript objects of
    [assemblyline.lib.transcript], with the fields the sources read. *)
Record Transcript {score : Type} := mkTranscript {
  strand : Strand;
  exons : list Exon;
  score_ : score;
  attrs : gmap string string
}.
Global Arguments Transcript : clear implicits.
Global Arguments mkTranscript {_} _ _ _ _.

Definition set_strand {score} (t : Transcript score) (s : Strand) : Transcript score :=
  mkTranscript s (exons t) (score_ t) (attrs t).

Section splitting.
Context {score : Type}.

Definition find_exon_boundaries (transcripts : list (Transcript score)) : list Z :=
  let exon_boundaries :=
    foldl (λ bs transcript,
             foldl (λ bs exon, {[end_ exon]} ∪ ({[start exon]} ∪ bs))
                   bs (exons transcript))
          (∅ : gset Z) transcripts in
  Py.sorted_set exon_boundaries.

(** The generator is run to completion; [None] is an [IndexError]
    raised while it runs. *)
Definition split_exon (exon : Exon) (boundaries : list Z) : option (list node) :=
  if decide (start exon = end_ exon) then Some []
  else
    let start_ind := Z.of_nat (Py.bisect_right boundaries (start exon)) in
    let end_ind := Z.of_nat (Py.bisect_left boundaries (end_ exon)) in
    if decide (start_ind = end_ind) then Some [(start exon, end_ exon)]
    else
      b ← Py.index boundaries start_ind;
      mid ← mapM (λ j, bj ← Py.index boundaries j;
                       bj1 ← Py.index boundaries (j + 1);
                       Some (bj, bj1))
                 (Py.xrange start_ind (end_ind - 1));
      bl ← Py.index boundaries (end_ind - 1);
      Some ((start exon, b) :: mid ++ [(bl, end_ exon)]).

Definition split_exons (t : Transcript score) (boundaries : list Z) : option (list node) :=
  pieces ← mapM (λ exon, split_exon exon boundaries) (exons t);
  Some (concat pieces).

End splitting.


(** *** Strand resolution *)

(** Parameters of the resolver that are not part of the sources at hand:
    the attribute keys of [GTFAttr] ([assemblyline.lib.base]) and Python's
    [int(s)] on strings, where [None] stands for a [ValueError]. *)
Class Env := {
  GTFAttr_REF : string;
  GTFAttr_TRANSCRIPT_ID : string;
  py_int : string → option Z
}.

(** Per-strand lists of fixed size: [[x, y]] is indexed by the two concrete
    strands only (index [NO_STRAND] raises [IndexError]), [[x, y, z]] by
    all three. *)
Definition lookup2 {A} (l : A * A) (s : Strand) : option A :=
  match s with
  | POS_STRAND => Some l.1
  | NEG_STRAND => Some l.2
  | NO_STRAND => None
  end.

Definition update2 {A} (f : A → A) (l : A * A) (s : Strand) : option (A * A) :=
  match s with
  | POS_STRAND => Some (f l.1, l.2)
  | NEG_STRAND => Some (l.1, f l.2)
  | NO_STRAND => None
  end.

Definition lookup3 {A} (l : A * A * A) (s : Strand) : A :=
  match s with
  | POS_STRAND => l.1.1
  | NEG_STRAND => l.1.2
  | NO_STRAND => l.2
  end.

Definition update3 {A} (f : A → A) (l : A * A * A) (s : Strand) : A * A * A :=
  match s with
  | POS_STRAND => (f l.1.1, l.1.2, l.2)
  | NEG_STRAND => (l.1.1, f l.1.2, l.2)
  | NO_STRAND => (l.1, f l.2)
  end.

(** A loop whose body may raise. *)
Fixpoint foldlM {A B} (f : B → A → option B) (b : B) (l : list A) : option B :=
  match l with
  | [] => Some b
  | x :: l => b' ← f b x; foldlM f b' l
  end.

(** [sorted(s)] for a set of [(start, end)] tuples: lexicographic order. *)
Definition node_le (a b : node) : Prop := a.1 < b.1 ∨ (a.1 = b.1 ∧ a.2 ≤ b.2).

Global Instance node_le_dec (a b : node) : Decision (node_le a b).
Proof. unfold node_le. apply _. Defined.

Definition sorted_nodes (s : gset node) : list node := merge_sort node_le (elements s).

(** Modelled from the spec: the interval clustering collaborator
    ([ClusterTree(0, 1)] of [assemblyline.lib.bx.cluster], absent from the
    sources): regions are the maximal groups of inserted intervals that
    overlap or touch, transitively; [getregions] lists them by start, each
    with the sorted identifiers of its intervals. *)
Module ClusterTree.

Definition region : Type := Z * Z * list nat.

Definition touches (s e : Z) (r : region) : Prop := r.1.1 ≤ e ∧ s ≤ r.1.2.

Global Instance touches_dec s e r : Decision (touches s e r).
Proof. unfold touches. apply _. Defined.

Definition merge (r1 r2 : region) : region :=
  (Z.min r1.1.1 r2.1.1, Z.max r1.1.2 r2.1.2, r1.2 ++ r2.2).

Definition insert (regions : list region) (s e : Z) (i : nat) : list region :=
  foldl merge (s, e, [i]) (filter (touches s e) regions)
    :: filter (λ r, ¬ touches s e r) regions.

Definition region_le (r1 r2 : region) : Prop := r1.1.1 ≤ r2.1.1.

Global Instance region_le_dec (r1 r2 : region) : Decision (region_le r1 r2).
Proof. unfold region_le. apply _. Defined.

Definition getregions (regions : list region) : list region :=
  merge_sort region_le ((λ r, (r.1, merge_sort Nat.le r.2)) <$> regions).

End ClusterTree.

(** The transcripts are objects that the resolver mutates in place: they
    live in a heap and the lists hold their locations. The resolver
    threads the strand buckets [[[], [], []]] and the reference lists
    [[[], []]]. *)
Abbreviation loc := nat.
Abbreviation heap score := (list (Transcript score)).
Abbreviation buckets := (list loc * list loc * list loc)%type.
Abbreviation ref_buckets := (list loc * list loc)%type.

Section resolver.
Context {score : Type} `{!ScoreArith score} `{!Env}.


(** [bool(int(t.attrs.get(GTFAttr.REF, "0")))] *)
Definition is_ref (t : Transcript score) : option bool :=
  v ← py_int (default "0"%string (attrs t !! GTFAttr_REF));
  Some (bool_decide (v ≠ 0)).

(** The value of [node_data]: [{'ref_strands': [False, False],
    'scores': [0.0, 0.0, 0.0]}]. *)
Record NodeData := mkNodeData {
  ref_strands : bool * bool;
  scores : score * score * score
}.

Definition node_data_func : NodeData :=
  mkNodeData (false, false) (s_zero, s_zero, s_zero).

(** [node_data[n]] on the [defaultdict]: a missing key is first bound to
    a fresh default value. *)
Definition nd_get (node_data : gmap node NodeData) (n : node)
  : NodeData * gmap node NodeData :=
  match node_data !! n with
  | Some d => (d, node_data)
  | None => (node_data_func, <[n := node_data_func]> node_data)
  end.

Definition resolve_strand_step (st : (score * score) * (Z * Z) * gmap node NodeData)
    (n : node) : (score * score) * (Z * Z) * gmap node NodeData :=
  let '(total_scores, ref_bp, node_data) := st in
  let length := n.2 - n.1 in
  let '(nd, node_data) := nd_get node_data n in
  let total_scores :=
    (s_add total_scores.1 (s_scale (lookup3 (scores nd) POS_STRAND) length),
     s_add total_scores.2 (s_scale (lookup3 (scores nd) NEG_STRAND) length)) in
  let ref_bp :=
    (if (ref_strands nd).1 then ref_bp.1 + length else ref_bp.1,
     if (ref_strands nd).2 then ref_bp.2 + length else ref_bp.2) in
  (total_scores, ref_bp, node_data).

(** [sum(total_scores)] starts from the integer [0]. *)
Definition sum_scores (total_scores : score * score) : score :=
  s_add (s_add s_zero total_scores.1) total_scores.2.

Definition resolve_strand (nodes_iter : list node) (node_data : gmap node NodeData)
  : Strand * gmap node NodeData :=
  let '(total_scores, ref_bp, node_data) :=
    foldl resolve_strand_step ((s_zero, s_zero), (0, 0), node_data) nodes_iter in
  (if s_gtb (sum_scores total_scores) FLOAT_PRECISION then
     if s_geb total_scores.1 total_scores.2 then POS_STRAND else NEG_STRAND
   else if bool_decide (0 < 0 + ref_bp.1 + ref_bp.2) then
     if bool_decide (ref_bp.2 ≤ ref_bp.1) then POS_STRAND else NEG_STRAND
   else NO_STRAND,
   node_data).

Definition add_transcript (h : heap score) (l : loc) (nodes_iter : list node)
    (transcript_lists : buckets) (node_data : gmap node NodeData)
  : option (buckets * gmap node NodeData) :=
  t ← h !! l;
  let node_data :=
    foldl (λ node_data n,
             let '(nd, node_data) := nd_get node_data n in
             <[n := mkNodeData (ref_strands nd)
                      (update3 (λ x, s_add x (score_ t)) (scores nd) (strand t))]>
               node_data)
          node_data nodes_iter in
  t_id ← attrs t !! GTFAttr_TRANSCRIPT_ID;
  Some (update3 (λ ts, ts ++ [l]) transcript_lists (strand t), node_data).

(** Body of the first loop: a reference transcript labels its nodes, a
    stranded transcript votes with its score, an unstranded one waits. *)
Definition classify_step (h : heap score) (boundaries : list Z)
    (st : gmap node NodeData * buckets * ref_buckets * list loc) (l : loc)
  : option (gmap node NodeData * buckets * ref_buckets * list loc) :=
  let '(node_data, strand_transcript_lists, strand_ref_transcripts,
        unresolved_transcripts) := st in
  t ← h !! l;
  ref ← is_ref t;
  if ref : bool then
    nodes ← split_exons t boundaries;
    node_data ←
      foldlM (λ node_data n,
                let '(nd, node_data) := nd_get node_data n in
                flags ← update2 (λ _, true) (ref_strands nd) (strand t);
                Some (<[n := mkNodeData flags (scores nd)]> node_data))
             node_data nodes;
    strand_ref_transcripts ←
      update2 (λ ts, ts ++ [l]) strand_ref_transcripts (strand t);
    Some (node_data, strand_transcript_lists, strand_ref_transcripts,
          unresolved_transcripts)
  else if decide (strand t ≠ NO_STRAND) then
    nodes ← split_exons t boundaries;
    '(strand_transcript_lists, node_data) ←
      add_transcript h l nodes strand_transcript_lists node_data;
    Some (node_data, strand_transcript_lists, strand_ref_transcripts,
          unresolved_transcripts)
  else
    Some (node_data, strand_transcript_lists, strand_ref_transcripts,
          unresolved_transcripts ++ [l]).

(** Body of the loop over the unstranded transcripts: [t.strand] is
    assigned in place. *)
Definition resolve_step (boundaries : list Z)
    (st : heap score * gmap node NodeData * list loc * list loc * gset node) (l : loc)
  : option (heap score * gmap node NodeData * list loc * list loc * gset node) :=
  let '(h, node_data, resolved, still_unresolved_transcripts,
        unresolved_nodes) := st in
  t ← h !! l;
  nodes ← split_exons t boundaries;
  let '(s, node_data) := resolve_strand nodes node_data in
  let h := <[l := set_strand t s]> h in
  if decide (s ≠ NO_STRAND) then
    Some (h, node_data, resolved ++ [l], still_unresolved_transcripts,
          unresolved_nodes)
  else
    Some (h, node_data, resolved, still_unresolved_transcripts ++ [l],
          unresolved_nodes ∪ list_to_set nodes).

(** Body of [for t in resolved]. *)
Definition add_resolved_step (h : heap score) (boundaries : list Z)
    (st : buckets * gmap node NodeData) (l : loc)
  : option (buckets * gmap node NodeData) :=
  t ← h !! l;
  nodes ← split_exons t boundaries;
  add_transcript h l nodes st.1 st.2.

(** Body of the loop over the regions of the cluster tree. *)
Definition cluster_step (unresolved_nodes : list node)
    (st : gmap node Strand * gmap node NodeData) (r : ClusterTree.region)
  : option (gmap node Strand * gmap node NodeData) :=
  let '(node_strand_map, node_data) := st in
  nodes ← mapM (λ i, unresolved_nodes !! i) r.2;
  let '(s, node_data) := resolve_strand nodes node_data in
  Some (foldl (λ m n, <[n := s]> m) node_strand_map nodes, node_data).

(** The length of a transcript's nodes that the clusters assign to each
    strand ([strand_bp]); a node without a cluster is a [KeyError]. *)
Definition overlap_bp (node_strand_map : gmap node Strand) (nodes : list node)
  : option (Z * Z) :=
  foldlM (λ strand_bp n,
            s ← node_strand_map !! n;
            if decide (s ≠ NO_STRAND)
            then update2 (λ x, x + (n.2 - n.1)) strand_bp s
            else Some strand_bp)
         (0, 0) nodes.

(** Body of the last loop: each remaining transcript takes the strand of
    the clusters that cover most of it, or stays unstranded. *)
Definition assign_step (boundaries : list Z) (node_strand_map : gmap node Strand)
    (st : heap score * buckets * gmap node NodeData) (l : loc)
  : option (heap score * buckets * gmap node NodeData) :=
  let '(h, strand_transcript_lists, node_data) := st in
  t ← h !! l;
  nodes ← split_exons t boundaries;
  strand_bp ← overlap_bp node_strand_map nodes;
  let total_strand_bp := 0 + strand_bp.1 + strand_bp.2 in
  let h :=
    if bool_decide (0 < total_strand_bp) then
      if bool_decide (strand_bp.2 ≤ strand_bp.1)
      then <[l := set_strand t POS_STRAND]> h
      else <[l := set_strand t NEG_STRAND]> h
    else h in
  '(strand_transcript_lists, node_data) ←
    add_transcript h l nodes strand_transcript_lists node_data;
  Some (h, strand_transcript_lists, node_data).

(** Steps 4: score resolution of the unstranded transcripts, as written
    (one pass that assigns strands, then one pass that adds the resolved
    transcripts). *)
Definition resolve_unstranded (boundaries : list Z) (h : heap score)
    (node_data : gmap node NodeData) (strand_transcript_lists : buckets)
    (unresolved_transcripts : list loc)
  : option (heap score * gmap node NodeData * buckets * list loc * gset node) :=
  if decide (0 < length unresolved_transcripts)%nat then
    '(h, node_data, resolved, still_unresolved_transcripts, unresolved_nodes) ←
      foldlM (resolve_step boundaries) (h, node_data, [], [], ∅)
             unresolved_transcripts;
    '(strand_transcript_lists, node_data) ←
      foldlM (add_resolved_step h boundaries)
             (strand_transcript_lists, node_data) resolved;
    Some (h, node_data, strand_transcript_lists, still_unresolved_transcripts,
          unresolved_nodes)
  else Some (h, node_data, strand_transcript_lists, unresolved_transcripts, ∅).

(** Steps 5 and 6: clustering fallback. *)
Definition resolve_clusters (boundaries : list Z) (h : heap score)
    (node_data : gmap node NodeData) (strand_transcript_lists : buckets)
    (unresolved_transcripts : list loc) (unresolved_nodes : gset node)
  : option (heap score * buckets) :=
  if decide (0 < length unresolved_transcripts)%nat then
    let unresolved_nodes := sorted_nodes unresolved_nodes in
    let cluster_tree :=
      foldl (λ tree '(i, n), ClusterTree.insert tree n.1 n.2 i) []
            (imap pair unresolved_nodes) in
    '(node_strand_map, node_data) ←
      foldlM (cluster_step unresolved_nodes) (∅, node_data)
             (ClusterTree.getregions cluster_tree);
    '(h, strand_transcript_lists, node_data) ←
      foldlM (assign_step boundaries node_strand_map)
             (h, strand_transcript_lists, node_data) unresolved_transcripts;
    Some (h, strand_transcript_lists)
  else Some (h, strand_transcript_lists).

(** The function returns [(strand_transcript_lists,
    strand_ref_transcripts)]; the heap is returned as well, since the
    transcripts have been updated in place. *)
Definition partition_transcripts_by_strand (h : heap score) (transcripts : list loc)
  : option (heap score * buckets * ref_buckets) :=
  ts ← mapM (λ l, h !! l) transcripts;
  let boundaries := find_exon_boundaries ts in
  '(node_data, strand_transcript_lists, strand_ref_transcripts,
    unresolved_transcripts) ←
    foldlM (classify_step h boundaries) (∅, ([], [], []), ([], []), [])
           transcripts;
  '(h, node_data, strand_transcript_lists, unresolved_transcripts,
    unresolved_nodes) ←
    resolve_unstranded boundaries h node_data strand_transcript_lists
                       unresolved_transcripts;
  '(h, strand_transcript_lists) ←
    resolve_clusters boundaries h node_data strand_transcript_lists
                     unresolved_transcripts unresolved_nodes;
  Some (h, strand_transcript_lists, strand_ref_transcripts).

End resolver.

(** *** Directed graph assembly *)

(** The part of a [networkx.DiGraph] that the sources use: the node
    dictionary with the attributes [NODE_LENGTH] and [NODE_SCORE], the
    edge set and the graph attribute ['boundaries']. *)
Record NodeAttr {score : Type} := mkNodeAttr {
  NODE_LENGTH : Z;
  NODE_SCORE : score
}.
Global Arguments NodeAttr : clear implicits.
Global Arguments mkNodeAttr {_} _ _.

Record DiGraph {score : Type} := mkDiGraph {
  G_node : gmap Exon (NodeAttr score);
  G_edges : gset (Exon * Exon);
  G_boundaries : list Z
}.
Global Arguments DiGraph : clear implicits.
Global Arguments mkDiGraph {_} _ _ _.

Section graph.
Context {score : Type} `{!ScoreArith score}.

Definition add_node_directed (G : DiGraph score) (n : Exon) (sc : score)
  : DiGraph score :=
  let G_node :=
    match G_node G !! n with
    | None => <[n := mkNodeAttr (end_ n - start n) s_zero]> (G_node G)
    | Some _ => G_node G
    end in
  mkDiGraph (alter (λ nd, mkNodeAttr (NODE_LENGTH nd) (s_add (NODE_SCORE nd) sc)) n G_node)
            (G_edges G) (G_boundaries G).

Definition add_edge (G : DiGraph score) (u v : Exon) : DiGraph score :=
  mkDiGraph (G_node G) ({[(u, v)]} ∪ G_edges G) (G_boundaries G).

(** Body of [for t in transcripts]; [None] is the [IndexError] of
    [nodes[0]] (or one raised while splitting). *)
Definition add_transcript_path (strand : Strand) (boundaries : list Z)
    (G : DiGraph score) (t : Transcript score) : option (DiGraph score) :=
  pieces ← split_exons t boundaries;
  let nodes := (λ p : node, mkExon p.1 p.2) <$> pieces in
  let nodes := if decide (strand = NEG_STRAND) then reverse nodes else nodes in
  u ← Py.index nodes 0;
  let G := add_node_directed G u (score_ t) in
  '(G, _) ← foldlM (λ '(G, u) i,
                      v ← Py.index nodes i;
                      let G := add_node_directed G v (score_ t) in
                      Some (add_edge G u v, v))
                   (G, u) (Py.xrange 1 (Z.of_nat (length nodes)));
  Some G.

Definition create_directed_graph (strand : Strand)
    (transcripts : list (Transcript score)) : option (DiGraph score) :=
  let boundaries := find_exon_boundaries transcripts in
  G ← foldlM (add_transcript_path strand boundaries)
             (mkDiGraph ∅ ∅ []) transcripts;
  Some (mkDiGraph (G_node G) (G_edges G) boundaries).

(** *** The score track

    [get_bedgraph_lines] of [create_transcript_graphs]: one row
    [(chrom, start, end, score)] for each node of the graph in sorted
    order, the nodes with a negative start left out; [None] is the
    [KeyError] of [G.node[n]]. *)

(** Modelled from the spec: the order of [Exon] values, which is that of
    the tuples [(start, end)]. *)
Definition exon_le (a b : Exon) : Prop :=
  start a < start b ∨ (start a = start b ∧ end_ a ≤ end_ b).

Global Instance exon_le_dec (a b : Exon) : Decision (exon_le a b).
Proof. unfold exon_le. apply _. Defined.

Definition get_bedgraph_lines (chrom : string) (G : DiGraph score)
  : option (list (string * Z * Z * score)) :=
  mapM (λ n, nd ← G_node G !! n; Some (chrom, start n, end_ n, NODE_SCORE nd))
       (filter (λ n, ¬ start n < 0) (merge_sort exon_le (elements (dom (G_node G))))).

(** *** Mapping transcript paths onto the components

    The loop of [create_transcript_graphs] that populates the partial
    paths. Its inputs come from collaborators that are not part of the
    sources at hand (the trimmer, the collapser and the component
    search) and are parameters here: [trim_nodes], [node_chain_map] and
    [node_subgraph_map]; [strand_graphs] holds the [partial_paths]
    accumulator ([defaultdict(lambda: 0.0)]) of each component. *)

(** [sorted(subgraph_nodes, key=operator.attrgetter('start'),
    reverse=(strand == NEG_STRAND))]; nodes with equal starts keep the
    iteration order of the set. *)
Definition start_le (a b : Exon) : Prop := start a ≤ start b.
Definition start_ge (a b : Exon) : Prop := start b ≤ start a.

Global Instance start_le_dec (a b : Exon) : Decision (start_le a b).
Proof. unfold start_le. apply _. Defined.
Global Instance start_ge_dec (a b : Exon) : Decision (start_ge a b).
Proof. unfold start_ge. apply _. Defined.

Definition sorted_path (strand : Strand) (subgraph_nodes : gset Exon) : list Exon :=
  if decide (strand = NEG_STRAND)
  then merge_sort start_ge (elements subgraph_nodes)
  else merge_sort start_le (elements subgraph_nodes).

(** First inner loop: bin the surviving collapsed nodes by component. *)
Definition bin_node (trim_nodes : gset Exon) (node_chain_map : gmap Exon Exon)
    (node_subgraph_map : gmap Exon nat)
    (subgraph_node_map : gmap nat (gset Exon)) (n : node)
  : option (gmap nat (gset Exon)) :=
  let n := mkExon n.1 n.2 in
  if decide (n ∈ trim_nodes) then Some subgraph_node_map
  else
    cn ← node_chain_map !! n;
    subgraph_id ← node_subgraph_map !! cn;
    Some (<[subgraph_id :=
              {[cn]} ∪ default ∅ (subgraph_node_map !! subgraph_id)]>
            subgraph_node_map).

(** Second inner loop: one contribution per component. *)
Definition add_partial_path (strand : Strand) (sc : score)
    (strand_graphs : list (gmap (list Exon) score))
    (entry : nat * gset Exon) : option (list (gmap (list Exon) score)) :=
  let '(subgraph_id, subgraph_nodes) := entry in
  let path := sorted_path strand subgraph_nodes in
  partial_paths ← strand_graphs !! subgraph_id;
  Some (<[subgraph_id :=
            <[path := s_add (default s_zero (partial_paths !! path)) sc]>
              partial_paths]> strand_graphs).

(** Body of [for t in transcript_list]. *)
Definition map_transcript_path (strand : Strand) (boundaries : list Z)
    (trim_nodes : gset Exon) (node_chain_map : gmap Exon Exon)
    (node_subgraph_map : gmap Exon nat)
    (strand_graphs : list (gmap (list Exon) score)) (t : Transcript score)
  : option (list (gmap (list Exon) score)) :=
  nodes ← split_exons t boundaries;
  subgraph_node_map ←
    foldlM (bin_node trim_nodes node_chain_map node_subgraph_map) ∅ nodes;
  foldlM (add_partial_path strand (score_ t)) strand_graphs
         (map_to_list subgraph_node_map).

Definition populate_partial_paths (strand : Strand) (boundaries : list Z)
    (trim_nodes : gset Exon) (node_chain_map : gmap Exon Exon)
    (node_subgraph_map : gmap Exon nat)
    (strand_graphs : list (gmap (list Exon) score))
    (transcript_list : list (Transcript score))
  : option (list (gmap (list Exon) score)) :=
  foldlM (map_transcript_path strand boundaries trim_nodes node_chain_map
                              node_subgraph_map)
         strand_graphs transcript_list.

End graph.

End TranscriptGraph.

(** ** [assemblyline/lib2/transfrag.py] *)
Module Transfrag.

(** Exceptions: [GTFError] carries its message; [OtherError] is whatever
    a collaborator that is not part of the sources at hand raises. *)
Inductive exn :=
  | GTFError (msg : string)
  | KeyError
  | ValueError
  | OtherError.

Inductive result (A : Type) :=
  | Ok (a : A)
  | Raise (e : exn).
Global Arguments Ok {_} _.
Global Arguments Raise {_} _.

Definition bind {A B} (r : result A) (k : A → result B) : result B :=
  match r with
  | Ok a => k a
  | Raise e => Raise e
  end.

Definition of_option {A} (e : exn) (o : option A) : result A :=
  match o with
  | Some a => Ok a
  | None => Raise e
  end.

(** A loop whose body may raise: the first exception ends it. *)
Fixpoint fold_result {A B} (f : B → A → result B) (b : B) (l : list A) : result B :=
  match l with
  | [] => Ok b
  | x :: l => bind (f b x) (λ b', fold_result f b' l)
  end.

(** Modelled from the spec: a parsed feature line ([GTF.Feature] of
    [gtf.py]) with the fields the sources read. *)
Record Feature := mkFeature {
  seqid : string;
  feature : string;
  start : Z;
  end_ : Z;
  strand : string;
  attrs : gmap string string
}.

(** Parameters that are not part of the sources at hand: the line parser
    [GTF.Feature.from_str], the attribute keys of [GTF.Attr],
    [Strand.from_gtf] with the type of its results, and Python's
    [float(s)] and [int(s)] on strings ([None] stands for the exception
    they raise). *)
Class GTFEnv (strand_t expr_t : Type) := {
  from_str : string → option Feature;
  Attr_TRANSCRIPT_ID : string;
  Attr_SAMPLE_ID : string;
  Attr_EXPRESSION : string;
  Attr_REF : string;
  Strand_from_gtf : string → option strand_t;
  py_float : string → option expr_t;
  float_zero : expr_t;
  py_int : string → option Z
}.

Record Transfrag {strand_t expr_t : Type} := mkTransfrag {
  chrom : string;
  t_strand : strand_t;
  _id : string;
  sample_id : option string;
  expr : expr_t;
  is_ref : bool;
  exons : list (Z * Z)
}.
Global Arguments Transfrag : clear implicits.
Global Arguments mkTransfrag {_ _} _ _ _ _ _ _ _.

Section parse.
Context {strand_t expr_t : Type} `{!GTFEnv strand_t expr_t}.

(** [bool(int(f.attrs.get(GTF.Attr.REF, '0')))] *)
Definition ref_flag (f : Feature) : result bool :=
  bind (of_option ValueError (py_int (default "0"%string (attrs f !! Attr_REF))))
       (λ v, Ok (bool_decide (v ≠ 0))).

Definition from_gtf (f : Feature) : result (Transfrag strand_t expr_t) :=
  bind (of_option OtherError (Strand_from_gtf (strand f))) (λ s,
  bind (of_option KeyError (attrs f !! Attr_TRANSCRIPT_ID)) (λ t_id,
  bind (match attrs f !! Attr_EXPRESSION with
        | Some v => of_option ValueError (py_float v)
        | None => Ok float_zero
        end) (λ e,
  bind (ref_flag f) (λ r,
  Ok (mkTransfrag (seqid f) s t_id (attrs f !! Attr_SAMPLE_ID) e r []))))).

(** [t = t_dict[t_id]; t.exons.append(Exon(f.start, f.end))] on the
    ordered dictionary, kept as the list of its items in insertion
    order. *)
Definition append_exon (t_id : string) (exon : Z * Z)
    (t_dict : list (string * Transfrag strand_t expr_t))
  : list (string * Transfrag strand_t expr_t) :=
  (λ kv : string * Transfrag strand_t expr_t,
     if decide (kv.1 = t_id)
     then (kv.1, mkTransfrag (chrom kv.2) (t_strand kv.2) (_id kv.2)
                   (sample_id kv.2) (expr kv.2) (is_ref kv.2)
                   (exons kv.2 ++ [exon]))
     else kv) <$> t_dict.

Definition duplicate_msg (t_id : string) : string :=
  ("Transcript '" +:+ t_id +:+ "' duplicate detected")%string.

Definition missing_msg (t_id : string) : string :=
  ("Transcript '" +:+ t_id +:+
   "' exon feature appeared in gtf file prior to transcript feature")%string.

(** Body of [for gtf_line in gtf_lines]. *)
Definition parse_line (ignore_ref : bool)
    (t_dict : list (string * Transfrag strand_t expr_t)) (gtf_line : string)
  : result (list (string * Transfrag strand_t expr_t)) :=
  bind (of_option OtherError (from_str gtf_line)) (λ f,
  bind (of_option KeyError (attrs f !! Attr_TRANSCRIPT_ID)) (λ t_id,
  bind (ref_flag f) (λ is_ref,
  if is_ref && ignore_ref then Ok t_dict
  else if decide (feature f = "transcript"%string) then
    if decide (t_id ∈ t_dict.*1) then Raise (GTFError (duplicate_msg t_id))
    else bind (from_gtf f) (λ t, Ok (t_dict ++ [(t_id, t)]))
  else if decide (feature f = "exon"%string) then
    if decide (t_id ∉ t_dict.*1) then Raise (GTFError (missing_msg t_id))
    else Ok (append_exon t_id (start f, end_ f) t_dict)
  else Ok t_dict))).

Definition parse_gtf (gtf_lines : list string) (ignore_ref : bool)
  : result (list (string * Transfrag strand_t expr_t)) :=
  fold_result (parse_line ignore_ref) [] gtf_lines.

End parse.

(** The read-only members of the class. The exons of a transfrag are
    [Exon(start, end)] tuples. *)
Section methods.
Context {strand_t expr_t : Type}.

(** The property [length]: [sum((e.end - e.start) for e in self.exons)]. *)
Definition t_length (t : Transfrag strand_t expr_t) : Z :=
  foldl (λ acc e, acc + (e.2 - e.1)) 0 (exons t).

(** The property [start]: [self.exons[0].start]; [None] is the
    [IndexError] of an empty exon list. *)
Definition t_start (t : Transfrag strand_t expr_t) : option Z :=
  e ← Py.index (exons t) 0; Some e.1.

(** The property [end]: [self.exons[-1].end]. *)
Definition t_end (t : Transfrag strand_t expr_t) : option Z :=
  e ← Py.index (exons t) (-1); Some e.2.

(** [iterintrons], run to completion: the list of the pairs it yields,
    or [None] for the [IndexError] of [self.exons[0]]. *)
Definition iterintrons (t : Transfrag strand_t expr_t) : option (list (Z * Z)) :=
  e1 ← Py.index (exons t) 0;
  st ← TranscriptGraph.foldlM
         (λ (st : (Z * Z) * list (Z * Z)) j,
            e2 ← Py.index (exons t) j;
            Some (e2, st.2 ++ [((st.1).2, e2.1)]))
         (e1, []) (Py.xrange 1 (Z.of_nat (length (exons t))));
  Some st.2.

End methods.

End Transfrag.
(** * Properties *)

Import TranscriptGraph.

Example bisect_right_ex : Py.bisect_right [100; 200; 350; 500] 100 = 1%nat.
Proof. reflexivity. Qed.
Example bisect_left_ex : Py.bisect_left [100; 200; 350; 500] 500 = 3%nat.
Proof. reflexivity. Qed.
Example sorted_set_ex : Py.sorted_set {[ 5; 3; 9; 3 ]} = [3; 5; 9].
Proof. vm_compute. reflexivity. Qed.

(** ** Facts about the built-ins on sorted lists *)
Section bisect_facts.
Implicit Types (a : list Z) (x v : Z).

Lemma StronglySorted_lookup_le a i j x y :
  StronglySorted Z.le a → (i ≤ j)%nat →
  a !! i = Some x → a !! j = Some y → x ≤ y.
Proof.
  intros Ha. revert i j. induction Ha as [|z l Hl IH Hz]; intros i j Hij Hi Hj.
  - by rewrite lookup_nil in Hi.
  - destruct i as [|i], j as [|j]; simplify_eq/=; try lia.
    + rewrite Forall_lookup in Hz. eauto.
    + eapply IH; [|done..]. lia.
Qed.

Lemma sorted_take_le a m v :
  Sorted Z.le a → a !! m = Some v → Forall (λ y, y ≤ v) (take (S m) a).
Proof.
  intros Ha%Sorted_StronglySorted Hm; [|apply _].
  apply Forall_lookup. intros i y Hi.
  destruct (decide (i < S m)%nat) as [Hlt|Hge].
  - rewrite lookup_take_lt in Hi by done.
    eapply (StronglySorted_lookup_le a i m); eauto with lia.
  - rewrite lookup_take_ge in Hi by lia. done.
Qed.

Lemma sorted_drop_ge a m v :
  Sorted Z.le a → a !! m = Some v → Forall (λ y, v ≤ y) (drop m a).
Proof.
  intros Ha%Sorted_StronglySorted Hm; [|apply _].
  apply Forall_lookup. intros i y Hi. rewrite lookup_drop in Hi.
  eapply (StronglySorted_lookup_le a m (m + i)); eauto with lia.
Qed.

Lemma bisect_mid (lo hi : nat) :
  (lo < hi)%nat → (lo ≤ (lo + hi) `div` 2 ∧ (lo + hi) `div` 2 < hi)%nat.
Proof.
  intros. split; [apply Nat.div_le_lower_bound|apply Nat.Div0.div_lt_upper_bound]; lia.
Qed.

Lemma bisect_right_loop_spec a x lo hi :
  Sorted Z.le a → (lo ≤ hi ≤ length a)%nat →
  Forall (λ y, y ≤ x) (take lo a) → Forall (λ y, x < y) (drop hi a) →
  let r := Py.bisect_right_loop a x lo hi in
  (lo ≤ r ≤ hi)%nat ∧
  Forall (λ y, y ≤ x) (take r a) ∧ Forall (λ y, x < y) (drop r a).
Proof.
  intros Ha. funelim (Py.bisect_right_loop a x lo hi); intros Hb Hlo Hhi.
  - assert (lo = hi) as -> by lia. split_and!; [lia..|done|done].
  - (* x < a[mid]: hi = mid *)
    destruct (bisect_mid lo hi) as [??]; [done|].
    destruct (lookup_lt_is_Some_2 a ((lo + hi) `div` 2)) as [v Hv]; [lia|].
    apply list_lookup_total_correct in Hv as Hv'; clear Heq; rewrite Hv' in *.
    match goal with IH : Sorted _ _ → _ |- _ =>
      destruct (IH Ha) as (? & ? & ?); [lia|done| |] end.
    + eapply Forall_impl; [by eapply sorted_drop_ge|]. intros; cbn in *; lia.
    + split_and!; [lia..|done|done].
  - (* otherwise: lo = mid + 1 *)
    destruct (bisect_mid lo hi) as [??]; [done|].
    destruct (lookup_lt_is_Some_2 a ((lo + hi) `div` 2)) as [v Hv]; [lia|].
    apply list_lookup_total_correct in Hv as Hv'; clear Heq; rewrite Hv' in *.
    match goal with IH : Sorted _ _ → _ |- _ =>
      destruct (IH Ha) as (? & ? & ?); [lia| |done|] end.
    + eapply Forall_impl; [by eapply sorted_take_le|]. intros; cbn in *; lia.
    + split_and!; [lia..|done|done].
Qed.

Lemma bisect_left_loop_spec a x lo hi :
  Sorted Z.le a → (lo ≤ hi ≤ length a)%nat →
  Forall (λ y, y < x) (take lo a) → Forall (λ y, x ≤ y) (drop hi a) →
  let r := Py.bisect_left_loop a x lo hi in
  (lo ≤ r ≤ hi)%nat ∧
  Forall (λ y, y < x) (take r a) ∧ Forall (λ y, x ≤ y) (drop r a).
Proof.
  intros Ha. funelim (Py.bisect_left_loop a x lo hi); intros Hb Hlo Hhi.
  - assert (lo = hi) as -> by lia. split_and!; [lia..|done|done].
  - (* a[mid] < x: lo = mid + 1 *)
    destruct (bisect_mid lo hi) as [??]; [done|].
    destruct (lookup_lt_is_Some_2 a ((lo + hi) `div` 2)) as [v Hv]; [lia|].
    apply list_lookup_total_correct in Hv as Hv'; clear Heq; rewrite Hv' in *.
    match goal with IH : Sorted _ _ → _ |- _ =>
      destruct (IH Ha) as (? & ? & ?); [lia| |done|] end.
    + eapply Forall_impl; [by eapply sorted_take_le|]. intros; cbn in *; lia.
    + split_and!; [lia..|done|done].
  - (* otherwise: hi = mid *)
    destruct (bisect_mid lo hi) as [??]; [done|].
    destruct (lookup_lt_is_Some_2 a ((lo + hi) `div` 2)) as [v Hv]; [lia|].
    apply list_lookup_total_correct in Hv as Hv'; clear Heq; rewrite Hv' in *.
    match goal with IH : Sorted _ _ → _ |- _ =>
      destruct (IH Ha) as (? & ? & ?); [lia|done| |] end.
    + eapply Forall_impl; [by eapply sorted_drop_ge|]. intros; cbn in *; lia.
    + split_and!; [lia..|done|done].
Qed.

(** [bisect_right] returns the number of entries [≤ x], which on a sorted
    list is the position that separates them from the entries [> x]. *)
Lemma bisect_right_spec a x :
  Sorted Z.le a →
  (Py.bisect_right a x ≤ length a)%nat ∧
  Forall (λ y, y ≤ x) (take (Py.bisect_right a x) a) ∧
  Forall (λ y, x < y) (drop (Py.bisect_right a x) a).
Proof.
  intros Ha. unfold Py.bisect_right.
  destruct (bisect_right_loop_spec a x 0 (length a)) as (? & ? & ?);
    [done|lia|by constructor|by rewrite drop_all|].
  split_and!; [lia|done..].
Qed.

Lemma bisect_left_spec a x :
  Sorted Z.le a →
  (Py.bisect_left a x ≤ length a)%nat ∧
  Forall (λ y, y < x) (take (Py.bisect_left a x) a) ∧
  Forall (λ y, x ≤ y) (drop (Py.bisect_left a x) a).
Proof.
  intros Ha. unfold Py.bisect_left.
  destruct (bisect_left_loop_spec a x 0 (length a)) as (? & ? & ?);
    [done|lia|by constructor|by rewrite drop_all|].
  split_and!; [lia|done..].
Qed.

End bisect_facts.

Global Instance Z_arith_exact eps : @ExactScore Z (Z_arith eps).
Proof. split; cbn; intros; lia. Qed.


(** ** Loops that may raise *)
Section foldlM_facts.
Context {A B : Type}.
Implicit Types (f g : B → A → option B) (l : list A) (b : B).

Lemma foldlM_ext f g b l :
  (∀ b x, f b x = g b x) → foldlM f b l = foldlM g b l.
Proof.
  intros Hfg. revert b. induction l as [|x l IH]; intros b; [done|].
  cbn. rewrite Hfg. destruct (g b x); cbn; auto.
Qed.

End foldlM_facts.

(** ** Exon splitting *)
Section split_facts.
Context {score : Type}.
Implicit Types (bs : list Z) (e : Exon) (t : Transcript score).

(** The boundaries strictly inside [(start, end)]. *)
Definition interior (e : Exon) (bs : list Z) : list Z :=
  filter (λ b, start e < b < end_ e) bs.

(** Consecutive pairs of a list of coordinates. *)
Fixpoint consecutive (l : list Z) : list node :=
  match l with
  | x :: (y :: _) as tl => (x, y) :: consecutive tl
  | _ => []
  end.

(** What the splitter is specified to produce. *)
Definition segments (e : Exon) (bs : list Z) : list node :=
  if decide (start e = end_ e) then []
  else match interior e bs with
       | [] => [(start e, end_ e)]
       | b :: rest =>
           (start e, b) :: consecutive (b :: rest)
             ++ [(default b (last rest), end_ e)]
       end.

Lemma index_nat {A} (l : list A) (i : nat) : Py.index l (Z.of_nat i) = l !! i.
Proof. unfold Py.index. rewrite decide_True by lia. by rewrite Nat2Z.id. Qed.

Lemma xrange_cons (lo hi : Z) :
  lo < hi → Py.xrange lo hi = lo :: Py.xrange (lo + 1) hi.
Proof.
  intros. unfold Py.xrange.
  replace (Z.to_nat (hi - lo)) with (S (Z.to_nat (hi - (lo + 1)))) by lia.
  cbn [seq fmap list_fmap]. f_equal; [lia|].
  rewrite <-fmap_S_seq, <-list_fmap_compose. apply list_fmap_ext.
  intros ???; cbn; lia.
Qed.

Lemma xrange_nil (lo hi : Z) : hi ≤ lo → Py.xrange lo hi = [].
Proof. intros. unfold Py.xrange. by replace (Z.to_nat (hi - lo)) with 0%nat by lia. Qed.

(** Reading consecutive pairs out of a slice [I] of the boundary list. *)
Lemma slice_pairs (pre I post : list Z) :
  I ≠ [] →
  mapM (λ j, bj ← Py.index (pre ++ I ++ post) j;
             bj1 ← Py.index (pre ++ I ++ post) (j + 1);
             Some (bj, bj1))
       (Py.xrange (Z.of_nat (length pre))
                  (Z.of_nat (length pre + length I) - 1))
  = Some (consecutive I).
Proof.
  revert pre. induction I as [|x [|y tl] IH]; intros pre HI; [done|..].
  - rewrite xrange_nil by (cbn; lia). done.
  - rewrite xrange_cons by (cbn [length]; lia).
    cbn [mapM consecutive].
    rewrite index_nat, lookup_app_r, Nat.sub_diag by done. cbn [lookup list_lookup mbind option_bind].
    replace (Z.of_nat (length pre) + 1) with (Z.of_nat (S (length pre))) by lia.
    rewrite index_nat, lookup_app_r by lia.
    replace (S (length pre) - length pre)%nat with 1%nat by lia.
    cbn [lookup list_lookup app mbind option_bind].
    specialize (IH (pre ++ [x])). rewrite <-!(assoc_L (++)) in IH. cbn [app] in IH.
    rewrite length_app in IH. cbn [length] in IH.
    replace (Z.of_nat (length pre + 1)) with (Z.of_nat (S (length pre))) in IH by lia.
    replace (Z.of_nat (length pre + 1 + S (length tl)))
      with (Z.of_nat (length pre + S (S (length tl)))) in IH by lia.
    cbn [length]. rewrite IH by done. done.
Qed.

Lemma filter_Forall_id {A} (P : A → Prop) `{∀ x, Decision (P x)} (l : list A) :
  Forall P l → filter P l = l.
Proof. induction 1; [done|]. rewrite filter_cons_True by done. by f_equal. Qed.

Lemma filter_Forall_nil {A} (P : A → Prop) `{∀ x, Decision (P x)} (l : list A) :
  Forall (λ x, ¬ P x) l → filter P l = [].
Proof. induction 1; [done|]. by rewrite filter_cons_False. Qed.

(** On a sorted list the two binary searches delimit the interior
    boundaries: [bs = pre ++ interior ++ post]. *)
Lemma bisect_interior e bs :
  Sorted Z.le bs → start e < end_ e →
  let s := Py.bisect_right bs (start e) in
  let t := Py.bisect_left bs (end_ e) in
  (s ≤ t)%nat ∧
  bs = take s bs ++ interior e bs ++ drop t bs ∧
  length (take s bs) = s ∧ length (interior e bs) = (t - s)%nat.
Proof.
  intros Hbs Hlt s t.
  destruct (bisect_right_spec bs (start e) Hbs) as (Hs & Hs1 & Hs2).
  destruct (bisect_left_spec bs (end_ e) Hbs) as (Ht & Ht1 & Ht2).
  fold s in Hs, Hs1, Hs2. fold t in Ht, Ht1, Ht2.
  assert (s ≤ t)%nat as Hst.
  { destruct (decide (s ≤ t)%nat) as [|Hn]; [done|exfalso].
    destruct (lookup_lt_is_Some_2 bs t) as [v Hv]; [lia|].
    rewrite Forall_lookup in Hs1. rewrite Forall_lookup in Ht2.
    specialize (Hs1 t v). rewrite lookup_take_lt in Hs1 by lia.
    specialize (Ht2 0%nat v). rewrite lookup_drop, Nat.add_0_r in Ht2.
    specialize (Hs1 Hv). specialize (Ht2 Hv). cbn in *. lia. }
  assert (take t bs = take s bs ++ drop s (take t bs)) as Htake.
  { rewrite <-(take_drop s (take t bs)) at 1. by rewrite take_take, Nat.min_l. }
  assert (interior e bs = drop s (take t bs)) as ->.
  { unfold interior. rewrite <-(take_drop t bs) at 1. rewrite Htake at 1.
    rewrite !filter_app.
    rewrite (filter_Forall_nil _ (take s bs)), (filter_Forall_nil _ (drop t bs)),
      filter_Forall_id, app_nil_r; [done|..].
    - apply Forall_lookup. intros i v Hi. rewrite lookup_drop in Hi.
      rewrite Forall_lookup in Hs2. rewrite Forall_lookup in Ht1.
      apply lookup_take_Some in Hi as [Hi ?].
      specialize (Ht1 (s + i)%nat v). rewrite lookup_take_lt in Ht1 by lia.
      specialize (Hs2 i v). rewrite lookup_drop in Hs2. cbn in *. auto.
    - eapply Forall_impl; [exact Ht2|]. cbn; intros; lia.
    - eapply Forall_impl; [exact Hs1|]. cbn; intros; lia. }
  split_and!; [done|..].
  - by rewrite (assoc_L (++)), <-Htake, take_drop.
  - rewrite length_take. lia.
  - rewrite length_drop, length_take. lia.
Qed.

Lemma split_exon_segments e bs :
  Sorted Z.le bs → start e ≤ end_ e → split_exon e bs = Some (segments e bs).
Proof.
  intros Hbs Hle. unfold split_exon, segments.
  destruct (decide (start e = end_ e)) as [|Hne]; [done|].
  destruct (bisect_interior e bs) as (Hst & Hdec & Hpre & HI); [done|lia|].
  set (s := Py.bisect_right bs (start e)) in *.
  set (t := Py.bisect_left bs (end_ e)) in *.
  set (pre := take s bs) in *. set (post := drop t bs) in *.
  clearbody s t pre post. destruct (interior e bs) as [|b rest].
  - cbn in HI. rewrite decide_True by lia. done.
  - cbn [length] in HI. rewrite decide_False by lia.
    assert (t = length pre + length (b :: rest))%nat as -> by (cbn [length]; lia).
    subst s bs. rewrite (slice_pairs pre (b :: rest) post) by done.
    rewrite index_nat, lookup_app_r, Nat.sub_diag by done.
    cbn [app lookup list_lookup mbind option_bind].
    replace (Z.of_nat (length pre + length (b :: rest)) - 1)
      with (Z.of_nat (length pre + length rest)) by (cbn [length]; lia).
    rewrite index_nat, lookup_app_r by lia.
    replace (length pre + length rest - length pre)%nat with (length rest) by lia.
    assert ((b :: rest ++ post) !! length rest = Some (default b (last rest))) as ->; [|done].
    change (b :: rest ++ post) with ((b :: rest) ++ post).
    rewrite lookup_app_l by (cbn [length]; lia).
    destruct rest as [|r rest _] using rev_ind; [done|].
    rewrite last_snoc, length_app. cbn [default length].
    rewrite Nat.add_1_r. cbn [lookup list_lookup].
    by apply (list_lookup_middle rest [] r).
Qed.

(** C2. For a sorted boundary list and an exon interval, [split_exon]
    yields nothing for a degenerate exon, the exon itself when no boundary
    lies strictly inside it, and otherwise the segments from the start to
    the first interior boundary, between consecutive interior boundaries,
    and from the last interior boundary to the end; exon [(100, 500)]
    against [[100; 200; 350; 500]] gives [(100,200), (200,350), (350,500)]. *)
Theorem split_exon_spec e bs :
  Sorted Z.le bs → start e ≤ end_ e →
  (start e = end_ e → split_exon e bs = Some []) ∧
  (start e ≠ end_ e → interior e bs = [] →
     split_exon e bs = Some [(start e, end_ e)]) ∧
  (start e ≠ end_ e → ∀ b rest, interior e bs = b :: rest →
     split_exon e bs =
       Some ((start e, b) :: consecutive (b :: rest)
               ++ [(default b (last rest), end_ e)])) ∧
  split_exon (mkExon 100 500) [100; 200; 350; 500]
    = Some [(100, 200); (200, 350); (350, 500)].
Proof.
  intros Hbs Hle. pose proof (split_exon_segments e bs Hbs Hle) as Hseg.
  unfold segments in Hseg. split_and!.
  - intros Heq. by rewrite decide_True in Hseg.
  - intros Hne HI. by rewrite decide_False, HI in Hseg.
  - intros Hne b rest HI. by rewrite decide_False, HI in Hseg.
  - reflexivity.
Qed.

Lemma split_exon_spec_witness :
  let e := mkExon 100 500 in
  let bs := [50; 100; 200; 350; 500; 700] in
  Sorted Z.le bs ∧ start e ≤ end_ e ∧
  split_exon e bs = Some [(100, 200); (200, 350); (350, 500)].
Proof.
  cbv zeta. split_and!.
  - repeat constructor; cbn; lia.
  - cbn; lia.
  - refine (proj1 (proj2 (proj2 (split_exon_spec (mkExon 100 500)
              [50; 100; 200; 350; 500; 700] _ _))) _ 200 [350] _).
    + repeat constructor; cbn; lia.
    + cbn; lia.
    + cbn; lia.
    + reflexivity.
Defined.

(** *** Tiling *)

(** [chain s pieces e]: the pieces are non-empty intervals, the first
    starts at [s], each starts where the previous one ends, and the last
    ends at [e]. *)
Fixpoint chain (s : Z) (pieces : list node) (e : Z) : Prop :=
  match pieces with
  | [] => s = e
  | (a, b) :: rest => a = s ∧ a < b ∧ chain b rest e
  end.

Definition total_length (pieces : list node) : Z :=
  foldr (λ p acc, (p.2 - p.1) + acc) 0 pieces.

Lemma consecutive_snoc (b : Z) (rest : list Z) (y : Z) :
  consecutive (b :: rest) ++ [(default b (last rest), y)]
  = consecutive (b :: rest ++ [y]).
Proof.
  revert b. induction rest as [|r rest IH]; intros b; [done|].
  change (consecutive (b :: r :: rest)) with ((b, r) :: consecutive (r :: rest)).
  change (consecutive (b :: (r :: rest) ++ [y]))
    with ((b, r) :: consecutive (r :: rest ++ [y])).
  rewrite <-IH. cbn [app]. do 3 f_equal.
  destruct rest as [|r' rest]; [done|]. rewrite last_cons_cons.
  by destruct (last (r' :: rest)) eqn:Hl; [|apply last_None in Hl].
Qed.

Lemma segments_consecutive e bs :
  start e ≠ end_ e →
  segments e bs = consecutive (start e :: interior e bs ++ [end_ e]).
Proof.
  intros Hne. unfold segments. rewrite decide_False by done.
  destruct (interior e bs) as [|b rest]; [done|].
  by rewrite consecutive_snoc.
Qed.

Lemma consecutive_chain (x : Z) (l : list Z) (y : Z) :
  StronglySorted Z.lt (x :: l ++ [y]) →
  chain x (consecutive (x :: l ++ [y])) y ∧
  total_length (consecutive (x :: l ++ [y])) = y - x.
Proof.
  revert x. induction l as [|z l IH]; intros x Hs.
  - cbn. apply StronglySorted_inv in Hs as [_ Hx].
    apply Forall_cons in Hx as [? _]. split_and!; [done..|lia].
  - apply StronglySorted_inv in Hs as [Hs Hx].
    apply Forall_cons in Hx as [? _].
    destruct (IH z Hs) as [Hc Hl].
    change (consecutive (x :: (z :: l) ++ [y]))
      with ((x, z) :: consecutive (z :: l ++ [y])).
    split; [done|]. unfold total_length in *. cbn [foldr fst snd]. lia.
Qed.

Lemma Sorted_NoDup_lt (l : list Z) :
  Sorted Z.le l → NoDup l → StronglySorted Z.lt l.
Proof.
  intros Hl%Sorted_StronglySorted; [|apply _].
  induction Hl as [|x l Hl IH Hx]; intros Hnd; [constructor|].
  apply NoDup_cons in Hnd as [Hx' Hnd]. constructor; [auto|].
  apply Forall_forall. intros y Hy.
  rewrite Forall_forall in Hx. specialize (Hx y Hy).
  assert (x ≠ y) by (intros ->; done). lia.
Qed.

Lemma StronglySorted_filter {A} (R : relation A) (P : A → Prop)
    `{∀ x, Decision (P x)} (l : list A) :
  StronglySorted R l → StronglySorted R (filter P l).
Proof.
  induction 1 as [|x l Hl IH Hx]; [constructor|].
  rewrite filter_cons. case_decide; [|done]. constructor; [done|].
  apply Forall_forall. intros y [_ Hy]%list_elem_of_filter.
  rewrite Forall_forall in Hx. auto.
Qed.

(** Splitting against strictly increasing boundaries tiles the exon. *)
Lemma split_exon_tiles e bs :
  Sorted Z.le bs → NoDup bs → start e < end_ e →
  ∃ pieces, split_exon e bs = Some pieces ∧ pieces ≠ [] ∧
    chain (start e) pieces (end_ e) ∧
    total_length pieces = end_ e - start e.
Proof.
  intros Hbs Hnd Hlt. exists (segments e bs).
  split; [apply split_exon_segments; [done|lia]|].
  rewrite segments_consecutive by lia.
  assert (StronglySorted Z.lt (start e :: interior e bs ++ [end_ e])) as Hs.
  { constructor.
    - apply StronglySorted_app. split_and!.
      + intros x y [? _]%list_elem_of_filter ->%list_elem_of_singleton. lia.
      + apply StronglySorted_filter. by apply Sorted_NoDup_lt.
      + repeat constructor.
    - apply Forall_app. split; [|repeat constructor; lia].
      apply Forall_forall. intros x [? _]%list_elem_of_filter. lia. }
  split; [|by apply consecutive_chain].
  destruct (interior e bs); done.
Qed.

Lemma find_exon_boundaries_sorted (ts : list (Transcript score)) :
  Sorted Z.le (find_exon_boundaries ts) ∧ NoDup (find_exon_boundaries ts).
Proof.
  unfold find_exon_boundaries, Py.sorted_set. split.
  - apply Sorted_merge_sort; apply _.
  - rewrite merge_sort_Permutation. apply NoDup_elements.
Qed.

Lemma exon_fold_elem_of (es : list Exon) (acc : gset Z) (x : Z) :
  x ∈ foldl (λ (bs : gset Z) exon, {[end_ exon]} ∪ ({[start exon]} ∪ bs)) acc es ↔
  x ∈ acc ∨ ∃ e, e ∈ es ∧ (x = start e ∨ x = end_ e).
Proof.
  revert acc. induction es as [|e es IH]; intros acc; cbn [foldl].
  - split; [auto|]. intros [?|(e & He & _)]; [done|]. by apply elem_of_nil in He.
  - rewrite IH, !elem_of_union, !elem_of_singleton.
    setoid_rewrite elem_of_cons. naive_solver.
Qed.

Lemma find_exon_boundaries_elem_of (ts : list (Transcript score)) (x : Z) :
  x ∈ find_exon_boundaries ts ↔
  ∃ t e, t ∈ ts ∧ e ∈ exons t ∧ (x = start e ∨ x = end_ e).
Proof.
  unfold find_exon_boundaries, Py.sorted_set.
  rewrite merge_sort_Permutation, elem_of_elements.
  assert (∀ acc : gset Z,
    x ∈ foldl (λ (bs : gset Z) (transcript : Transcript score),
                 foldl (λ (bs : gset Z) exon, {[end_ exon]} ∪ ({[start exon]} ∪ bs))
                       bs (exons transcript)) acc ts ↔
    x ∈ acc ∨ ∃ t e, t ∈ ts ∧ e ∈ exons t ∧ (x = start e ∨ x = end_ e)) as Hgen.
  { induction ts as [|t ts IH]; intros acc; cbn [foldl].
    - split; [auto|]. intros [?|(t & e & Ht & _)]; [done|].
      by apply elem_of_nil in Ht.
    - rewrite IH, exon_fold_elem_of. setoid_rewrite elem_of_cons.
      split; [|naive_solver]. intros [[?|(e & ? & ?)]|(t' & e & ? & ?)]; eauto 8. }
  rewrite Hgen. split; [|auto]. by intros [?%elem_of_empty|?].
Qed.

Lemma consecutive_Forall (P : Z → Prop) (pts : list Z) :
  Forall P pts → Forall (λ p, P p.1 ∧ P p.2) (consecutive pts).
Proof.
  induction 1 as [|x l Hx Hl IH]; [constructor|].
  destruct l as [|y l]; [constructor|].
  change (consecutive (x :: y :: l)) with ((x, y) :: consecutive (y :: l)).
  constructor; [|done]. apply Forall_cons in Hl as [? _]. done.
Qed.

(** C3. Splitting a non-degenerate exon of a transcript set against the
    boundaries computed from that set yields sub-intervals that tile the
    exon: contiguous, non-overlapping, from the exon's start to its end,
    with the exon's total length (and every piece is delimited by two
    boundaries of the set). *)
Theorem split_exon_boundary_correctness (ts : list (Transcript score)) t e :
  t ∈ ts → e ∈ exons t → start e < end_ e →
  ∃ pieces, split_exon e (find_exon_boundaries ts) = Some pieces ∧
    pieces ≠ [] ∧
    chain (start e) pieces (end_ e) ∧
    total_length pieces = end_ e - start e ∧
    Forall (λ p, p.1 ∈ find_exon_boundaries ts ∧ p.2 ∈ find_exon_boundaries ts)
           pieces.
Proof.
  intros Ht He Hlt. destruct (find_exon_boundaries_sorted ts) as [Hs Hnd].
  destruct (split_exon_tiles e _ Hs Hnd Hlt) as (pieces & Hsplit & ? & ? & ?).
  exists pieces. split_and!; [done..|].
  rewrite split_exon_segments in Hsplit by (done || lia).
  injection Hsplit as <-. rewrite segments_consecutive by lia.
  apply (consecutive_Forall (λ x, x ∈ find_exon_boundaries ts)). constructor.
  - apply find_exon_boundaries_elem_of. eauto 6.
  - apply Forall_app. split.
    + apply Forall_forall. by intros x [_ ?]%list_elem_of_filter.
    + repeat constructor. apply find_exon_boundaries_elem_of. eauto 6.
Qed.

(** The node sequence of a transcript whose exons are intervals. *)
Definition nodes_of (bs : list Z) (t : Transcript score) : list node :=
  concat ((λ e, segments e bs) <$> exons t).

Definition intervals (t : Transcript score) : Prop :=
  Forall (λ e, start e ≤ end_ e) (exons t).

Lemma split_exons_nodes_of bs t :
  Sorted Z.le bs → intervals t → split_exons t bs = Some (nodes_of bs t).
Proof.
  intros Hbs Ht. unfold split_exons, nodes_of.
  rewrite (mapM_Some_2 _ _ ((λ e, segments e bs) <$> exons t)); [done|].
  apply Forall2_fmap_r, Forall_Forall2_diag.
  eapply Forall_impl; [exact Ht|]. intros e He. by apply split_exon_segments.
Qed.

Lemma segments_nil e bs : segments e bs = [] ↔ start e = end_ e.
Proof.
  unfold segments. case_decide; [done|].
  split; [|done]. by destruct (interior e bs).
Qed.

Lemma nodes_of_nil bs t :
  nodes_of bs t = [] ↔ Forall (λ e, start e = end_ e) (exons t).
Proof.
  unfold nodes_of. induction (exons t) as [|e es IH]; cbn.
  - split; [constructor|done].
  - rewrite Forall_cons, <-IH, <-segments_nil. split.
    + by intros [??]%app_eq_nil.
    + by intros [-> ->].
Qed.

End split_facts.

Lemma split_exon_boundary_correctness_witness :
  let t1 : Transcript Z := mkTranscript POS_STRAND [mkExon 100 500] 1 ∅ in
  let t2 : Transcript Z := mkTranscript NEG_STRAND [mkExon 200 350; mkExon 600 700] 2 ∅ in
  t1 ∈ [t1; t2] ∧ mkExon 100 500 ∈ exons t1 ∧ 100 < 500 ∧
  split_exon (mkExon 100 500) (find_exon_boundaries [t1; t2])
    = Some [(100, 200); (200, 350); (350, 500)].
Proof.
  cbv zeta. split_and!; [by left|by left|lia|].
  destruct (split_exon_boundary_correctness
              [mkTranscript POS_STRAND [mkExon 100 500] 1 ∅;
               mkTranscript NEG_STRAND [mkExon 200 350; mkExon 600 700] 2 ∅]
              (mkTranscript POS_STRAND [mkExon 100 500] (1 : Z) ∅)
              (mkExon 100 500)) as (pieces & Hp & _); [by left|by left|cbn; lia|].
  vm_compute. reflexivity.
Defined.

(** ** Strand voting *)
Section vote_facts.
Context {score : Type} `{!ScoreArith score}.
Implicit Types (nd : gmap node (@NodeData score)) (n : node) (nodes : list node).

(** The value that [node_data[n]] reads, whether or not the key is bound. *)
Definition nd_val nd n : NodeData := default node_data_func (nd !! n).

(** Two states of the [defaultdict] that read the same everywhere. *)
Definition nd_equiv nd nd' : Prop := ∀ n, nd_val nd n = nd_val nd' n.

Lemma nd_get_val nd n : (nd_get nd n).1 = nd_val nd n.
Proof. unfold nd_get, nd_val. by destruct (nd !! n). Qed.

Lemma nd_get_equiv nd n : nd_equiv (nd_get nd n).2 nd.
Proof.
  unfold nd_get, nd_equiv, nd_val. intros m.
  destruct (nd !! n) eqn:Hn; [done|]. cbn.
  destruct (decide (n = m)) as [->|]; [by rewrite lookup_insert_eq, Hn|].
  by rewrite lookup_insert_ne.
Qed.

(** The length-weighted score total of a strand over a node sequence,
    accumulated in iteration order from [0.0]. *)
Definition total_score (s : Strand) nodes (f : node → @NodeData score) : score :=
  foldl (λ acc n, s_add acc (s_scale (lookup3 (scores (f n)) s) (n.2 - n.1)))
        s_zero nodes.

(** The reference-flagged length of a strand ([which] selects its flag). *)
Definition ref_length (which : bool * bool → bool) nodes
    (f : node → @NodeData score) : Z :=
  foldl (λ acc n, if which (ref_strands (f n)) then acc + (n.2 - n.1) else acc)
        0 nodes.

(** The verdict on the four totals. *)
Definition verdict (tp tn : score) (rp rn : Z) : Strand :=
  if s_gtb (s_add (s_add s_zero tp) tn) FLOAT_PRECISION then
    if s_geb tp tn then POS_STRAND else NEG_STRAND
  else if bool_decide (0 < rp + rn) then
    if bool_decide (rn ≤ rp) then POS_STRAND else NEG_STRAND
  else NO_STRAND.

Definition resolve_pure nodes (f : node → @NodeData score) : Strand :=
  verdict (total_score POS_STRAND nodes f) (total_score NEG_STRAND nodes f)
          (ref_length fst nodes f) (ref_length snd nodes f).

Lemma resolve_fold nodes (f : node → @NodeData score) :
  ∀ tp tn rp rn nd, (∀ n, nd_val nd n = f n) →
  ∃ nd', (∀ n, nd_val nd' n = f n) ∧
    foldl resolve_strand_step ((tp, tn), (rp, rn), nd) nodes =
    ((foldl (λ acc n, s_add acc (s_scale (lookup3 (scores (f n)) POS_STRAND) (n.2 - n.1))) tp nodes,
      foldl (λ acc n, s_add acc (s_scale (lookup3 (scores (f n)) NEG_STRAND) (n.2 - n.1))) tn nodes),
     (foldl (λ acc n, if (ref_strands (f n)).1 then acc + (n.2 - n.1) else acc) rp nodes,
      foldl (λ acc n, if (ref_strands (f n)).2 then acc + (n.2 - n.1) else acc) rn nodes),
     nd').
Proof.
  induction nodes as [|n nodes IH]; intros tp tn rp rn nd Hnd.
  - by exists nd.
  - cbn [foldl]. unfold resolve_strand_step at 2.
    pose proof (nd_get_val nd n) as Hv. pose proof (nd_get_equiv nd n) as He.
    destruct (nd_get nd n) as [d nd1]. cbn [fst snd] in *.
    rewrite Hnd in Hv. subst d.
    apply IH. intros m. by rewrite (He m).
Qed.

Lemma resolve_strand_pure nodes nd :
  (resolve_strand nodes nd).1 = resolve_pure nodes (nd_val nd) ∧
  nd_equiv (resolve_strand nodes nd).2 nd.
Proof.
  unfold resolve_strand.
  destruct (resolve_fold nodes (nd_val nd) s_zero s_zero 0 0 nd) as (nd' & Hnd' & ->);
    [done|].
  cbn [fst snd]. split; [|done].
  unfold resolve_pure, verdict, sum_scores, total_score, ref_length. cbn [fst snd].
  by rewrite Z.add_0_l.
Qed.

End vote_facts.

(** C4. [resolve_strand] returns the strand with the larger
    length-weighted score total when the sum of the two totals exceeds
    [FLOAT_PRECISION] (ties go to the positive strand); otherwise, when
    some reference-flagged length exists, the strand with the larger
    reference-flagged length (ties go to the positive strand); otherwise
    no strand. On a node with positive score [5.0] and negative score [1.0]
    the verdict is positive (whenever the threshold is below the total,
    [60.0]); on a node without score that a reference flags as negative
    the verdict is negative (whenever the threshold is not below [0.0]). *)
Theorem resolve_strand_spec :
  (∀ (score : Type) (SA : ScoreArith score) (nodes : list node)
     (nd : gmap node NodeData),
     let tp := total_score POS_STRAND nodes (nd_val nd) in
     let tn := total_score NEG_STRAND nodes (nd_val nd) in
     let rp := ref_length fst nodes (nd_val nd) in
     let rn := ref_length snd nodes (nd_val nd) in
     (resolve_strand nodes nd).1 =
       if s_gtb (s_add (s_add s_zero tp) tn) FLOAT_PRECISION then
         if s_geb tp tn then POS_STRAND else NEG_STRAND
       else if bool_decide (0 < rp + rn) then
         if bool_decide (rn ≤ rp) then POS_STRAND else NEG_STRAND
       else NO_STRAND) ∧
  (∀ eps : float, PrimFloat.ltb eps 60 = true →
     (@resolve_strand float (float_arith eps) [(10, 20)]
        {[ (10, 20) := mkNodeData (false, false) (5, 1, 0)%float ]}).1
     = POS_STRAND) ∧
  (∀ eps : float, PrimFloat.ltb eps 0 = false →
     (@resolve_strand float (float_arith eps) [(10, 20)]
        {[ (10, 20) := mkNodeData (false, true) (0, 0, 0)%float ]}).1
     = NEG_STRAND).
Proof.
  split_and!.
  - intros. apply resolve_strand_pure.
  - intros eps Heps.
    rewrite (proj1 (resolve_strand_pure _ _)).
    unfold resolve_pure, verdict, total_score, ref_length, nd_val.
    cbn [foldl]. rewrite lookup_singleton_eq.
    cbn -[PrimFloat.ltb PrimFloat.leb]. 
    replace (PrimFloat.ltb eps _) with true by (rewrite <-Heps; reflexivity).
    reflexivity.
  - intros eps Heps.
    rewrite (proj1 (resolve_strand_pure _ _)).
    unfold resolve_pure, verdict, total_score, ref_length, nd_val.
    cbn [foldl]. rewrite lookup_singleton_eq.
    cbn -[PrimFloat.ltb PrimFloat.leb].
    replace (PrimFloat.ltb eps _) with false by (rewrite <-Heps; reflexivity).
    reflexivity.
Qed.

(** The binary64 value nearest to [1e-8]. *)
Definition eps_1e8 : float := 0x1.5798ee2308c3ap-27%float.

Lemma resolve_strand_spec_witness :
  PrimFloat.ltb eps_1e8 60 = true ∧
  (@resolve_strand float (float_arith eps_1e8) [(10, 20)]
     {[ (10, 20) := mkNodeData (false, false) (5, 1, 0)%float ]}).1
  = POS_STRAND.
Proof.
  split; [reflexivity|].
  exact (proj1 (proj2 resolve_strand_spec) eps_1e8 eq_refl).
Defined.

(** An environment for the examples: the attribute keys and an [int]
    that reads the literals ["0"] and ["1"]. *)
Definition example_env : Env := {|
  GTFAttr_REF := "ref";
  GTFAttr_TRANSCRIPT_ID := "transcript_id";
  py_int := λ s, if decide (s = "0"%string) then Some 0
                 else if decide (s = "1"%string) then Some 1 else None
|}.

Definition example_transcript {score} (s : Strand) (es : list Exon) (sc : score)
    (t_id : string) (ref : bool) : Transcript score :=
  mkTranscript s es sc
    (if ref then {[ "transcript_id"%string := t_id; "ref"%string := "1"%string ]}
     else {[ "transcript_id"%string := t_id ]}).

(** What a run of the resolver leaves behind: the strand of each
    transcript in the heap, the strand buckets and the reference lists. *)
Definition outcome {score : Type}
    (r : option (list (Transcript score) * buckets * ref_buckets))
  : option (list Strand * buckets * ref_buckets) :=
  match r with
  | Some (h, b, rb) => Some (List.map strand h, b, rb)
  | None => None
  end.

(** The two voting examples, run through the whole resolver. *)
Example strand_voting_example :
  let h : list (Transcript float) :=
    [example_transcript POS_STRAND [mkExon 10 20] 5%float "a" false;
     example_transcript NEG_STRAND [mkExon 10 20] 1%float "b" false;
     example_transcript NO_STRAND [mkExon 10 20] 2%float "c" false] in
  outcome (@partition_transcripts_by_strand float (float_arith eps_1e8)
             example_env h [0; 1; 2]%nat)
  = Some ([POS_STRAND; NEG_STRAND; POS_STRAND],
          ([0; 2]%nat, [1%nat], []), ([], [])).
Proof. vm_compute. reflexivity. Qed.

Example reference_fallback_example :
  let h : list (Transcript float) :=
    [example_transcript NEG_STRAND [mkExon 10 20] 7%float "r" true;
     example_transcript NO_STRAND [mkExon 10 20] 2%float "c" false] in
  outcome (@partition_transcripts_by_strand float (float_arith eps_1e8)
             example_env h [0; 1]%nat)
  = Some ([NEG_STRAND; NEG_STRAND], ([], [1%nat], []), ([], [0%nat])).
Proof. vm_compute. reflexivity. Qed.

(** An unstranded transcript that nothing touches stays unstranded, and
    one that only meets a transcript resolved in the same batch takes its
    strand from the cluster. *)
Example cluster_fallback_example :
  let h : list (Transcript float) :=
    [example_transcript POS_STRAND [mkExon 20 30] 3%float "s" false;
     example_transcript NO_STRAND [mkExon 10 20] 1%float "u1" false;
     example_transcript NO_STRAND [mkExon 10 30] 2%float "u2" false;
     example_transcript NO_STRAND [mkExon 50 60] 1%float "u3" false] in
  outcome (@partition_transcripts_by_strand float (float_arith eps_1e8)
             example_env h [0; 1; 2; 3]%nat)
  = Some ([POS_STRAND; POS_STRAND; POS_STRAND; NO_STRAND],
          ([0; 2; 1]%nat, [], [3%nat]), ([], [])).
Proof. vm_compute. reflexivity. Qed.

(** ** Directed graph assembly *)
Section graph_facts.
Context {score : Type} `{!ScoreArith score}.
Implicit Types (G : DiGraph score) (t : Transcript score) (u v n : Exon).

(** The walk along the node sequence of one transcript. *)
Definition walk (sc : score) (st : DiGraph score * Exon) (v : Exon)
  : DiGraph score * Exon :=
  (add_edge (add_node_directed st.1 v sc) st.2 v, v).

Lemma index_loop_fold {A B} (f : B → A → B) (l : list A) (k : nat) (b : B) :
  (k ≤ length l)%nat →
  foldlM (λ st i, v ← Py.index l i; Some (f st v)) b
         (Py.xrange (Z.of_nat k) (Z.of_nat (length l)))
  = Some (foldl f b (drop k l)).
Proof.
  intros Hk. remember (length l - k)%nat as d eqn:Hd.
  revert k b Hk Hd. induction d as [|d IH]; intros k b Hk Hd.
  - rewrite xrange_nil by lia. rewrite drop_ge by lia. done.
  - rewrite xrange_cons by lia. cbn [foldlM].
    destruct (lookup_lt_is_Some_2 l k) as [v Hv]; [lia|].
    rewrite index_nat, Hv. cbn [mbind option_bind].
    rewrite (drop_S l v k Hv). cbn [foldl].
    replace (Z.of_nat k + 1) with (Z.of_nat (S k)) by lia.
    apply IH; lia.
Qed.

(** [add_transcript_path] fails exactly at [nodes[0]] on an empty node
    sequence (or while splitting). *)
Lemma add_transcript_path_unfold strand (bs : list Z) G t :
  add_transcript_path strand bs G t =
  pieces ← split_exons t bs;
  match (if decide (strand = NEG_STRAND)
         then reverse ((λ p : node, mkExon p.1 p.2) <$> pieces)
         else (λ p : node, mkExon p.1 p.2) <$> pieces) with
  | [] => None
  | u :: rest =>
      Some (foldl (walk (score_ t)) (add_node_directed G u (score_ t), u) rest).1
  end.
Proof.
  unfold add_transcript_path. destruct (split_exons t bs) as [pieces|]; [|done].
  cbn [mbind option_bind].
  set (nodes := if decide (strand = NEG_STRAND) then _ else _).
  destruct nodes as [|u rest] eqn:Hnodes; [done|].
  change (Py.index (u :: rest) 0) with (Some u). cbn [mbind option_bind].
  pose proof (index_loop_fold (walk (score_ t)) (u :: rest) 1
                (add_node_directed G u (score_ t), u)) as Hloop.
  cbn [length drop] in Hloop. rewrite drop_0 in Hloop.
  erewrite (foldlM_ext _ (λ st i, v ← Py.index (u :: rest) i;
                                  Some (walk (score_ t) st v))).
  - change 1 with (Z.of_nat 1). cbn [length]. rewrite Hloop by lia.
    cbn [mbind option_bind]. by destruct (foldl _ _ _).
  - by intros [??] ?.
Qed.

Lemma add_transcript_path_is_Some strand (bs : list Z) G t :
  is_Some (add_transcript_path strand bs G t) ↔
  ∃ nodes, split_exons t bs = Some nodes ∧ nodes ≠ [].
Proof.
  rewrite add_transcript_path_unfold.
  destruct (split_exons t bs) as [pieces|]; cbn [mbind option_bind].
  - assert (∀ l : list Exon,
              (if decide (strand = NEG_STRAND) then reverse l else l) = [] ↔ l = [])
      as Hrev.
    { intros l. case_decide; [|done]. split; [|by intros ->].
      intros Hl%(f_equal reverse). by rewrite reverse_involutive in Hl. }
    destruct (if decide (strand = NEG_STRAND) then _ else _) as [|u rest] eqn:Hn.
    + apply Hrev, fmap_nil_inv in Hn as ->. split; [by intros []|].
      by intros (? & [= <-] & ?).
    + split; [intros _|by eauto]. exists pieces. split; [done|].
      intros ->. by destruct (decide (strand = NEG_STRAND)).
  - split; [by intros []|]. by intros (? & ? & _).
Qed.

Lemma foldlM_is_Some_Forall {A B} (f : B → A → option B) (P : A → Prop)
    (b : B) (l : list A) :
  (∀ b x, is_Some (f b x) ↔ P x) → is_Some (foldlM f b l) ↔ Forall P l.
Proof.
  intros Hf. revert b. induction l as [|x l IH]; intros b; cbn.
  - split; [constructor|eauto].
  - rewrite Forall_cons, <-(Hf b x). destruct (f b x) as [b'|]; cbn.
    + rewrite IH. split; [by eauto|by intros [_ ?]].
    + split; [by intros []|by intros [[] _]].
Qed.

(** C9. [create_directed_graph] returns a graph exactly when every
    transcript of its input yields at least one node after splitting
    (which, for exons that are intervals, means that it has an exon with
    [start < end]); a transcript whose exons are all degenerate makes the
    access to [nodes[0]] fail. *)
Theorem create_directed_graph_safety :
  (∀ (s : Strand) (ts : list (Transcript score)),
     is_Some (create_directed_graph s ts) ↔
     ∀ t, t ∈ ts →
       ∃ nodes, split_exons t (find_exon_boundaries ts) = Some nodes ∧ nodes ≠ []) ∧
  (∀ (ts : list (Transcript score)) t,
     intervals t →
     (∃ nodes, split_exons t (find_exon_boundaries ts) = Some nodes ∧ nodes ≠ []) ↔
     (∃ e, e ∈ exons t ∧ start e < end_ e)) ∧
  (∀ (s : Strand) (sc : score) (a : gmap string string),
     create_directed_graph s
       [mkTranscript POS_STRAND [mkExon 5 5; mkExon 9 9] sc a] = None).
Proof.
  split_and!.
  - intros s ts. unfold create_directed_graph.
    rewrite <-Forall_forall, <-(foldlM_is_Some_Forall
      (add_transcript_path s (find_exon_boundaries ts)) _ (mkDiGraph ∅ ∅ [])).
    + destruct (foldlM _ _ _); cbn; split; by eauto || intros [].
    + intros. apply add_transcript_path_is_Some.
  - intros ts t Ht.
    rewrite (split_exons_nodes_of _ t (proj1 (find_exon_boundaries_sorted ts)) Ht).
    unfold intervals in Ht. rewrite Forall_forall in Ht. split.
    + intros (nodes & [= <-] & Hne). rewrite nodes_of_nil in Hne.
      apply not_Forall_Exists in Hne; [|apply _].
      apply Exists_exists in Hne as (e & He & Hse). exists e. split; [done|].
      specialize (Ht e He). cbn in *. lia.
    + intros (e & He & Hlt). eexists. split; [done|].
      rewrite nodes_of_nil, Forall_forall. intros Hall.
      specialize (Hall e He). cbn in *. lia.
  - intros. unfold create_directed_graph. cbn [foldlM].
    rewrite add_transcript_path_unfold. unfold split_exons. cbn [exons mapM].
    unfold split_exon. cbn [start end_]. rewrite !decide_True by done.
    destruct s; reflexivity.
Qed.

End graph_facts.

(** ** Score conservation *)
Section score_conservation.
Context {score : Type} `{!ScoreArith score} `{!ExactScore score}.
Implicit Types (G : DiGraph score) (t : Transcript score) (u v n : Exon).

(** The sum of the scores of the nodes of a graph. *)
Definition graph_score_sum G : score :=
  map_fold (λ _ a acc, s_add (NODE_SCORE a) acc) s_zero (G_node G).

(** The sum, over a list of transcripts, of the score multiplied by the
    number of nodes of the split node sequence ([visits]). *)
Definition visits (bs : list Z) t : nat :=
  match split_exons t bs with
  | Some nodes => length nodes
  | None => 0
  end.

Definition visit_score_sum (bs : list Z) (ts : list (Transcript score)) : score :=
  foldr (λ t acc, s_add (s_scale (score_ t) (Z.of_nat (visits bs t))) acc)
        s_zero ts.

Lemma s_add_zero_r (a : score) : s_add a s_zero = a.
Proof. by rewrite s_add_comm, s_add_zero_l. Qed.

Lemma node_sum_insert (m : gmap Exon (NodeAttr score)) n a :
  m !! n = None →
  map_fold (λ _ a acc, s_add (NODE_SCORE a) acc) s_zero (<[n := a]> m)
  = s_add (NODE_SCORE a)
          (map_fold (λ _ a acc, s_add (NODE_SCORE a) acc) s_zero m).
Proof.
  intros Hn. apply (map_fold_insert_L (λ _ a acc, s_add (NODE_SCORE a) acc)); [|done].
  intros. by rewrite !s_add_assoc, (s_add_comm (NODE_SCORE z1)).
Qed.

Lemma node_sum_delete (m : gmap Exon (NodeAttr score)) n a :
  m !! n = Some a →
  map_fold (λ _ a acc, s_add (NODE_SCORE a) acc) s_zero m
  = s_add (NODE_SCORE a)
          (map_fold (λ _ a acc, s_add (NODE_SCORE a) acc) s_zero (delete n m)).
Proof.
  intros Hn. apply (map_fold_delete_L (λ _ a acc, s_add (NODE_SCORE a) acc)); [|done].
  intros. by rewrite !s_add_assoc, (s_add_comm (NODE_SCORE z1)).
Qed.

(** Every visit adds the transcript's score to the sum, the first visit
    of a node included. *)
Lemma add_node_directed_sum G n sc :
  graph_score_sum (add_node_directed G n sc) = s_add sc (graph_score_sum G).
Proof.
  unfold graph_score_sum, add_node_directed. cbn [G_node].
  destruct (G_node G !! n) as [a|] eqn:Hn.
  - rewrite (node_sum_delete (G_node G) n a Hn).
    rewrite <-(insert_delete_id (G_node G) n a Hn) at 1.
    rewrite alter_insert_eq, node_sum_insert by apply lookup_delete_eq.
    cbn [NODE_SCORE]. by rewrite !s_add_assoc, (s_add_comm sc).
  - rewrite alter_insert_eq, node_sum_insert by done.
    cbn [NODE_SCORE]. by rewrite s_add_zero_l.
Qed.

Lemma add_edge_sum G u v : graph_score_sum (add_edge G u v) = graph_score_sum G.
Proof. done. Qed.

Lemma walk_sum sc (rest : list Exon) G u :
  graph_score_sum (foldl (walk sc) (G, u) rest).1
  = s_add (s_scale sc (Z.of_nat (length rest))) (graph_score_sum G).
Proof.
  revert G u. induction rest as [|v rest IH]; intros G u.
  - cbn. by rewrite s_scale_0, s_add_zero_l.
  - cbn [foldl length]. unfold walk at 2. cbn [fst snd]. rewrite IH.
    rewrite add_edge_sum, add_node_directed_sum.
    rewrite Nat2Z.inj_succ, <-Z.add_1_r, s_scale_succ by lia.
    by rewrite !s_add_assoc, (s_add_comm sc).
Qed.

Lemma add_transcript_path_sum strand (bs : list Z) G t G' :
  add_transcript_path strand bs G t = Some G' →
  graph_score_sum G'
  = s_add (s_scale (score_ t) (Z.of_nat (visits bs t))) (graph_score_sum G).
Proof.
  rewrite add_transcript_path_unfold. unfold visits.
  destruct (split_exons t bs) as [pieces|]; [|done]. cbn [mbind option_bind].
  assert (length (if decide (strand = NEG_STRAND)
                  then reverse ((λ p : node, mkExon p.1 p.2) <$> pieces)
                  else (λ p : node, mkExon p.1 p.2) <$> pieces) = length pieces)
    as Hlen.
  { case_decide; by rewrite ?length_reverse, length_fmap. }
  destruct (if decide (strand = NEG_STRAND) then _ else _) as [|u rest]; [done|].
  intros [= <-]. rewrite walk_sum, add_node_directed_sum, <-Hlen.
  cbn [length]. rewrite Nat2Z.inj_succ, <-Z.add_1_r, s_scale_succ by lia.
  by rewrite !s_add_assoc, (s_add_comm (score_ t)).
Qed.

Lemma foldlM_path_sum strand (bs : list Z) (ts : list (Transcript score)) G G' :
  foldlM (add_transcript_path strand bs) G ts = Some G' →
  graph_score_sum G' = s_add (visit_score_sum bs ts) (graph_score_sum G).
Proof.
  revert G. induction ts as [|t ts IH]; intros G; cbn.
  - intros [= <-]. by rewrite s_add_zero_l.
  - destruct (add_transcript_path strand bs G t) as [G1|] eqn:HG1; [|done].
    cbn. intros HG'. rewrite (IH _ HG'), (add_transcript_path_sum _ _ _ _ _ HG1).
    by rewrite !s_add_assoc, (s_add_comm (visit_score_sum bs ts)).
Qed.

(** In exact arithmetic, the sum of the node scores of the graph built
    from a strand bucket equals the sum, over the transcripts of the
    bucket, of the transcript's score multiplied by the number of nodes
    of its split node sequence. *)
Lemma exact_score_conservation (s : Strand) (ts : list (Transcript score)) G :
  create_directed_graph s ts = Some G →
  graph_score_sum G = visit_score_sum (find_exon_boundaries ts) ts.
Proof.
  unfold create_directed_graph.
  destruct (foldlM _ _ _) as [G0|] eqn:HG0; [|done]. intros [= <-].
  change (graph_score_sum G0
          = visit_score_sum (find_exon_boundaries ts) ts).
  rewrite (foldlM_path_sum _ _ _ _ _ HG0).
  unfold graph_score_sum. cbn [G_node]. rewrite map_fold_empty.
  apply s_add_zero_r.
Qed.

End score_conservation.

(** *** Arithmetic that is exact on a range

    Scores that stand for the natural numbers below a bound: [emb k] is
    the score of [k], and sums and multiples are exact as long as they
    stay below the bound. *)
Section ranged_conservation.
Context {score : Type} `{!ScoreArith score}.
Variables (emb : Z → score) (bound : Z).
Hypothesis emb_zero : emb 0 = s_zero.
Hypothesis emb_add :
  ∀ a b, 0 ≤ a → 0 ≤ b → a + b < bound → s_add (emb a) (emb b) = emb (a + b).
Hypothesis emb_scale :
  ∀ a n, 0 ≤ a < bound → 0 ≤ n < bound → a * n < bound →
         s_scale (emb a) n = emb (a * n).
Implicit Types (G : DiGraph score) (t : Transcript score) (n : Exon)
  (m : gmap Exon (NodeAttr score)) (vm : gmap Exon Z) (k : Transcript score → Z).

(** The node scores of [m] stand for the numbers of [vm]. *)
Definition stands_for m vm : Prop :=
  ∀ n, match m !! n, vm !! n with
       | Some a, Some v => 0 ≤ v ∧ NODE_SCORE a = emb v
       | None, None => True
       | _, _ => False
       end.

Definition total vm : Z := map_fold (λ _ v acc, v + acc) 0 vm.

(** The sums of the claim, over the numbers that the scores stand for. *)
Definition weighted_visits (bs : list Z) k (ts : list (Transcript score)) : Z :=
  foldr (λ t acc, k t * Z.of_nat (visits bs t) + acc) 0 ts.

Definition total_visits (bs : list Z) (ts : list (Transcript score)) : Z :=
  foldr (λ t acc, Z.of_nat (visits bs t) + acc) 0 ts.

Lemma total_insert vm n v :
  vm !! n = None → total (<[n := v]> vm) = v + total vm.
Proof.
  intros Hn. apply (map_fold_insert_L (λ _ v acc, v + acc)); [|done].
  intros. lia.
Qed.

Lemma total_delete vm n v :
  vm !! n = Some v → total vm = v + total (delete n vm).
Proof.
  intros Hn. apply (map_fold_delete_L (λ _ v acc, v + acc)); [|done].
  intros. lia.
Qed.

Lemma total_nonneg vm : map_Forall (λ _ v, 0 ≤ v) vm → 0 ≤ total vm.
Proof.
  induction vm as [|n v vm Hn IH] using map_ind; intros Hall.
  - unfold total. by rewrite map_fold_empty.
  - rewrite total_insert by done.
    apply map_Forall_insert in Hall as [? ?]; [|done]. specialize (IH ltac:(done)). lia.
Qed.

Lemma stands_for_nonneg m vm : stands_for m vm → map_Forall (λ _ v, 0 ≤ v) vm.
Proof.
  intros Hm n v Hv. specialize (Hm n). rewrite Hv in Hm.
  destruct (m !! n); [by destruct Hm|done].
Qed.

Lemma stands_for_le m vm n v :
  stands_for m vm → vm !! n = Some v → 0 ≤ v ∧ v + total (delete n vm) = total vm.
Proof.
  intros Hm Hv. split.
  - by apply (stands_for_nonneg m vm Hm n v).
  - by rewrite (total_delete vm n v).
Qed.

Lemma stands_for_delete m vm n :
  stands_for m vm → 0 ≤ total (delete n vm).
Proof.
  intros Hm. apply total_nonneg. intros n' v' Hv'.
  apply lookup_delete_Some in Hv' as [_ Hv'].
  by apply (stands_for_nonneg m vm Hm n' v').
Qed.

(** A visit adds the number of the score to the node. *)
Lemma add_node_directed_stands G vm n v :
  stands_for (G_node G) vm → 0 ≤ v → total vm + v < bound →
  ∃ vm', stands_for (G_node (add_node_directed G n (emb v))) vm' ∧
         total vm' = total vm + v.
Proof.
  intros Hm Hv Hb. exists (<[n := default 0 (vm !! n) + v]> vm).
  pose proof (Hm n) as Hn. pose proof (stands_for_delete _ _ n Hm) as Hdel.
  pose proof (total_nonneg vm (stands_for_nonneg _ _ Hm)) as Hpos.
  unfold add_node_directed. cbn [G_node].
  destruct (G_node G !! n) as [a|] eqn:Ha, (vm !! n) as [v0|] eqn:Hv0; try done.
  - destruct Hn as [Hv0' Hsc]. change (default 0 (Some v0)) with v0.
    pose proof (total_delete vm n v0 Hv0) as Ht. split.
    + intros n'. destruct (decide (n' = n)) as [->|Hne].
      * rewrite lookup_alter_eq, Ha, lookup_insert_eq. cbn.
        split; [lia|]. rewrite Hsc. apply emb_add; lia.
      * rewrite lookup_alter_ne, lookup_insert_ne by done. apply Hm.
    + rewrite <-insert_delete_eq, total_insert by apply lookup_delete_eq. lia.
  - change (default 0 None) with 0. split.
    + intros n'. destruct (decide (n' = n)) as [->|Hne].
      * rewrite lookup_alter_eq, !lookup_insert_eq. cbn.
        split; [lia|]. rewrite <-emb_zero. apply emb_add; lia.
      * rewrite lookup_alter_ne, !lookup_insert_ne by done. apply Hm.
    + rewrite total_insert by done. lia.
Qed.

Lemma walk_stands v (rest : list Exon) G u vm :
  stands_for (G_node G) vm → 0 ≤ v →
  total vm + v * Z.of_nat (length rest) < bound →
  ∃ vm', stands_for (G_node (foldl (walk (emb v)) (G, u) rest).1) vm' ∧
         total vm' = total vm + v * Z.of_nat (length rest).
Proof.
  revert G u vm. induction rest as [|w rest IH]; intros G u vm Hm Hv Hb.
  - exists vm. split; [done|]. cbn. lia.
  - cbn [foldl length] in *. unfold walk at 2. cbn [fst snd].
    destruct (add_node_directed_stands G vm w v Hm Hv) as (vm1 & Hm1 & Ht1); [nia|].
    destruct (IH (add_edge (add_node_directed G w (emb v)) u w) w vm1)
      as (vm' & Hm' & Ht'); [done|done|nia|].
    exists vm'. split; [done|]. lia.
Qed.

Lemma add_transcript_path_stands strand (bs : list Z) G t G' vm v :
  add_transcript_path strand bs G t = Some G' →
  stands_for (G_node G) vm → score_ t = emb v → 0 ≤ v →
  total vm + v * Z.of_nat (visits bs t) < bound →
  (0 < visits bs t)%nat ∧
  ∃ vm', stands_for (G_node G') vm' ∧
         total vm' = total vm + v * Z.of_nat (visits bs t).
Proof.
  rewrite add_transcript_path_unfold. unfold visits.
  destruct (split_exons t bs) as [pieces|]; [|done]. cbn [mbind option_bind].
  assert (length (if decide (strand = NEG_STRAND)
                  then reverse ((λ p : node, mkExon p.1 p.2) <$> pieces)
                  else (λ p : node, mkExon p.1 p.2) <$> pieces) = length pieces)
    as Hlen.
  { case_decide; by rewrite ?length_reverse, length_fmap. }
  destruct (if decide (strand = NEG_STRAND) then _ else _) as [|u rest]; [done|].
  intros [= <-] Hm -> Hv Hb. rewrite <-Hlen in *. cbn [length] in *.
  split; [lia|].
  destruct (add_node_directed_stands G vm u v Hm Hv) as (vm1 & Hm1 & Ht1); [nia|].
  destruct (walk_stands v rest (add_node_directed G u (emb v)) u vm1)
    as (vm' & Hm' & Ht'); [done|done|nia|].
  exists vm'. split; [done|]. lia.
Qed.

Lemma weighted_visits_nonneg (bs : list Z) k (ts : list (Transcript score)) :
  Forall (λ t, 0 ≤ k t ∧ score_ t = emb (k t)) ts → 0 ≤ weighted_visits bs k ts.
Proof.
  induction 1 as [|t ts [Hk _] _ IH]; [done|].
  change (0 ≤ k t * Z.of_nat (visits bs t) + weighted_visits bs k ts). nia.
Qed.

Lemma total_visits_nonneg (bs : list Z) (ts : list (Transcript score)) :
  0 ≤ total_visits bs ts.
Proof.
  induction ts as [|t ts IH]; [done|].
  change (0 ≤ Z.of_nat (visits bs t) + total_visits bs ts). lia.
Qed.

Lemma foldlM_path_stands strand (bs : list Z) k (ts : list (Transcript score))
    G G' vm :
  foldlM (add_transcript_path strand bs) G ts = Some G' →
  Forall (λ t, 0 ≤ k t ∧ score_ t = emb (k t)) ts →
  stands_for (G_node G) vm →
  total vm + weighted_visits bs k ts < bound →
  Forall (λ t, (0 < visits bs t)%nat) ts ∧
  ∃ vm', stands_for (G_node G') vm' ∧
         total vm' = total vm + weighted_visits bs k ts.
Proof.
  revert G vm. induction ts as [|t ts IH]; intros G vm Hrun Hk Hm Hb.
  - injection Hrun as <-. split; [done|]. exists vm. split; [done|]. cbn. lia.
  - cbn [foldlM] in Hrun.
    destruct (add_transcript_path strand bs G t) as [G1|] eqn:HG1; [|done].
    cbn [mbind option_bind] in Hrun.
    apply Forall_cons in Hk as [[Hkt Hsc] Hk]. cbn [weighted_visits foldr] in *.
    fold (weighted_visits bs k ts) in *.
    pose proof (weighted_visits_nonneg bs k ts Hk).
    destruct (add_transcript_path_stands _ _ _ _ _ vm (k t) HG1 Hm Hsc Hkt)
      as (Hpos & vm1 & Hm1 & Ht1); [lia|].
    destruct (IH G1 vm1 Hrun Hk Hm1) as (Hall & vm' & Hm' & Ht'); [lia|].
    split; [by constructor|]. exists vm'. split; [done|]. lia.
Qed.

(** The sum of the node scores stands for the total. *)
Lemma graph_score_sum_stands m vm :
  stands_for m vm → total vm < bound →
  map_fold (λ _ a acc, s_add (NODE_SCORE a) acc) s_zero m = emb (total vm).
Proof.
  revert vm.
  apply (map_fold_weak_ind (λ r m, ∀ vm, stands_for m vm → total vm < bound →
                                         r = emb (total vm))).
  - intros vm Hm _. assert (vm = ∅) as ->.
    { apply map_eq. intros n. specialize (Hm n). rewrite lookup_empty in *.
      by destruct (vm !! n). }
    unfold total. by rewrite map_fold_empty.
  - intros n a m' r Hn IH vm Hm Hb.
    pose proof (Hm n) as Hmn. rewrite lookup_insert_eq in Hmn.
    destruct (vm !! n) as [v|] eqn:Hv; [|done]. destruct Hmn as [Hv0 Hsc].
    pose proof (total_delete vm n v Hv) as Ht.
    pose proof (stands_for_delete _ _ n Hm) as Hdel.
    rewrite (IH (delete n vm)); [|..|lia].
    + rewrite Hsc, Ht. apply emb_add; lia.
    + intros n'. destruct (decide (n' = n)) as [->|Hne].
      * by rewrite Hn, lookup_delete_eq.
      * rewrite lookup_delete_ne by done. specialize (Hm n').
        by rewrite lookup_insert_ne in Hm.
Qed.

(** The sum over the transcripts stands for the same total. *)
Lemma visit_score_sum_stands (bs : list Z) k (ts : list (Transcript score)) :
  Forall (λ t, 0 ≤ k t ∧ score_ t = emb (k t)) ts →
  Forall (λ t, (0 < visits bs t)%nat) ts →
  weighted_visits bs k ts < bound → total_visits bs ts < bound →
  visit_score_sum bs ts = emb (weighted_visits bs k ts).
Proof.
  induction 1 as [|t ts [Hk Hsc] Hks IH]; intros Hpos Hw Hv; cbn.
  { by rewrite emb_zero. }
  apply Forall_cons in Hpos as [Hpos Hposs].
  cbn [weighted_visits total_visits foldr] in *.
  fold (weighted_visits bs k ts) in *. fold (total_visits bs ts) in *.
  fold (visit_score_sum bs ts).
  pose proof (weighted_visits_nonneg bs k ts Hks).
  pose proof (total_visits_nonneg bs ts).
  rewrite IH by (done || lia). rewrite Hsc, emb_scale by nia.
  apply emb_add; nia.
Qed.

Lemma ranged_score_conservation (s : Strand) k (ts : list (Transcript score)) G :
  Forall (λ t, 0 ≤ k t ∧ score_ t = emb (k t)) ts →
  weighted_visits (find_exon_boundaries ts) k ts < bound →
  total_visits (find_exon_boundaries ts) ts < bound →
  create_directed_graph s ts = Some G →
  graph_score_sum G = visit_score_sum (find_exon_boundaries ts) ts.
Proof.
  intros Hk Hw Hv. unfold create_directed_graph.
  destruct (foldlM _ _ _) as [G0|] eqn:HG0; [|done]. intros [= <-].
  destruct (foldlM_path_stands _ _ k _ _ _ ∅ HG0 Hk) as (Hpos & vm & Hm & Ht).
  { intros n. cbn [G_node]. by rewrite !lookup_empty. }
  { unfold total. rewrite map_fold_empty. lia. }
  unfold total at 2 in Ht. rewrite map_fold_empty in Ht.
  rewrite (visit_score_sum_stands _ k ts Hk Hpos Hw Hv).
  unfold graph_score_sum. cbn [G_node].
  rewrite (graph_score_sum_stands _ vm Hm) by lia. f_equal. lia.
Qed.

End ranged_conservation.

(** *** Binary64 arithmetic on multiples of a power of two

    Sums and integer multiples of scores that are multiples of [2^-q] are
    exact in binary64 as long as they stay below [2^53] units: no
    addition or multiplication rounds. The proofs go through the
    specification of the primitive floats ([SpecFloat]). *)
(** [m * 2^k] on mantissas. *)
Definition mshl (m : positive) (k : Z) : positive :=
  match k with Zpos p => Pos.iter xO m p | _ => m end.

Lemma iter_xO_spec m p : Zpos (Pos.iter xO m p) = Zpos m * 2 ^ Zpos p.
Proof.
  induction p as [|p IH] using Pos.peano_ind.
  - cbn [Pos.iter]. lia.
  - rewrite Pos.iter_succ, Pos2Z.inj_xO, IH, Pos2Z.inj_succ, Z.pow_succ_r by lia. lia.
Qed.

Lemma shl_spec m k : 0 ≤ k → Zpos (mshl m k) = Zpos m * 2 ^ k.
Proof. destruct k; [cbn; lia|intros; apply iter_xO_spec|lia]. Qed.

Lemma digits2_log2 p : Zpos (digits2_pos p) = Z.log2 (Zpos p) + 1.
Proof.
  induction p as [p IH|p IH|]; cbn [digits2_pos].
  - rewrite Pos2Z.inj_succ, IH, Pos2Z.inj_xI, Z.log2_succ_double by lia. lia.
  - rewrite Pos2Z.inj_succ, IH, Pos2Z.inj_xO, Z.log2_double by lia. lia.
  - reflexivity.
Qed.

Lemma digits_shl m k :
  0 ≤ k → Zpos (digits2_pos (mshl m k)) = Zpos (digits2_pos m) + k.
Proof.
  intros Hk. rewrite !digits2_log2, shl_spec, Z.log2_mul_pow2 by lia. lia.
Qed.

Lemma shl_shl m a b : 0 ≤ a → 0 ≤ b → mshl (mshl m a) b = mshl m (a + b).
Proof.
  intros Ha Hb. apply Pos2Z.inj. rewrite !shl_spec, Z.pow_add_r by lia. lia.
Qed.

Lemma shr_iter p M :
  SpecFloat.iter_pos shr_1 p (Build_shr_record (Zpos (Pos.iter xO M p)) false false)
  = Build_shr_record (Zpos M) false false.
Proof.
  revert M. induction p as [p IH|p IH|]; intros M; cbn [SpecFloat.iter_pos Pos.iter].
  - cbn [shr_1 orb]. by rewrite !IH.
  - by rewrite !IH.
  - reflexivity.
Qed.

Lemma shr_exact M k e :
  0 ≤ k →
  shr (Build_shr_record (Zpos (mshl M k)) false false) e k
  = (Build_shr_record (Zpos M) false false, e + k).
Proof.
  intros Hk. destruct k as [|p|p]; [|by cbn [shr mshl]; rewrite shr_iter|lia].
  cbn [shr mshl]. f_equal. lia.
Qed.

Lemma fexp_normal d : -1021 ≤ d → fexp prec emax d = d - 53.
Proof. unfold fexp, SpecFloat.emin, prec, emax. lia. Qed.

(** Rounding a mantissa whose bits beyond the first 53 are zero. *)
Lemma binary_round_aux_exact sx M k e :
  Zpos (digits2_pos M) = 53 → 0 ≤ k → -1074 ≤ e + k ≤ 971 →
  binary_round_aux prec emax sx (Zpos (mshl M k)) e loc_Exact
  = S754_finite sx M (e + k).
Proof.
  intros HM Hk He. unfold binary_round_aux, shr_fexp.
  cbn [Zdigits2 shr_record_of_loc]. rewrite digits_shl, HM by done.
  rewrite fexp_normal by lia.
  replace (53 + k + e - 53 - e) with k by lia.
  rewrite shr_exact by done.
  cbn [shr_m loc_of_shr_record round_nearest_even Zdigits2 shr_record_of_loc].
  rewrite HM, fexp_normal by lia.
  replace (53 + (e + k) - 53 - (e + k)) with 0 by lia.
  cbn [shr shr_m]. unfold prec, emax.
  destruct (Z.leb_spec (e + k) (1024 - 53)); [done|lia].
Qed.

Lemma shl_align_eq m ex ex' :
  shl_align m ex ex' = (mshl m (ex - ex'), Z.min ex ex').
Proof.
  unfold shl_align, mshl.
  destruct (ex' - ex) as [|d|d] eqn:Hd, (ex - ex') as [|d'|d'] eqn:Hd';
    try lia; try (f_equal; lia).
  assert (d = d') as -> by lia. f_equal. lia.
Qed.

(** The canonical form of [n * 2^e] for a number [n] of at most 53 bits. *)
Definition canon (sx : bool) (n : positive) (e : Z) : spec_float :=
  S754_finite sx (mshl n (53 - Zpos (digits2_pos n)))
              (e + Zpos (digits2_pos n) - 53).

Lemma binary_round_exact sx n j e :
  Zpos (digits2_pos n) ≤ 53 → 0 ≤ j →
  -1074 ≤ e + Zpos (digits2_pos n) - 53 ≤ 971 →
  binary_round prec emax sx (mshl n j) (e - j) = canon sx n e.
Proof.
  intros Hn Hj He. unfold binary_round, canon.
  rewrite digits_shl by done. rewrite fexp_normal by lia.
  rewrite shl_align_eq.
  set (D := Zpos (digits2_pos n)) in *.
  destruct (Z.le_gt_cases (D + j) 53) as [Hle|Hgt].
  - replace (e - j - (D + j + (e - j) - 53)) with (53 - D - j) by lia.
    rewrite shl_shl by lia. replace (j + (53 - D - j)) with (53 - D) by lia.
    rewrite Z.min_r by lia.
    pose proof (binary_round_aux_exact sx (mshl n (53 - D)) 0
                  (D + j + (e - j) - 53)) as H.
    cbn [mshl] in H. rewrite H; [f_equal; lia| |lia|lia].
    rewrite digits_shl by lia. fold D. lia.
  - replace (mshl n j) with (mshl (mshl n (53 - D)) (D + j - 53))
      by (rewrite shl_shl by lia; f_equal; lia).
    replace (e - j - (D + j + (e - j) - 53)) with (- (D + j - 53)) by lia.
    assert (mshl (mshl (mshl n (53 - D)) (D + j - 53)) (- (D + j - 53))
            = mshl (mshl n (53 - D)) (D + j - 53)) as ->.
    { destruct (D + j - 53) eqn:E; try lia. reflexivity. }
    rewrite Z.min_l by lia.
    rewrite binary_round_aux_exact; [f_equal; lia| |lia|lia].
    rewrite digits_shl by lia. fold D. lia.
Qed.

(** The binary64 form of [k * 2^e] for a natural number [k] below
    [2^53]. *)
Definition SFdyadic (k e : Z) : spec_float :=
  match k with
  | Zpos n => canon false n e
  | _ => S754_zero false
  end.

Lemma digits_bound n : Zpos n < 2 ^ 53 → 1 ≤ Zpos (digits2_pos n) ≤ 53.
Proof.
  intros Hn. rewrite digits2_log2.
  pose proof (Z.log2_nonneg (Zpos n)).
  pose proof (proj1 (Z.log2_lt_pow2 (Zpos n) 53 ltac:(lia)) Hn). lia.
Qed.

Lemma binary_normalize_exact k e :
  0 ≤ k < 2 ^ 53 → -1022 ≤ e ≤ 971 →
  binary_normalize prec emax k e false = SFdyadic k e.
Proof.
  intros Hk He. destruct k as [|n|n]; [done| |lia].
  cbn [binary_normalize SFdyadic].
  pose proof (digits_bound n ltac:(lia)).
  pose proof (binary_round_exact false n 0 e) as H0.
  cbn [mshl] in H0. rewrite Z.sub_0_r in H0. apply H0; lia.
Qed.

Lemma SFdyadic_valid k e :
  0 ≤ k < 2 ^ 53 → -1022 ≤ e ≤ 971 → valid_binary (SFdyadic k e) = true.
Proof.
  intros Hk He. destruct k as [|n|n]; [done| |done].
  pose proof (digits_bound n ltac:(lia)).
  cbn [SFdyadic canon SpecFloat.valid_binary]. unfold bounded, canonical_mantissa.
  rewrite digits_shl by lia. rewrite fexp_normal by lia.
  apply andb_true_intro. split; [apply Z.eqb_eq; lia|].
  apply Z.leb_le. unfold emax, prec. lia.
Qed.

Lemma SFadd_exact a b e :
  0 ≤ a → 0 ≤ b → a + b < 2 ^ 53 → -1022 ≤ e ≤ 971 →
  SFadd prec emax (SFdyadic a e) (SFdyadic b e) = SFdyadic (a + b) e.
Proof.
  intros Ha Hb Hab He.
  destruct a as [|na|na]; [by destruct b| |lia].
  destruct b as [|nb|nb]; [done| |lia].
  pose proof (digits_bound na ltac:(lia)).
  pose proof (digits_bound nb ltac:(lia)).
  pose proof (digits_bound (na + nb) ltac:(lia)).
  cbn [SFdyadic canon SFadd Z.add cond_Zopp]. rewrite !shl_align_eq. cbn [fst].
  set (Da := Zpos (digits2_pos na)) in *. set (Db := Zpos (digits2_pos nb)) in *.
  rewrite !shl_shl by lia.
  set (J := 53 - Z.min Da Db).
  replace (53 - Da + (e + Da - 53 - Z.min (e + Da - 53) (e + Db - 53))) with J by lia.
  replace (53 - Db + (e + Db - 53 - Z.min (e + Da - 53) (e + Db - 53))) with J by lia.
  replace (Z.min (e + Da - 53) (e + Db - 53)) with (e - J) by lia.
  replace (Zpos (mshl na J) + Zpos (mshl nb J)) with (Zpos (mshl (na + nb) J))
    by (rewrite !shl_spec, Pos2Z.inj_add by lia; ring).
  cbn [binary_normalize]. apply binary_round_exact; lia.
Qed.

Lemma SFmul_exact a c e :
  0 ≤ a → 0 ≤ c → a * c < 2 ^ 53 → -1022 ≤ e ≤ 971 →
  SFmul prec emax (SFdyadic a e) (SFdyadic c 0) = SFdyadic (a * c) e.
Proof.
  intros Ha Hc Hac He.
  destruct a as [|na|na]; [by destruct c| |lia].
  destruct c as [|nc|nc]; [done| |lia].
  assert (Zpos na < 2 ^ 53 ∧ Zpos nc < 2 ^ 53) as [Hna Hnc] by nia.
  pose proof (digits_bound na Hna). pose proof (digits_bound nc Hnc).
  pose proof (digits_bound (na * nc) ltac:(lia)).
  pose proof (Z.log2_mul_below (Zpos na) (Zpos nc) ltac:(lia) ltac:(lia)) as Hlog.
  pose proof (digits2_log2 na). pose proof (digits2_log2 nc).
  pose proof (digits2_log2 (na * nc)) as Hd. rewrite Pos2Z.inj_mul in Hd.
  change (Zpos na * Zpos nc) with (Zpos (na * nc)) at 1.
  cbn [SFdyadic]. unfold canon. cbn [SFmul xorb].
  set (Da := Zpos (digits2_pos na)) in *. set (Dc := Zpos (digits2_pos nc)) in *.
  set (Dac := Zpos (digits2_pos (na * nc))) in *.
  replace (mshl na (53 - Da) * mshl nc (53 - Dc))%positive
    with (mshl (mshl (na * nc) (53 - Dac)) (53 + Dac - Da - Dc)).
  2:{ apply Pos2Z.inj. rewrite shl_shl by lia.
      rewrite Pos2Z.inj_mul, !shl_spec, Pos2Z.inj_mul by lia.
      replace (53 - Dac + (53 + Dac - Da - Dc)) with ((53 - Da) + (53 - Dc)) by lia.
      rewrite Z.pow_add_r by lia. ring. }
  rewrite binary_round_aux_exact; [f_equal; lia| |lia|lia].
  rewrite digits_shl by lia. fold Dac. lia.
Qed.

(** The binary64 value of [k / 2^q] (to nearest, ties to even): the
    scores that are multiples of [2^-q]. For [q = 0] it is
    [float_of_Z k]. It is exact for a natural number [k] below [2^53]. *)
Definition dyadic (q k : Z) : float :=
  SF2Prim (binary_normalize prec emax k (- q) false).

Lemma Prim2SF_dyadic q k :
  0 ≤ q ≤ 1022 → 0 ≤ k < 2 ^ 53 → Prim2SF (dyadic q k) = SFdyadic k (- q).
Proof.
  intros Hq Hk. unfold dyadic. rewrite binary_normalize_exact by lia.
  apply Prim2SF_SF2Prim, SFdyadic_valid; lia.
Qed.

Lemma float_of_Z_dyadic k : float_of_Z k = dyadic 0 k.
Proof. reflexivity. Qed.

Lemma dyadic_add q a b :
  0 ≤ q ≤ 1022 → 0 ≤ a → 0 ≤ b → a + b < 2 ^ 53 →
  PrimFloat.add (dyadic q a) (dyadic q b) = dyadic q (a + b).
Proof.
  intros Hq Ha Hb Hab. apply Prim2SF_inj.
  rewrite add_spec, !Prim2SF_dyadic by lia. apply SFadd_exact; lia.
Qed.

Lemma dyadic_mul q a c :
  0 ≤ q ≤ 1022 → 0 ≤ a < 2 ^ 53 → 0 ≤ c < 2 ^ 53 → a * c < 2 ^ 53 →
  PrimFloat.mul (dyadic q a) (float_of_Z c) = dyadic q (a * c).
Proof.
  intros Hq Ha Hc Hac. apply Prim2SF_inj.
  assert (0 ≤ a * c) by nia.
  rewrite mul_spec, float_of_Z_dyadic, !Prim2SF_dyadic by lia.
  apply SFmul_exact; lia.
Qed.

Lemma dyadic_zero q : dyadic q 0 = 0%float.
Proof. reflexivity. Qed.

(** C5, as amended. The sum of the node scores of the graph built from a
    strand bucket equals the sum, over the transcripts of the bucket, of
    the transcript's score multiplied by the number of nodes of its split
    node sequence (a node receives the score on every visit, the first
    included) whenever no operation rounds:
    - in every exact score arithmetic, and
    - in binary64, which the program runs on, when the scores are
      non-negative multiples [k / 2^q] of a power of two (integer-valued
      scores for [q = 0]) and the total [Σ k * visits], as well as the
      number of visits, stays below [2^53]. *)
Theorem create_directed_graph_score_conservation :
  (∀ (score : Type) (A : ScoreArith score), ExactScore score →
     ∀ (s : Strand) (ts : list (Transcript score)) G,
       create_directed_graph s ts = Some G →
       graph_score_sum G = visit_score_sum (find_exon_boundaries ts) ts) ∧
  (∀ (eps : float) (q : Z) (k : Transcript float → Z) (s : Strand)
     (ts : list (Transcript float)) G,
     0 ≤ q ≤ 1022 →
     Forall (λ t, 0 ≤ k t ∧ score_ t = dyadic q (k t)) ts →
     weighted_visits (find_exon_boundaries ts) k ts < 2 ^ 53 →
     total_visits (find_exon_boundaries ts) ts < 2 ^ 53 →
     @create_directed_graph float (float_arith eps) s ts = Some G →
     @graph_score_sum float (float_arith eps) G
     = @visit_score_sum float (float_arith eps) (find_exon_boundaries ts) ts).
Proof.
  split.
  - intros score A HA s ts G. apply exact_score_conservation.
  - intros eps q k s ts G Hq Hk Hw Hv.
    exact (@ranged_score_conservation float (float_arith eps) (dyadic q) (2 ^ 53)
             (dyadic_zero q)
             (λ a b Ha Hb Hab, dyadic_add q a b Hq Ha Hb Hab)
             (λ a n Ha Hn Han, dyadic_mul q a n Hq Ha Hn Han)
             s k ts G Hk Hw Hv).
Qed.

(** Two transcripts of scores [2] and [3] in exact arithmetic, and of
    scores [0.5] and [0.25] in binary64. *)
Definition quarter_scores (t : Transcript float) : Z :=
  if PrimFloat.eqb (score_ t) 0.5 then 2 else 1.

Definition quarter_bucket : list (Transcript float) :=
  [mkTranscript NEG_STRAND [mkExon 100 500] 0.5%float ∅;
   mkTranscript NEG_STRAND [mkExon 200 350; mkExon 600 700] 0.25%float ∅].

Lemma create_directed_graph_score_conservation_witness :
  (let ts : list (Transcript Z) :=
     [mkTranscript NEG_STRAND [mkExon 100 500] 2 ∅;
      mkTranscript NEG_STRAND [mkExon 200 350; mkExon 600 700] 3 ∅] in
   ∃ G, @create_directed_graph Z (Z_arith 0) NEG_STRAND ts = Some G ∧
        @graph_score_sum Z (Z_arith 0) G = 12) ∧
  (∃ G, @create_directed_graph float (float_arith eps_1e8) NEG_STRAND quarter_bucket
        = Some G ∧
        @graph_score_sum float (float_arith eps_1e8) G = 2%float).
Proof.
  split.
  - cbv zeta.
    destruct (@create_directed_graph Z (Z_arith 0) NEG_STRAND
                [mkTranscript NEG_STRAND [mkExon 100 500] 2 ∅;
                 mkTranscript NEG_STRAND [mkExon 200 350; mkExon 600 700] 3 ∅])
      as [G|] eqn:HG; [|by vm_compute in HG].
    exists G. split; [done|].
    rewrite (proj1 create_directed_graph_score_conservation Z (Z_arith 0)
               (Z_arith_exact 0) _ _ _ HG).
    vm_compute. reflexivity.
  - destruct (@create_directed_graph float (float_arith eps_1e8) NEG_STRAND
                quarter_bucket) as [G|] eqn:HG; [|by vm_compute in HG].
    exists G. split; [done|].
    rewrite (proj2 create_directed_graph_score_conservation eps_1e8 2
               quarter_scores NEG_STRAND quarter_bucket G).
    + vm_compute. reflexivity.
    + lia.
    + repeat constructor; vm_compute; congruence.
    + vm_compute. reflexivity.
    + vm_compute. reflexivity.
    + exact HG.
Defined.

(** With other binary64 scores the two sums of C5 differ by rounding: a
    transcript of score [0.1] (the nearest binary64 value) with ten
    separate exons gives ten nodes of score [0.1], whose sum is
    [0.9999999999999999], while [0.1 * 10] is [1.0]. *)
Definition tenth : float := 0x1.999999999999ap-4%float.

Definition ten_exons : list Exon :=
  (λ k : nat, mkExon (20 * Z.of_nat k) (20 * Z.of_nat k + 10)) <$> seq 0 10.

Lemma score_conservation_rounding :
  let ts := [mkTranscript POS_STRAND ten_exons tenth ∅] in
  ∃ G, @create_directed_graph float (float_arith eps_1e8) POS_STRAND ts = Some G ∧
       @graph_score_sum float (float_arith eps_1e8) G
       ≠ @visit_score_sum float (float_arith eps_1e8) (find_exon_boundaries ts) ts.
Proof.
  cbv zeta.
  destruct (@create_directed_graph float (float_arith eps_1e8) POS_STRAND
              [mkTranscript POS_STRAND ten_exons tenth ∅])
    as [G|] eqn:HG; [|by vm_compute in HG].
  exists G. split; [done|].
  vm_compute in HG. injection HG as <-.
  vm_compute. intros H. discriminate H.
Qed.

(** ** Mapping transcript paths onto the components *)
Section path_facts.
Context {score : Type} `{!ScoreArith score}.
Implicit Types (graphs : list (gmap (list Exon) score)) (t : Transcript score)
  (trim : gset Exon) (chain : gmap Exon Exon) (sub : gmap Exon nat)
  (m : gmap nat (gset Exon)) (nodes : list node).

(** Collapsed node [cn] of component [i] is what a node of the sequence
    that survived trimming maps to. *)
Definition survives trim chain sub nodes (cn : Exon) (i : nat) : Prop :=
  ∃ n, n ∈ nodes ∧ (mkExon n.1 n.2 ∉ trim) ∧
       chain !! mkExon n.1 n.2 = Some cn ∧ sub !! cn = Some i.

(** The contract of the collaborators: the chain map is defined on every
    node that survived trimming, each collapsed node belongs to a
    component, and each component has a graph. *)
Definition contract trim chain sub nodes (n_graphs : nat) : Prop :=
  ∀ n, n ∈ nodes → (mkExon n.1 n.2) ∉ trim →
    ∃ cn i, chain !! mkExon n.1 n.2 = Some cn ∧ sub !! cn = Some i ∧
            (i < n_graphs)%nat.

(** One contribution: the entry of the path gains the score, starting
    from zero when the path is new. *)
Definition contribute (path : list Exon) (sc : score)
    (partial_paths : gmap (list Exon) score) : gmap (list Exon) score :=
  <[path := s_add (default s_zero (partial_paths !! path)) sc]> partial_paths.

Lemma bin_nodes_spec trim chain sub nodes n_graphs m0 :
  contract trim chain sub nodes n_graphs →
  ∃ m, foldlM (bin_node trim chain sub) m0 nodes = Some m ∧
    (∀ i cn, cn ∈ default ∅ (m !! i) ↔
             cn ∈ default ∅ (m0 !! i) ∨ survives trim chain sub nodes cn i) ∧
    (∀ i, is_Some (m !! i) ↔
          is_Some (m0 !! i) ∨ ∃ cn, survives trim chain sub nodes cn i).
Proof.
  revert m0. induction nodes as [|n nodes IH]; intros m0 Hc.
  - exists m0. split; [done|]. unfold survives.
    split; intros; (split; [auto|]); intros [?|?]; try done.
    + destruct H as (? & ?%elem_of_nil & _); done.
    + destruct H as (? & ? & ?%elem_of_nil & _); done.
  - assert (contract trim chain sub nodes n_graphs) as Hc'.
    { intros n' Hn'. apply Hc. by right. }
    cbn [foldlM].
    destruct (decide (mkExon n.1 n.2 ∈ trim)) as [Htrim|Htrim].
    + assert (bin_node trim chain sub m0 n = Some m0) as ->.
      { unfold bin_node. by rewrite decide_True. }
      cbn. destruct (IH m0 Hc') as (m & -> & Hm1 & Hm2). exists m.
      split; [done|]. unfold survives in *. split.
      * intros i cn. rewrite Hm1. setoid_rewrite elem_of_cons.
        split; (intros [?|(n' & Hn' & ? & ? & ?)]; [by left|right]).
        -- exists n'. eauto.
        -- destruct Hn' as [->|?]; [done|]. exists n'. eauto.
      * intros i. rewrite Hm2. setoid_rewrite elem_of_cons.
        split; (intros [?|(cn & n' & Hn' & ? & ? & ?)]; [by left|right]).
        -- exists cn, n'. eauto.
        -- destruct Hn' as [->|?]; [done|]. exists cn, n'. eauto.
    + destruct (Hc n) as (cn & i & Hcn & Hi & _); [by left|done|].
      assert (bin_node trim chain sub m0 n
              = Some (<[i := {[cn]} ∪ default ∅ (m0 !! i)]> m0)) as ->.
      { unfold bin_node. rewrite decide_False by done. rewrite Hcn. cbn.
        by rewrite Hi. }
      cbn. destruct (IH (<[i := {[cn]} ∪ default ∅ (m0 !! i)]> m0) Hc')
        as (m & -> & Hm1 & Hm2).
      exists m. split; [done|]. unfold survives in *. split.
      * intros j cn'. rewrite Hm1. setoid_rewrite elem_of_cons.
        destruct (decide (i = j)) as [<-|Hij].
        -- rewrite lookup_insert_eq. cbn. rewrite elem_of_union, elem_of_singleton.
           split.
           ++ intros [[->|?]|(n' & ? & ? & ? & ?)]; [right|by left|right].
              ** exists n. eauto.
              ** exists n'. eauto.
           ++ intros [?|(n' & [->|?] & ? & ? & ?)]; [by left; right|left; left|right].
              ** congruence.
              ** exists n'. eauto.
        -- rewrite lookup_insert_ne by done. split.
           ++ intros [?|(n' & ? & ? & ? & ?)]; [by left|right]. exists n'. eauto.
           ++ intros [?|(n' & [->|?] & ? & ? & ?)]; [by left| |right].
              ** congruence.
              ** exists n'. eauto.
      * intros j. rewrite Hm2. setoid_rewrite elem_of_cons.
        destruct (decide (i = j)) as [<-|Hij].
        -- rewrite lookup_insert_eq. split; [intros _; right|by eauto].
           exists cn, n. eauto.
        -- rewrite lookup_insert_ne by done. split.
           ++ intros [?|(cn' & n' & ? & ? & ? & ?)]; [by left|right].
              exists cn', n'. eauto.
           ++ intros [?|(cn' & n' & [->|?] & ? & ? & ?)]; [by left| |right].
              ** congruence.
              ** exists cn', n'. eauto.
Qed.

Lemma add_partial_paths_spec (s : Strand) (sc : score)
    (kvs : list (nat * gset Exon)) graphs :
  NoDup kvs.*1 →
  (∀ i ns, (i, ns) ∈ kvs → (i < length graphs)%nat) →
  ∃ graphs', foldlM (add_partial_path s sc) graphs kvs = Some graphs' ∧
    length graphs' = length graphs ∧
    ∀ i, graphs' !! i =
         match (list_to_map kvs : gmap nat (gset Exon)) !! i with
         | Some ns => contribute (sorted_path s ns) sc <$> graphs !! i
         | None => graphs !! i
         end.
Proof.
  revert graphs. induction kvs as [|[j ns] kvs IH]; intros graphs Hnd Hlt.
  - exists graphs. split_and!; [done..|]. intros i. cbn [list_to_map foldr].
    by rewrite lookup_empty.
  - apply NoDup_cons in Hnd as [Hj Hnd]. cbn [foldlM add_partial_path].
    destruct (lookup_lt_is_Some_2 graphs j) as [pp Hpp]; [by eapply Hlt; left|].
    rewrite Hpp. cbn [mbind option_bind].
    destruct (IH (<[j := <[sorted_path s ns :=
                s_add (default s_zero (pp !! sorted_path s ns)) sc]> pp]> graphs))
      as (graphs' & -> & Hlen & Hlook); [done| |].
    { intros i ns' Hi. rewrite length_insert. eapply Hlt. by right. }
    exists graphs'. rewrite length_insert in Hlen. split_and!; [done..|].
    intros i. rewrite Hlook. cbn [list_to_map foldr uncurry].
    destruct (decide (j = i)) as [<-|Hji].
    + rewrite lookup_insert_eq, (not_elem_of_list_to_map_1 _ _ Hj).
      rewrite list_lookup_insert_eq by (by eapply lookup_lt_Some). by rewrite Hpp.
    + rewrite lookup_insert_ne, list_lookup_insert_ne by done. done.
Qed.

(** C6. A transcript processed by the path mapper contributes exactly
    one path tuple to each component that its surviving collapsed nodes
    fall into: the sorted tuple of its collapsed nodes in that
    component. Each contribution adds the full score of the transcript to
    the entry of that tuple in the component's accumulator, starting from
    zero when the tuple is new; every other component is left as it was.
    A transcript that straddles two components contributes its whole
    score to each. *)
Theorem map_transcript_path_spec (s : Strand) (bs : list Z) trim chain sub graphs t nodes :
  split_exons t bs = Some nodes →
  contract trim chain sub nodes (length graphs) →
  ∃ graphs' m,
    map_transcript_path s bs trim chain sub graphs t = Some graphs' ∧
    (∀ i cn, cn ∈ default ∅ (m !! i) ↔ survives trim chain sub nodes cn i) ∧
    (∀ i, is_Some (m !! i) ↔ ∃ cn, survives trim chain sub nodes cn i) ∧
    length graphs' = length graphs ∧
    ∀ i, graphs' !! i =
         match m !! i with
         | Some ns => contribute (sorted_path s ns) (score_ t) <$> graphs !! i
         | None => graphs !! i
         end.
Proof.
  intros Hsplit Hc. unfold map_transcript_path. rewrite Hsplit. cbn [mbind option_bind].
  destruct (bin_nodes_spec trim chain sub nodes (length graphs) ∅ Hc)
    as (m & -> & Hm1 & Hm2).
  cbn [mbind option_bind].
  destruct (add_partial_paths_spec s (score_ t) (map_to_list m) graphs)
    as (graphs' & -> & Hlen & Hlook).
  { apply NoDup_fst_map_to_list. }
  { intros i ns Hi%elem_of_map_to_list.
    destruct (proj1 (Hm2 i)) as [[? Hi']|(cn & n & Hn & Htrim & Hcn & Hsub)]; [by eauto|..].
    - by rewrite lookup_empty in Hi'.
    - destruct (Hc n Hn Htrim) as (cn' & i' & ? & ? & ?). by simplify_eq. }
  exists graphs', m. rewrite list_to_map_to_list in Hlook. split_and!; [done| | |done..].
  - intros i cn. rewrite Hm1, lookup_empty. cbn. set_solver.
  - intros i. rewrite Hm2, lookup_empty. split; [|by eauto].
    by intros [[? [=]]|?].
Qed.

End path_facts.

(** A transcript whose two exons end up in two components contributes its
    whole score to each of them. *)
Lemma map_transcript_path_spec_witness :
  let t : Transcript float :=
    mkTranscript POS_STRAND [mkExon 0 10; mkExon 20 30] 2.5%float ∅ in
  let chain : gmap Exon Exon :=
    {[ mkExon 0 10 := mkExon 0 10; mkExon 20 30 := mkExon 20 30 ]} in
  let sub : gmap Exon nat := {[ mkExon 0 10 := 0%nat; mkExon 20 30 := 1%nat ]} in
  split_exons t [0; 10; 20; 30] = Some [(0, 10); (20, 30)] ∧
  contract ∅ chain sub [(0, 10); (20, 30)] 2 ∧
  @map_transcript_path float (float_arith eps_1e8) POS_STRAND [0; 10; 20; 30]
     ∅ chain sub [∅; ∅] t
  = Some [ {[ [mkExon 0 10] := 2.5%float ]}; {[ [mkExon 20 30] := 2.5%float ]} ].
Proof.
  cbv zeta.
  assert (contract ∅
            ({[ mkExon 0 10 := mkExon 0 10; mkExon 20 30 := mkExon 20 30 ]}
               : gmap Exon Exon)
            ({[ mkExon 0 10 := 0%nat; mkExon 20 30 := 1%nat ]} : gmap Exon nat)
            [(0, 10); (20, 30)] 2) as Hc.
  { intros n Hn _. apply elem_of_cons in Hn as [->|Hn].
    - exists (mkExon 0 10), 0%nat. split_and!; [reflexivity..|lia].
    - apply elem_of_cons in Hn as [->|Hn]; [|by apply elem_of_nil in Hn].
      exists (mkExon 20 30), 1%nat. split_and!; [reflexivity..|lia]. }
  split_and!; [reflexivity|exact Hc|].
  destruct (@map_transcript_path_spec float (float_arith eps_1e8) POS_STRAND
              [0; 10; 20; 30] ∅ _ _ [∅; ∅]
              (mkTranscript POS_STRAND [mkExon 0 10; mkExon 20 30] 2.5%float ∅)
              [(0, 10); (20, 30)] eq_refl Hc) as (graphs' & m & Hrun & _).
  rewrite Hrun. vm_compute in Hrun. injection Hrun as <-.
  vm_compute. reflexivity.
Defined.

(** ** Parsing transfrags *)
Section parse_facts.
Import Transfrag.
Context {strand_t expr_t : Type} `{!GTFEnv strand_t expr_t}.
Implicit Types (f : Feature) (fs pre post : list Feature)
  (d : list (string * Transfrag.Transfrag strand_t expr_t)).

(** The identifier a feature carries. *)
Definition feature_id f : option string := Transfrag.attrs f !! Attr_TRANSCRIPT_ID.

(** A feature is read (not skipped) unless it is flagged as reference
    while [ignore_ref] is set. *)
Definition is_read (ignore_ref : bool) f : bool :=
  match ref_flag f with
  | Ok r => negb (r && ignore_ref)
  | Raise _ => false
  end.

(** The identifiers declared by the transcript features of a prefix that
    are read. *)
Definition declared (ignore_ref : bool) fs : list string :=
  omap (λ f, if is_read ignore_ref f && bool_decide (feature f = "transcript"%string)
             then feature_id f else None) fs.

(** A feature that is read and is either a transcript feature whose
    identifier is already declared, or an exon feature whose identifier
    is not declared yet. *)
Definition offends (ignore_ref : bool) pre f : Prop :=
  is_read ignore_ref f = true ∧
  ∃ t_id, feature_id f = Some t_id ∧
    ((feature f = "transcript"%string ∧ t_id ∈ declared ignore_ref pre) ∨
     (feature f = "exon"%string ∧ t_id ∉ declared ignore_ref pre)).

Definition violation (ignore_ref : bool) pre fs : Prop :=
  ∃ p f q, fs = p ++ f :: q ∧ offends ignore_ref (pre ++ p) f.

(** Features that the parser can read: the identifier is present, the
    reference attribute is an integer, and a transcript feature converts
    to a transfrag. *)
Definition readable f : Prop :=
  is_Some (feature_id f) ∧ (∃ r, ref_flag f = Ok r) ∧
  (feature f = "transcript"%string → ∃ t, from_gtf f = Ok t).

Lemma append_exon_keys t_id exon d : (append_exon t_id exon d).*1 = d.*1.
Proof.
  unfold append_exon. rewrite <-list_fmap_compose. apply list_fmap_ext.
  intros _ [k v] _. cbn. by case_decide.
Qed.

Lemma declared_snoc ignore_ref pre f :
  declared ignore_ref (pre ++ [f]) =
  declared ignore_ref pre ++
    (if is_read ignore_ref f && bool_decide (feature f = "transcript"%string)
     then option_list (feature_id f) else []).
Proof.
  unfold declared. rewrite omap_app. f_equal. cbn.
  destruct (_ && _); [|done]. by destruct (feature_id f).
Qed.

Lemma violation_cons ignore_ref pre f fs :
  violation ignore_ref pre (f :: fs) ↔
  offends ignore_ref pre f ∨ violation ignore_ref (pre ++ [f]) fs.
Proof.
  unfold violation. split.
  - intros ([|f' p] & g & q & Heq & Hoff); simplify_eq/=.
    + left. by rewrite app_nil_r in Hoff.
    + right. exists p, g, q. split; [done|]. by rewrite <-(assoc_L (++)).
  - intros [Hoff|(p & g & q & -> & Hoff)].
    + exists [], f, fs. split; [done|]. by rewrite app_nil_r.
    + exists (f :: p), g, q. split; [done|]. by rewrite <-(assoc_L (++)) in Hoff.
Qed.

(** The loop, from a dictionary whose keys are the identifiers declared
    so far: it raises [GTFError] when a later feature offends, and
    otherwise returns a dictionary whose keys are all the identifiers
    declared. *)
Lemma parse_loop_spec ignore_ref (lines : list string) fs pre d :
  mapM from_str lines = Some fs → Forall readable fs →
  d.*1 = declared ignore_ref pre →
  (violation ignore_ref pre fs ∧
     ∃ msg, fold_result (parse_line ignore_ref) d lines = Raise (GTFError msg)) ∨
  (¬ violation ignore_ref pre fs ∧
     ∃ d', fold_result (parse_line ignore_ref) d lines = Ok d' ∧
           d'.*1 = declared ignore_ref (pre ++ fs)).
Proof.
  revert fs pre d. induction lines as [|line lines IH]; intros fs pre d Hfs Hok Hd.
  - injection Hfs as <-. right. split.
    + intros (p & f & q & Heq & _). by destruct p.
    + exists d. by rewrite app_nil_r.
  - cbn [mapM] in Hfs. destruct (from_str line) as [f|] eqn:Hline; [|done].
    cbn in Hfs. destruct (mapM from_str lines) as [fs'|] eqn:Hfs'; [|done].
    cbn in Hfs. injection Hfs as <-.
    apply Forall_cons in Hok as [(Hid & [r Hr] & Htr) Hok].
    destruct Hid as [t_id Hid].
    cbn [fold_result]. unfold feature_id in Hid.
    assert (parse_line ignore_ref d line =
      if r && ignore_ref then Ok d
      else if decide (feature f = "transcript"%string) then
        if decide (t_id ∈ d.*1) then Raise (GTFError (duplicate_msg t_id))
        else bind (from_gtf f) (λ t, Ok (d ++ [(t_id, t)]))
      else if decide (feature f = "exon"%string) then
        if decide (t_id ∉ d.*1) then Raise (GTFError (missing_msg t_id))
        else Ok (append_exon t_id (Transfrag.start f, Transfrag.end_ f) d)
      else Ok d) as ->.
    { unfold parse_line. rewrite Hline. cbn [of_option bind]. rewrite Hid.
      cbn [of_option bind]. by rewrite Hr. }
    setoid_rewrite violation_cons.
    assert (is_read ignore_ref f = negb (r && ignore_ref)) as Hread.
    { unfold is_read. by rewrite Hr. }
    pose proof (declared_snoc ignore_ref pre f) as Hsnoc.
    rewrite Hread in Hsnoc. unfold feature_id in Hsnoc. rewrite Hid in Hsnoc.
    replace (pre ++ f :: fs') with ((pre ++ [f]) ++ fs')
      by by rewrite <-(assoc_L (++)).
    assert (∀ d1, d1.*1 = declared ignore_ref (pre ++ [f]) →
              ¬ offends ignore_ref pre f →
              (((offends ignore_ref pre f ∨ violation ignore_ref (pre ++ [f]) fs') ∧
                ∃ msg, fold_result (parse_line ignore_ref) d1 lines
                       = Raise (GTFError msg)) ∨
               (¬ (offends ignore_ref pre f ∨ violation ignore_ref (pre ++ [f]) fs') ∧
                ∃ d', fold_result (parse_line ignore_ref) d1 lines = Ok d' ∧
                      d'.*1 = declared ignore_ref ((pre ++ [f]) ++ fs'))))
      as Hnext.
    { intros d1 Hd1 Hnoff.
      destruct (IH fs' (pre ++ [f]) d1 eq_refl Hok Hd1) as [[Hv Hr']|[Hnv Hr']].
      - left. split; [by right|done].
      - right. split; [by intros [?|?]|done]. }
    destruct (r && ignore_ref) eqn:Hskip; cbn [negb andb] in *.
    { (* skipped *)
      cbn [bind]. apply Hnext.
      - by rewrite Hsnoc, app_nil_r.
      - intros [Hrd _]. by rewrite Hread in Hrd. }
    destruct (decide (feature f = "transcript"%string)) as [Hft|Hft].
    { rewrite bool_decide_eq_true_2 in Hsnoc by done. cbn in Hsnoc.
      destruct (decide (t_id ∈ d.*1)) as [Hin|Hin].
      - cbn [bind]. left. split; [|by eauto]. left. split; [done|].
        exists t_id. split; [done|]. left. by rewrite <-Hd.
      - destruct (Htr Hft) as [t Ht]. rewrite Ht. cbn [bind].
        apply Hnext.
        + by rewrite fmap_app, Hd, Hsnoc.
        + intros [_ (t_id' & Hid' & [[_ Hdup]|[Hex _]])];
            unfold feature_id in Hid'; simplify_eq.
          * by rewrite <-Hd in Hdup.
          * by rewrite Hft in Hex. }
    rewrite bool_decide_eq_false_2, app_nil_r in Hsnoc by done.
    destruct (decide (feature f = "exon"%string)) as [Hfe|Hfe].
    { destruct (decide (t_id ∉ d.*1)) as [Hin|Hin].
      - cbn [bind]. left. split; [|by eauto]. left. split; [done|].
        exists t_id. split; [done|]. right. by rewrite <-Hd.
      - cbn [bind]. apply Hnext.
        + by rewrite append_exon_keys, Hsnoc.
        + intros [_ (t_id' & Hid' & [[Htr' _]|[_ Hmiss]])];
            unfold feature_id in Hid'; simplify_eq.
          by rewrite <-Hd in Hmiss. }
    cbn [bind]. apply Hnext.
    + by rewrite Hsnoc.
    + intros [_ (t_id' & _ & [[? _]|[? _]])]; done.
Qed.

(** C8, as amended. For feature lines that the parser can read,
    [parse_gtf] raises a [GTFError] if and only if some feature that is
    read (a feature flagged as reference is skipped when [ignore_ref] is
    set) is a transcript feature whose identifier an earlier transcript
    feature that was read has declared, or an exon feature whose
    identifier no earlier transcript feature that was read has declared;
    otherwise it returns the mapping, whose keys are the identifiers
    declared, in order. *)
Theorem parse_gtf_spec (ignore_ref : bool) (lines : list string) fs :
  mapM from_str lines = Some fs → Forall readable fs →
  (violation ignore_ref [] fs ∧
     ∃ msg, parse_gtf lines ignore_ref = Raise (GTFError msg)) ∨
  (¬ violation ignore_ref [] fs ∧
     ∃ d, parse_gtf lines ignore_ref = Ok d ∧ d.*1 = declared ignore_ref fs).
Proof.
  intros Hfs Hok. by apply (parse_loop_spec ignore_ref lines fs [] []).
Qed.

End parse_facts.

(** An environment for the examples: four feature lines and what the
    line parser makes of them, the attribute keys, the three strand
    symbols, and number parsers that read the literals used. *)
Definition line_t1 : string := "chr1 transcript 100 500 + transcript_id=T1 expr=5.0".
Definition line_e1 : string := "chr1 exon 100 200 + transcript_id=T1".
Definition line_ref_t : string := "chr1 transcript 100 500 - transcript_id=R1 ref=1".
Definition line_ref_e : string := "chr1 exon 100 200 - transcript_id=R1 ref=1".

Definition feature_t1 : Transfrag.Feature :=
  Transfrag.mkFeature "chr1" "transcript" 100 500 "+"
    {[ "transcript_id"%string := "T1"%string; "expr"%string := "5.0"%string ]}.
Definition feature_e1 : Transfrag.Feature :=
  Transfrag.mkFeature "chr1" "exon" 100 200 "+"
    {[ "transcript_id"%string := "T1"%string ]}.
Definition feature_ref_t : Transfrag.Feature :=
  Transfrag.mkFeature "chr1" "transcript" 100 500 "-"
    {[ "transcript_id"%string := "R1"%string; "ref"%string := "1"%string ]}.
Definition feature_ref_e : Transfrag.Feature :=
  Transfrag.mkFeature "chr1" "exon" 100 200 "-"
    {[ "transcript_id"%string := "R1"%string; "ref"%string := "1"%string ]}.

Definition example_features : list (string * Transfrag.Feature) :=
  [(line_t1, feature_t1); (line_e1, feature_e1);
   (line_ref_t, feature_ref_t); (line_ref_e, feature_ref_e)].

Definition example_gtf_env : Transfrag.GTFEnv Strand float := {|
  Transfrag.from_str line :=
    (list_to_map example_features : gmap string Transfrag.Feature) !! line;
  Transfrag.Attr_TRANSCRIPT_ID := "transcript_id";
  Transfrag.Attr_SAMPLE_ID := "sample_id";
  Transfrag.Attr_EXPRESSION := "expr";
  Transfrag.Attr_REF := "ref";
  Transfrag.Strand_from_gtf s :=
    if decide (s = "+"%string) then Some POS_STRAND
    else if decide (s = "-"%string) then Some NEG_STRAND
    else if decide (s = "."%string) then Some NO_STRAND else None;
  Transfrag.py_float s := if decide (s = "5.0"%string) then Some 5%float else None;
  Transfrag.float_zero := 0%float;
  Transfrag.py_int s :=
    if decide (s = "0"%string) then Some 0
    else if decide (s = "1"%string) then Some 1 else None
|}.

Lemma parse_gtf_spec_witness :
  mapM (@Transfrag.from_str _ _ example_gtf_env) [line_t1; line_e1]
    = Some [feature_t1; feature_e1] ∧
  Forall (@readable _ _ example_gtf_env) [feature_t1; feature_e1] ∧
  ∃ d, @Transfrag.parse_gtf _ _ example_gtf_env [line_t1; line_e1] true = Transfrag.Ok d ∧
       d.*1 = ["T1"%string].
Proof.
  assert (Forall (@readable _ _ example_gtf_env) [feature_t1; feature_e1]) as Hok.
  { repeat constructor.
    - eexists. by vm_compute.
    - eexists. by vm_compute.
    - intros _. eexists. by vm_compute.
    - eexists. by vm_compute.
    - eexists. by vm_compute.
    - intros Hf. by vm_compute in Hf. }
  split_and!; [by vm_compute|exact Hok|].
  destruct (@parse_gtf_spec _ _ example_gtf_env true [line_t1; line_e1] _ eq_refl Hok)
    as [[_ [msg Hmsg]]|[_ (d & Hd & Hkeys)]].
  - by vm_compute in Hmsg.
  - exists d. split; [done|]. rewrite Hkeys. by vm_compute.
Defined.

(** With [ignore_ref] set, features flagged as reference are skipped
    before any check: an exon feature that references an identifier that
    no transcript feature has declared, and a transcript feature that
    repeats an identifier, both go through without an error. *)
Lemma parse_gtf_skips_reference_features :
  @Transfrag.from_str _ _ example_gtf_env line_ref_e = Some feature_ref_e ∧
  Transfrag.feature feature_ref_e = "exon"%string ∧
  @feature_id _ _ example_gtf_env feature_ref_e = Some "R1"%string ∧
  @Transfrag.parse_gtf _ _ example_gtf_env [line_ref_e] true = Transfrag.Ok [] ∧
  @Transfrag.parse_gtf _ _ example_gtf_env [line_ref_t; line_ref_t] true
    = Transfrag.Ok [].
Proof. split_and!; by vm_compute. Qed.

(** Without [ignore_ref] the same lines raise. *)
Example parse_gtf_reference_features_read :
  @Transfrag.parse_gtf _ _ example_gtf_env [line_ref_e] false
    = Transfrag.Raise (Transfrag.GTFError
        "Transcript 'R1' exon feature appeared in gtf file prior to transcript feature") ∧
  @Transfrag.parse_gtf _ _ example_gtf_env [line_ref_t; line_ref_t] false
    = Transfrag.Raise (Transfrag.GTFError "Transcript 'R1' duplicate detected").
Proof. split; by vm_compute. Qed.

(** ** Counting occurrences *)
Section count_facts.
Context {A : Type} `{!EqDecision A}.
Implicit Types (x y : A) (l : list A).

(** The number of times a value occurs in a list. *)
Definition count_of x l : nat := length (filter (λ y, y = x) l).

Lemma count_of_cons x y l :
  count_of x (y :: l) = if decide (y = x) then S (count_of x l) else count_of x l.
Proof. unfold count_of. rewrite filter_cons. by case_decide. Qed.

Lemma count_of_reverse x l : count_of x (reverse l) = count_of x l.
Proof. unfold count_of. by rewrite filter_reverse, length_reverse. Qed.

Lemma count_of_pos x l : (0 < count_of x l)%nat ↔ x ∈ l.
Proof.
  unfold count_of. induction l as [|y l IH].
  - split; [cbn; lia|by intros ?%elem_of_nil].
  - rewrite filter_cons, elem_of_cons. case_decide as Hx; cbn [length].
    + subst. split; [auto|lia].
    + rewrite IH. split; [auto|]. by intros [->|?].
Qed.

End count_facts.

(** ** The strand resolver *)
Section resolver_facts.
Context {score : Type} `{!ScoreArith score} `{!Env}.
Implicit Types (h : list (Transcript score)) (t : Transcript score) (l : nat)
  (nd : gmap node (@NodeData score)) (B : buckets) (bs : list Z)
  (nodes : list node) (s : Strand).

Lemma split_exons_ext t t' bs :
  exons t = exons t' → split_exons t bs = split_exons t' bs.
Proof. unfold split_exons. by intros ->. Qed.

(** *** States of [node_data] that read the same *)

Lemma nd_equiv_refl nd : nd_equiv nd nd.
Proof. done. Qed.

Lemma nd_equiv_trans nd1 nd2 nd3 :
  nd_equiv nd1 nd2 → nd_equiv nd2 nd3 → nd_equiv nd1 nd3.
Proof. intros H1 H2 n. by rewrite (H1 n), (H2 n). Qed.

Lemma total_score_ext s nodes (f g : node → @NodeData score) :
  (∀ n, f n = g n) → total_score s nodes f = total_score s nodes g.
Proof.
  intros Hfg. unfold total_score. generalize (s_zero : score).
  induction nodes as [|n nodes IH]; intros acc; [done|].
  cbn [foldl]. by rewrite Hfg, IH.
Qed.

Lemma ref_length_ext which nodes (f g : node → @NodeData score) :
  (∀ n, f n = g n) → ref_length which nodes f = ref_length which nodes g.
Proof.
  intros Hfg. unfold ref_length. generalize 0.
  induction nodes as [|n nodes IH]; intros acc; [done|].
  cbn [foldl]. by rewrite Hfg, IH.
Qed.

Lemma resolve_strand_equiv nodes nd nd' :
  nd_equiv nd nd' → (resolve_strand nodes nd).1 = (resolve_strand nodes nd').1.
Proof.
  intros Hn. rewrite !(proj1 (resolve_strand_pure _ _)). unfold resolve_pure.
  by rewrite !(total_score_ext _ _ _ _ Hn), !(ref_length_ext _ _ _ _ Hn).
Qed.

(** An update of the entry of [n] through the [defaultdict]. *)
Definition nd_update (F : @NodeData score → @NodeData score) nd (n : node)
  : gmap node NodeData :=
  let '(d, nd) := nd_get nd n in <[n := F d]> nd.

Lemma nd_update_val F nd n m :
  nd_val (nd_update F nd n) m = if decide (n = m) then F (nd_val nd n) else nd_val nd m.
Proof.
  unfold nd_update. pose proof (nd_get_val nd n) as Hv.
  pose proof (nd_get_equiv nd n m) as He.
  destruct (nd_get nd n) as [d nd']. cbn [fst snd] in *. subst d.
  unfold nd_val at 1. case_decide as Hnm.
  - subst m. by rewrite lookup_insert_eq.
  - rewrite lookup_insert_ne by done. exact He.
Qed.

Lemma nd_update_fold_val (F : @NodeData score → @NodeData score) nodes nd n :
  nd_val (foldl (nd_update F) nd nodes) n
  = Nat.iter (count_of n nodes) F (nd_val nd n).
Proof.
  revert nd. induction nodes as [|n0 nodes IH]; intros nd; [done|].
  cbn [foldl]. rewrite IH, nd_update_val, count_of_cons.
  case_decide as Hn; [|done]. subst n0.
  by rewrite Nat.iter_succ_r.
Qed.

(** The score of a transcript, added once per occurrence. *)
Lemma iter_add_score s (sc : score) (k : nat) (d0 : @NodeData score) :
  Nat.iter k (λ d, mkNodeData (ref_strands d)
                     (update3 (λ x, s_add x sc) (scores d) s)) d0
  = mkNodeData (ref_strands d0)
      (update3 (λ x, foldl s_add x (replicate k sc)) (scores d0) s).
Proof.
  induction k as [|k IH].
  - cbn. by destruct d0 as [? [[??]?]], s.
  - rewrite Nat.iter_succ, IH. cbn [ref_strands scores]. f_equal.
    rewrite replicate_S_end.
    destruct (scores d0) as [[??]?], s; cbn [update3 fst snd];
      by rewrite foldl_app.
Qed.

(** *** Adding a transcript to its bucket *)

Lemma add_transcript_unfold h l nodes B nd :
  add_transcript h l nodes B nd =
  t ← h !! l;
  _ ← attrs t !! GTFAttr_TRANSCRIPT_ID;
  Some (update3 (λ ts, ts ++ [l]) B (strand t),
        foldl (nd_update (λ d, mkNodeData (ref_strands d)
                 (update3 (λ x, s_add x (score_ t)) (scores d) (strand t))))
              nd nodes).
Proof. unfold add_transcript. destruct (h !! l) as [t|]; [|done]. done. Qed.

(** *** The heap: only strands change *)

Definition frame h h' : Prop :=
  Forall2 (λ t t', t' = set_strand t (strand t')) h h'.

Lemma set_strand_id t : set_strand t (strand t) = t.
Proof. by destruct t. Qed.

Lemma frame_refl h : frame h h.
Proof. apply Forall_Forall2_diag, Forall_forall. intros t _. by rewrite set_strand_id. Qed.

Lemma frame_trans h1 h2 h3 : frame h1 h2 → frame h2 h3 → frame h1 h3.
Proof.
  intros H12 H23. eapply Forall2_trans; [|exact H12|exact H23].
  intros t1 t2 t3 -> ->. done.
Qed.

Lemma frame_insert h l t s : h !! l = Some t → frame h (<[l := set_strand t s]> h).
Proof.
  intros Hl. apply Forall2_same_length_lookup. split; [by rewrite length_insert|].
  intros i t1 t2 H1 H2. destruct (decide (l = i)) as [->|Hne].
  - rewrite list_lookup_insert_eq in H2 by (by eapply lookup_lt_Some).
    by simplify_eq.
  - rewrite list_lookup_insert_ne in H2 by done. simplify_eq.
    by rewrite set_strand_id.
Qed.

Lemma frame_lookup h h' l t :
  frame h h' → h !! l = Some t →
  ∃ t', h' !! l = Some t' ∧ t' = set_strand t (strand t').
Proof. intros Hf Hl. by destruct (Forall2_lookup_l _ _ _ _ _ Hf Hl) as (t' & ? & ?); eauto. Qed.

Lemma frame_lookup_None h h' l : frame h h' → h !! l = None → h' !! l = None.
Proof.
  intros Hf. rewrite !lookup_ge_None. by rewrite (Forall2_length _ _ _ Hf).
Qed.

(** *** Transcripts that the resolver can read *)

(** The exons are intervals, the reference attribute is an integer when
    present, and the identifier is present. *)
Definition wf t : Prop :=
  intervals t ∧ is_Some (is_ref t) ∧ is_Some (attrs t !! GTFAttr_TRANSCRIPT_ID).

Lemma wf_set_strand t s : wf t → wf (set_strand t s).
Proof. done. Qed.

Lemma lookup3_update3 {A} (f : A → A) (x : A * A * A) s s' :
  lookup3 (update3 f x s) s' = if decide (s = s') then f (lookup3 x s') else lookup3 x s'.
Proof. by destruct x as [[??]?], s, s'. Qed.

(** The strand of the transcript at a location. *)
Definition strand_at h l : option Strand := strand <$> h !! l.

Lemma add_transcript_Some h l t nodes B nd :
  h !! l = Some t → wf t →
  ∃ nd', add_transcript h l nodes B nd
         = Some (update3 (λ ts, ts ++ [l]) B (strand t), nd').
Proof.
  intros Hl (_ & _ & [t_id Hid]). rewrite add_transcript_unfold, Hl.
  cbn [mbind option_bind]. rewrite Hid. by eexists.
Qed.

Lemma add_resolved_step_Some bs h l t B nd :
  Sorted Z.le bs → h !! l = Some t → wf t →
  ∃ nd', add_resolved_step h bs (B, nd) l
         = Some (update3 (λ ts, ts ++ [l]) B (strand t), nd').
Proof.
  intros Hbs Hl Hwf. unfold add_resolved_step. rewrite Hl. cbn [mbind option_bind].
  rewrite (split_exons_nodes_of bs t Hbs (proj1 Hwf)). cbn [mbind option_bind fst snd].
  by apply add_transcript_Some.
Qed.

(** Adding a list of transcripts appends each to the bucket of its
    strand. *)
Lemma add_resolved_loop bs h (ls : list nat) B nd :
  Sorted Z.le bs →
  Forall (λ l, ∃ t, h !! l = Some t ∧ wf t) ls →
  ∃ B' nd', foldlM (add_resolved_step h bs) (B, nd) ls = Some (B', nd') ∧
    ∀ s, lookup3 B' s = lookup3 B s ++ filter (λ l, strand_at h l = Some s) ls.
Proof.
  intros Hbs. revert B nd. induction ls as [|l ls IH]; intros B nd Hls.
  - exists B, nd. split; [done|]. intros s. by rewrite app_nil_r.
  - apply Forall_cons in Hls as [(t & Hl & Hwf) Hls].
    destruct (add_resolved_step_Some bs h l t B nd Hbs Hl Hwf) as [nd1 Hstep].
    cbn [foldlM]. rewrite Hstep. cbn [mbind option_bind].
    edestruct IH as (B' & nd' & -> & HB'); [done|].
    exists B', nd'. split; [done|]. intros s. rewrite HB', lookup3_update3.
    rewrite filter_cons.
    assert (strand_at h l = Some (strand t)) as Hat by (unfold strand_at; by rewrite Hl).
    destruct (decide (strand t = s)) as [Heq|Hne].
    + rewrite decide_True by congruence. by rewrite <-(assoc_L (++)).
    + rewrite decide_False by congruence. done.
Qed.

(** *** The first loop *)

(** Whether the transcript at a location is a reference, and its strand. *)
Definition kind h l : option (bool * Strand) :=
  t ← h !! l; r ← is_ref t; Some (r, strand t).

(** The inputs on which the resolver runs to completion: every location
    holds a transcript that can be read, and every reference transcript
    has a concrete strand. *)
Definition valid h (ts : list nat) : Prop :=
  Forall (λ l, ∃ t, h !! l = Some t ∧ wf t ∧
                    (is_ref t = Some true → strand t ≠ NO_STRAND)) ts.

Definition stranded h s l : Prop := kind h l = Some (false, s) ∧ s ≠ NO_STRAND.
Definition unstranded h l : Prop := kind h l = Some (false, NO_STRAND).
Definition reference h s l : Prop := kind h l = Some (true, s).

Global Instance stranded_dec h s l : Decision (stranded h s l).
Proof. unfold stranded. apply _. Defined.
Global Instance unstranded_dec h l : Decision (unstranded h l).
Proof. unfold unstranded. apply _. Defined.
Global Instance reference_dec h s l : Decision (reference h s l).
Proof. unfold reference. apply _. Defined.

Lemma label_nodes_Some (flag_strand : Strand) nodes nd :
  flag_strand ≠ NO_STRAND →
  is_Some (foldlM (λ node_data n,
                     let '(d, node_data) := nd_get node_data n in
                     flags ← update2 (λ _, true) (ref_strands d) flag_strand;
                     Some (<[n := mkNodeData flags (scores d)]> node_data))
                  nd nodes).
Proof.
  intros Hs. revert nd. induction nodes as [|n nodes IH]; intros nd; [by eexists|].
  cbn [foldlM]. destruct (nd_get nd n) as [d nd1].
  destruct flag_strand; [..|done]; cbn [update2 mbind option_bind]; apply IH.
Qed.

Ltac kind_cases Hst Hun Hre :=
  repeat match goal with
  | |- context [decide (stranded ?h ?s ?l)] =>
      let HH := fresh "HH" in
      destruct (decide (stranded h s l)) as [HH|HH];
      [apply Hst in HH | rewrite Hst in HH]
  | |- context [decide (unstranded ?h ?l)] =>
      let HH := fresh "HH" in
      destruct (decide (unstranded h l)) as [HH|HH];
      [apply Hun in HH | rewrite Hun in HH]
  | |- context [decide (reference ?h ?s ?l)] =>
      let HH := fresh "HH" in
      destruct (decide (reference h s l)) as [HH|HH];
      [apply Hre in HH | rewrite Hre in HH]
  end.

Lemma filter_single {A} (P : A → Prop) `{∀ x, Decision (P x)} (x : A) :
  filter P [x] = if decide (P x) then [x] else [].
Proof. by rewrite filter_cons, filter_nil. Qed.

Lemma classify_step_spec bs h l t nd B (R : ref_buckets) (U : list nat) :
  Sorted Z.le bs → h !! l = Some t → wf t →
  (is_ref t = Some true → strand t ≠ NO_STRAND) →
  ∃ nd' B' R' U',
    classify_step h bs (nd, B, R, U) l = Some (nd', B', R', U') ∧
    (∀ s, lookup3 B' s = lookup3 B s ++ filter (stranded h s) [l]) ∧
    U' = U ++ filter (unstranded h) [l] ∧
    R'.1 = R.1 ++ filter (reference h POS_STRAND) [l] ∧
    R'.2 = R.2 ++ filter (reference h NEG_STRAND) [l].
Proof.
  intros Hbs Hl Hwf Href. pose proof Hwf as (Hint & [r Hr] & Hid).
  assert (kind h l = Some (r, strand t)) as Hkind.
  { unfold kind. rewrite Hl. cbn. by rewrite Hr. }
  assert (∀ s, stranded h s l ↔ r = false ∧ strand t = s ∧ s ≠ NO_STRAND) as Hst.
  { intros s. unfold stranded. rewrite Hkind. split.
    - by intros [[= -> <-] ?].
    - by intros (-> & <- & ?). }
  assert (unstranded h l ↔ r = false ∧ strand t = NO_STRAND) as Hun.
  { unfold unstranded. rewrite Hkind. split.
    - by intros [= -> ->].
    - by intros (-> & ->). }
  assert (∀ s, reference h s l ↔ r = true ∧ strand t = s) as Hre.
  { intros s. unfold reference. rewrite Hkind. split.
    - by intros [= -> <-].
    - by intros (-> & <-). }
  unfold classify_step. rewrite Hl. cbn [mbind option_bind]. rewrite Hr.
  cbn [mbind option_bind]. rewrite (split_exons_nodes_of bs t Hbs Hint).
  cbn [mbind option_bind]. setoid_rewrite filter_single.
  destruct r.
  - destruct (label_nodes_Some (strand t) (nodes_of bs t) nd (Href Hr)) as [nd' ->].
    cbn [mbind option_bind]. destruct R as [Rp Rn].
    specialize (Href Hr).
    destruct (strand t) eqn:Hstrand; [..|done]; cbn [update2 mbind option_bind];
      (eexists _, _, _, _; split; [reflexivity|]); cbn [fst snd];
      (split_and!; [intros s|..]); kind_cases Hst Hun Hre;
      rewrite ?app_nil_r; try done; exfalso; intuition congruence.
  - destruct (decide (strand t ≠ NO_STRAND)) as [Hne|Heq].
    + destruct (add_transcript_Some h l t (nodes_of bs t) B nd Hl Hwf) as [nd' ->].
      cbn [mbind option_bind].
      eexists _, _, _, _; split; [reflexivity|].
      split_and!; [intros s; rewrite lookup3_update3; case_decide|..];
        kind_cases Hst Hun Hre;
        rewrite ?app_nil_r; try done; exfalso; intuition congruence.
    + apply dec_stable in Heq.
      eexists _, _, _, _; split; [reflexivity|].
      split_and!; [intros s|..]; kind_cases Hst Hun Hre;
        rewrite ?app_nil_r; try done; exfalso; intuition congruence.
Qed.

Lemma classify_loop bs h (ts : list nat) nd B (R : ref_buckets) (U : list nat) :
  Sorted Z.le bs → valid h ts →
  ∃ nd' B' R' U',
    foldlM (classify_step h bs) (nd, B, R, U) ts = Some (nd', B', R', U') ∧
    (∀ s, lookup3 B' s = lookup3 B s ++ filter (stranded h s) ts) ∧
    U' = U ++ filter (unstranded h) ts ∧
    R'.1 = R.1 ++ filter (reference h POS_STRAND) ts ∧
    R'.2 = R.2 ++ filter (reference h NEG_STRAND) ts.
Proof.
  intros Hbs. revert nd B R U. induction ts as [|l ts IH]; intros nd B R U Hv.
  - exists nd, B, R, U. split; [done|]. split_and!; [intros; cbn|cbn..];
      by rewrite app_nil_r.
  - apply Forall_cons in Hv as [(t & Hl & Hwf & Href) Hv].
    destruct (classify_step_spec bs h l t nd B R U Hbs Hl Hwf Href)
      as (nd1 & B1 & R1 & U1 & Hstep & HB1 & HU1 & HR1 & HR2).
    destruct (IH nd1 B1 R1 U1 Hv) as (nd' & B' & R' & U' & Hloop & HB' & HU' & HR1' & HR2').
    exists nd', B', R', U'. cbn [foldlM]. rewrite Hstep. cbn [mbind option_bind].
    split; [done|].
    change (l :: ts) with ([l] ++ ts). setoid_rewrite filter_app.
    split_and!.
    + intros s. by rewrite HB', HB1, (assoc_L (++)).
    + by rewrite HU', HU1, (assoc_L (++)).
    + by rewrite HR1', HR1, (assoc_L (++)).
    + by rewrite HR2', HR2, (assoc_L (++)).
Qed.

(** *** Score resolution of the unstranded batch *)

(** The verdict of score resolution on the transcript at [l], against a
    given state of [node_data]: the location, the strand and the nodes. *)
Definition score_verdict bs h nd l : option (nat * Strand * list node) :=
  t ← h !! l;
  nodes ← split_exons t bs;
  Some (l, (resolve_strand nodes nd).1, nodes).

Lemma list_alter_insert_lookup {A} (f : A → A) (k : list A) i x :
  k !! i = Some x → <[i := f x]> k = alter f i k.
Proof.
  intros Hi. rewrite list_insert_alter. apply list_alter_ext; [|done].
  intros y Hy. congruence.
Qed.

(** One iteration of the in-place loop against the verdict that phase A
    computes from the snapshot: the reads of the [defaultdict] and the
    strands assigned so far do not change the verdict. *)
Lemma resolve_step_refines bs h0 nd0 h nd (res still : list nat) (N : gset node) l :
  frame h0 h → nd_equiv nd nd0 →
  match score_verdict bs h0 nd0 l with
  | None => resolve_step bs (h, nd, res, still, N) l = None
  | Some v =>
      ∃ nd1, nd_equiv nd1 nd0 ∧ v.1.1 = l ∧
        frame h0 (alter (λ t, set_strand t v.1.2) l h) ∧
        resolve_step bs (h, nd, res, still, N) l =
        Some (alter (λ t, set_strand t v.1.2) l h, nd1,
              if decide (v.1.2 ≠ NO_STRAND) then res ++ [l] else res,
              if decide (v.1.2 ≠ NO_STRAND) then still else still ++ [l],
              if decide (v.1.2 ≠ NO_STRAND) then N else N ∪ list_to_set v.2)
  end.
Proof.
  intros Hf Hn. unfold score_verdict, resolve_step.
  destruct (h0 !! l) as [t0|] eqn:Hl0.
  2:{ by rewrite (frame_lookup_None _ _ _ Hf Hl0). }
  destruct (frame_lookup _ _ _ _ Hf Hl0) as (t & Hl & Ht). rewrite Hl.
  cbn [mbind option_bind].
  rewrite (split_exons_ext t t0 bs) by (by rewrite Ht).
  destruct (split_exons t0 bs) as [nodes|]; [|done]. cbn [mbind option_bind].
  pose proof (resolve_strand_pure nodes nd) as [_ Hnd1].
  pose proof (resolve_strand_equiv nodes nd nd0 Hn) as Hs.
  destruct (resolve_strand nodes nd) as [s nd1]. cbn [fst snd] in *.
  rewrite <-Hs. rewrite (list_alter_insert_lookup (λ t, set_strand t s) h l t Hl).
  exists nd1. split_and!; [by eapply nd_equiv_trans|done| |by case_decide].
  eapply frame_trans; [exact Hf|].
  rewrite <-(list_alter_insert_lookup (λ t, set_strand t s) h l t Hl).
  by apply frame_insert.
Qed.

Lemma resolve_loop_refines bs h0 nd0 (U : list nat) :
  ∀ h nd (res still : list nat) (N : gset node),
  frame h0 h → nd_equiv nd nd0 →
  match mapM (score_verdict bs h0 nd0) U with
  | None => foldlM (resolve_step bs) (h, nd, res, still, N) U = None
  | Some vs =>
      ∃ nd', nd_equiv nd' nd0 ∧
        foldlM (resolve_step bs) (h, nd, res, still, N) U =
        Some (foldl (λ h v, alter (λ t, set_strand t v.1.2) v.1.1 h) h vs,
              nd',
              res ++ (filter (λ v, v.1.2 ≠ NO_STRAND) vs).*1.*1,
              still ++ (filter (λ v, v.1.2 = NO_STRAND) vs).*1.*1,
              N ∪ ⋃ (list_to_set <$> (filter (λ v, v.1.2 = NO_STRAND) vs).*2))
  end.
Proof.
  induction U as [|l U IH]; intros h nd res still N Hf Hn.
  - cbn. exists nd. split; [done|]. rewrite !app_nil_r.
    by rewrite (right_id_L ∅ (∪)).
  - cbn [mapM foldlM].
    pose proof (resolve_step_refines bs h0 nd0 h nd res still N l Hf Hn) as Hstep.
    destruct (score_verdict bs h0 nd0 l) as [[[l' s] nodes]|]; [|by rewrite Hstep].
    destruct Hstep as (nd1 & Hn' & Hl' & Hf' & ->). cbn [fst snd] in *. subst l'.
    cbn [mbind option_bind].
    destruct (decide (s ≠ NO_STRAND)) as [Hne|Heq].
    + specialize (IH _ nd1 (res ++ [l]) still N Hf' Hn').
      destruct (mapM (score_verdict bs h0 nd0) U) as [vs|]; [|done].
      destruct IH as (nd' & Hnd' & ->). exists nd'. split; [done|].
      cbn [mbind option_bind mret option_ret foldl fst snd].
      rewrite filter_cons_True by done.
      rewrite (filter_cons_False (λ v, v.1.2 = NO_STRAND)) by done.
      cbn [fmap list_fmap fst snd]. by rewrite <-(assoc_L (++)).
    + apply dec_stable in Heq.
      specialize (IH _ nd1 res (still ++ [l]) (N ∪ list_to_set nodes) Hf' Hn').
      destruct (mapM (score_verdict bs h0 nd0) U) as [vs|]; [|done].
      destruct IH as (nd' & Hnd' & ->). exists nd'. split; [done|].
      cbn [mbind option_bind mret option_ret foldl fst snd].
      rewrite filter_cons_False by (cbn; by intros ?).
      rewrite (filter_cons_True (λ v, v.1.2 = NO_STRAND)) by done.
      cbn [fmap list_fmap fst snd union_list foldr].
      by rewrite <-!(assoc_L (++)), <-(assoc_L (∪)).
Qed.

(** *** What score resolution leaves behind *)

Definition verdict_of bs h nd l : Strand :=
  match score_verdict bs h nd l with
  | Some v => v.1.2
  | None => NO_STRAND
  end.

Definition nodes_at bs h l : list node :=
  match h !! l with
  | Some t => nodes_of bs t
  | None => []
  end.

(** Locations that hold a transcript that can be read. *)
Definition readable_at h l : Prop := ∃ t, h !! l = Some t ∧ wf t.

Lemma readable_at_frame h h' l : frame h h' → readable_at h l → readable_at h' l.
Proof.
  intros Hf (t & Hl & Hwf). destruct (frame_lookup _ _ _ _ Hf Hl) as (t' & Hl' & Ht).
  exists t'. split; [done|]. rewrite Ht. by apply wf_set_strand.
Qed.

Lemma nodes_at_frame bs h h' l : frame h h' → nodes_at bs h' l = nodes_at bs h l.
Proof.
  intros Hf. unfold nodes_at. destruct (h !! l) as [t|] eqn:Hl.
  - destruct (frame_lookup _ _ _ _ Hf Hl) as (t' & -> & Ht).
    unfold nodes_of. by rewrite Ht.
  - by rewrite (frame_lookup_None _ _ _ Hf Hl).
Qed.

Lemma score_verdict_readable bs h nd l :
  Sorted Z.le bs → readable_at h l →
  score_verdict bs h nd l = Some (l, verdict_of bs h nd l, nodes_at bs h l).
Proof.
  intros Hbs (t & Hl & Hwf). unfold verdict_of, nodes_at, score_verdict.
  rewrite Hl. cbn [mbind option_bind].
  by rewrite (split_exons_nodes_of bs t Hbs (proj1 Hwf)).
Qed.

Lemma verdicts_readable bs h nd (U : list nat) :
  Sorted Z.le bs → Forall (readable_at h) U →
  mapM (score_verdict bs h nd) U
  = Some ((λ l, (l, verdict_of bs h nd l, nodes_at bs h l)) <$> U).
Proof.
  intros Hbs HU. apply mapM_Some_2, Forall2_fmap_r, Forall_Forall2_diag.
  eapply Forall_impl; [exact HU|]. intros l Hl. by apply score_verdict_readable.
Qed.

Lemma filter_fmap_comm {A C} (f : A → C) (P : C → Prop) `{∀ x, Decision (P x)}
    (l : list A) :
  filter P (f <$> l) = f <$> filter (λ x, P (f x)) l.
Proof.
  induction l as [|x l IH]; [done|]. cbn [fmap list_fmap].
  rewrite !filter_cons. case_decide; cbn [fmap list_fmap]; by rewrite IH.
Qed.

Lemma filter_ext_elem {A} (P Q : A → Prop) `{∀ x, Decision (P x)}
    `{∀ x, Decision (Q x)} (l : list A) :
  (∀ x, x ∈ l → P x ↔ Q x) → filter P l = filter Q l.
Proof.
  induction l as [|x l IH]; intros HPQ; [done|].
  rewrite !filter_cons. rewrite IH by (intros y Hy; apply HPQ; by right).
  destruct (decide (P x)) as [HP|HP], (decide (Q x)) as [HQ|HQ]; try done.
  - by apply (HPQ x) in HP; [|left].
  - by apply (HPQ x) in HQ; [|left].
Qed.

(** Assigning to each location of a list the strand that a function
    gives for it. *)
Definition assign_strands (v : nat → Strand) h (ls : list nat) : heap score :=
  foldl (λ h l, alter (λ t, set_strand t (v l)) l h) h ls.

Lemma frame_alter h l s : frame h (alter (λ t, set_strand t s) l h).
Proof.
  destruct (h !! l) as [t|] eqn:Hl.
  - rewrite <-(list_alter_insert_lookup (λ t, set_strand t s) h l t Hl).
    by apply frame_insert.
  - assert (alter (λ t, set_strand t s) l h = h) as ->; [|apply frame_refl].
    apply list_eq. intros i. rewrite list_lookup_alter.
    case_decide; subst; by rewrite ?Hl.
Qed.

Lemma assign_strands_spec v (ls : list nat) h :
  frame h (assign_strands v h ls) ∧
  (∀ l, l ∉ ls → assign_strands v h ls !! l = h !! l) ∧
  (∀ l, l ∈ ls → is_Some (h !! l) → strand_at (assign_strands v h ls) l = Some (v l)).
Proof.
  revert h. induction ls as [|l0 ls IH]; intros h.
  - split_and!; [apply frame_refl|done|]. by intros l ?%elem_of_nil.
  - cbn [assign_strands foldl].
    destruct (IH (alter (λ t, set_strand t (v l0)) l0 h)) as (Hf & Hout & Hin).
    fold (assign_strands v (alter (λ t, set_strand t (v l0)) l0 h) ls) in *.
    split_and!.
    + eapply frame_trans; [apply frame_alter|exact Hf].
    + intros l Hl. apply not_elem_of_cons in Hl as [Hne Hl].
      rewrite Hout by done. by rewrite list_lookup_alter_ne.
    + intros l Hl [t Ht]. destruct (decide (l ∈ ls)) as [Hls|Hls].
      * apply Hin; [done|]. rewrite list_lookup_alter. case_decide; subst; by rewrite Ht.
      * apply elem_of_cons in Hl as [->|?]; [|done].
        unfold strand_at. rewrite Hout by done.
        by rewrite list_lookup_alter_eq, Ht.
Qed.

Lemma resolve_unstranded_spec bs h nd B (U : list nat) :
  Sorted Z.le bs → Forall (readable_at h) U →
  ∃ h' nd' B' N',
    resolve_unstranded bs h nd B U =
      Some (h', nd', B', filter (λ l, verdict_of bs h nd l = NO_STRAND) U, N') ∧
    frame h h' ∧
    (∀ l, l ∉ U → h' !! l = h !! l) ∧
    (∀ l, l ∈ U → strand_at h' l = Some (verdict_of bs h nd l)) ∧
    (∀ s, lookup3 B' s =
          lookup3 B s ++ filter (λ l, verdict_of bs h nd l = s ∧ s ≠ NO_STRAND) U) ∧
    (∀ l n, l ∈ U → verdict_of bs h nd l = NO_STRAND → n ∈ nodes_at bs h l → n ∈ N').
Proof.
  intros Hbs HU. unfold resolve_unstranded.
  destruct (decide (0 < length U)%nat) as [Hlen|Hlen].
  2:{ destruct U; [|cbn in Hlen; lia]. exists h, nd, B, ∅.
      split_and!; [done|apply frame_refl|done|by intros ? ?%elem_of_nil|
                   by intros; rewrite app_nil_r|by intros ? ? ?%elem_of_nil]. }
  pose proof (resolve_loop_refines bs h nd U h nd [] [] ∅ (frame_refl h)
                (nd_equiv_refl nd)) as Hloop.
  rewrite (verdicts_readable bs h nd U Hbs HU) in Hloop.
  destruct Hloop as (nd1 & _ & ->). cbn [mbind option_bind app].
  set (v := verdict_of bs h nd) in *.
  rewrite !filter_fmap_comm, <-!list_fmap_compose. cbn [compose fst snd].
  rewrite !list_fmap_id.
  assert (foldl (λ h0 v0, alter (λ t, set_strand t v0.1.2) v0.1.1 h0) h
            ((λ l, (l, v l, nodes_at bs h l)) <$> U) = assign_strands v h U) as ->.
  { unfold assign_strands. by rewrite foldl_fmap. }
  destruct (assign_strands_spec v U h) as (Hf & Hout & Hin).
  assert (∀ l, l ∈ U → strand_at (assign_strands v h U) l = Some (v l)) as Hin'.
  { intros l Hl. apply Hin; [done|]. rewrite Forall_forall in HU.
    destruct (HU l Hl) as (t & -> & _). by eexists. }
  destruct (add_resolved_loop bs (assign_strands v h U)
              (filter (λ l, v l ≠ NO_STRAND) U) B nd1 Hbs) as (B' & nd' & -> & HB').
  { apply Forall_forall. intros l [_ Hl]%list_elem_of_filter.
    rewrite Forall_forall in HU. by eapply readable_at_frame; [|apply HU]. }
  cbn [mbind option_bind]. eexists _, _, _, _. split; [reflexivity|].
  split_and!; [done..| |].
  - intros s. rewrite HB'. f_equal. rewrite list_filter_filter.
    apply filter_ext_elem. intros l Hl. rewrite (Hin' l Hl). split.
    + by intros [[= ->] ?].
    + by intros [-> ?].
  - intros l n Hl Hv Hn. rewrite (left_id_L ∅ (∪)).
    apply elem_of_union_list. exists (list_to_set (nodes_at bs h l)).
    split; [|by apply elem_of_list_to_set].
    apply list_elem_of_fmap. exists l. split; [done|].
    by apply list_elem_of_filter.
Qed.

End resolver_facts.

(** ** Score resolution as a two-phase pass *)
Section refinement.
Context {score : Type} `{!ScoreArith score} `{!Env}.
Implicit Types (h : list (Transcript score)) (t : Transcript score) (l : nat)
  (nd : gmap node (@NodeData score)) (B : buckets) (bs : list Z)
  (nodes : list node) (s : Strand) (n : node).

(** *** The two-phase reference *)

(** What phase A notes of a member of the batch: its location, the strand
    voted, and the nodes, the score and the identifier of the
    transcript. *)
Record member := mkMember {
  m_loc : nat;
  m_strand : Strand;
  m_nodes : list node;
  m_score : score;
  m_id : option string
}.

(** Phase A on one member: the vote is taken on the snapshot. *)
Definition examine bs h (snapshot : node → @NodeData score) l : option member :=
  t ← h !! l;
  nodes ← split_exons t bs;
  Some (mkMember l (resolve_pure nodes snapshot) nodes (score_ t)
                 (attrs t !! GTFAttr_TRANSCRIPT_ID)).

(** The scores that the members of strand [s] fold into node [n], in the
    order of the batch: a member folds its score in once for each
    occurrence of the node among its nodes. *)
Definition shares s n (ms : list member) : list score :=
  foldr (λ m acc,
           (if decide (m_strand m = s)
            then replicate (count_of n (m_nodes m)) (m_score m) else []) ++ acc)
        [] ms.

(** The data of node [n] after the scores of the members have been
    folded into the data [d] of the snapshot. *)
Definition folded (ms : list member) (d : @NodeData score) n : NodeData :=
  mkNodeData (ref_strands d)
    (foldl s_add (scores d).1.1 (shares POS_STRAND n ms),
     foldl s_add (scores d).1.2 (shares NEG_STRAND n ms),
     (scores d).2).

(** The two-phase reference, after the words of the specification.
    Phase A: every member of the batch is resolved against the state of
    [node_data] as it stood before the batch (the snapshot) and takes the
    strand found. Phase B, after the whole batch: the members that
    resolved are added to the bucket of their strand, in batch order, and
    their scores are folded into the snapshot (adding a member reads its
    identifier, a [KeyError] when there is none); the others are handed
    on, with the union of their nodes. The state of [node_data] is given
    by what it reads at every node. *)
Definition resolve_unstranded_reference bs h nd B (U : list nat)
  : option (heap score * (node → @NodeData score) * buckets * list nat * gset node) :=
  if decide (0 < length U)%nat then
    let snapshot := nd_val nd in
    batch ← mapM (examine bs h snapshot) U;
    let resolved := filter (λ m, m_strand m ≠ NO_STRAND) batch in
    let deferred := filter (λ m, m_strand m = NO_STRAND) batch in
    _ ← mapM m_id resolved;
    Some (foldl (λ h m, alter (λ t, set_strand t (m_strand m)) (m_loc m) h) h batch,
          λ n, folded resolved (snapshot n) n,
          (B.1.1 ++ (m_loc <$> filter (λ m, m_strand m = POS_STRAND) resolved),
           B.1.2 ++ (m_loc <$> filter (λ m, m_strand m = NEG_STRAND) resolved),
           B.2),
          m_loc <$> deferred,
          ⋃ ((λ m, list_to_set (m_nodes m)) <$> deferred))
  else Some (h, nd_val nd, B, U, ∅).

Lemma mapM_fmap_inner {X Y W} (f : X → option Y) (g : Y → W) (k : list X) :
  mapM (λ x, g <$> f x) k = fmap g <$> mapM f k.
Proof.
  induction k as [|x k IH]; [done|]. cbn [mapM]. rewrite IH.
  destruct (f x); [|done]. cbn. by destruct (mapM f k).
Qed.

(** The verdict of the in-place pass is the member that phase A notes. *)
Lemma score_verdict_examine bs h nd l :
  score_verdict bs h nd l
  = (λ m, (m_loc m, m_strand m, m_nodes m)) <$> examine bs h (nd_val nd) l.
Proof.
  unfold score_verdict, examine. destruct (h !! l) as [t|]; [|done].
  cbn [mbind option_bind]. destruct (split_exons t bs) as [nodes|]; [|done].
  cbn. by rewrite (proj1 (resolve_strand_pure nodes nd)).
Qed.

Lemma examine_fields bs h snapshot l m :
  examine bs h snapshot l = Some m →
  m_loc m = l ∧
  ∃ t, h !! l = Some t ∧ split_exons t bs = Some (m_nodes m) ∧
       score_ t = m_score m ∧ attrs t !! GTFAttr_TRANSCRIPT_ID = m_id m.
Proof.
  unfold examine. destruct (h !! l) as [t|]; [|done]. cbn [mbind option_bind].
  destruct (split_exons t bs) as [nodes|] eqn:Hsplit; [|done]. cbn. intros [= <-].
  split; [done|]. by exists t.
Qed.

Lemma batch_examined bs h snapshot (U : list nat) (batch : list member) m :
  mapM (examine bs h snapshot) U = Some batch → m ∈ batch →
  examine bs h snapshot (m_loc m) = Some m.
Proof.
  intros Hbatch%mapM_Some_1 [i Hi]%list_elem_of_lookup.
  destruct (Forall2_lookup_r _ _ _ _ _ Hbatch Hi) as (l & _ & Hex).
  by rewrite (proj1 (examine_fields _ _ _ _ _ Hex)).
Qed.

(** *** The heap after phase A *)

Lemma assign_batch_ne (ms : list member) h l :
  l ∉ m_loc <$> ms →
  foldl (λ h m, alter (λ t, set_strand t (m_strand m)) (m_loc m) h) h ms !! l
  = h !! l.
Proof.
  revert h. induction ms as [|m0 ms IH]; intros h Hl; [done|].
  cbn [foldl fmap list_fmap] in *. apply not_elem_of_cons in Hl as [Hne Hl].
  rewrite IH by done. by rewrite list_lookup_alter_ne.
Qed.

Lemma assign_batch_lookup (F : nat → option member) (ms : list member) h m t :
  (∀ m, m ∈ ms → F (m_loc m) = Some m) →
  m ∈ ms → h !! m_loc m = Some t →
  foldl (λ h m, alter (λ t, set_strand t (m_strand m)) (m_loc m) h) h ms !! m_loc m
  = Some (set_strand t (m_strand m)).
Proof.
  revert h t. induction ms as [|m0 ms IH]; intros h t HF Hm Ht.
  { by apply elem_of_nil in Hm. }
  cbn [foldl].
  destruct (decide (m_loc m ∈ m_loc <$> ms)) as [Hin|Hout].
  - apply list_elem_of_fmap in Hin as (m' & Hloc & Hm').
    assert (m' = m) as ->.
    { pose proof (HF m' ltac:(by right)) as H1.
      pose proof (HF m Hm) as H2. rewrite <-Hloc in H1. congruence. }
    destruct (decide (m_loc m0 = m_loc m)) as [Heq|Hne].
    + rewrite (IH _ (set_strand t (m_strand m0))); [done| |done|].
      * intros ??. apply HF. by right.
      * by rewrite Heq, list_lookup_alter_eq, Ht.
    + rewrite (IH _ t); [done| |done|].
      * intros ??. apply HF. by right.
      * by rewrite list_lookup_alter_ne.
  - rewrite assign_batch_ne by done.
    apply elem_of_cons in Hm as [->|Hm].
    + by rewrite list_lookup_alter_eq, Ht.
    + exfalso. apply Hout. apply list_elem_of_fmap. by exists m.
Qed.

(** *** Phase B *)

Lemma shares_cons s n m (ms : list member) :
  shares s n (m :: ms)
  = (if decide (m_strand m = s)
     then replicate (count_of n (m_nodes m)) (m_score m) else [])
    ++ shares s n ms.
Proof. done. Qed.

(** The loop that adds the resolved members folds their scores in. *)
Lemma add_resolved_loop_folds bs h (ms : list member) B nd :
  (∀ m, m ∈ ms → m_strand m ≠ NO_STRAND ∧
     ∃ t, h !! m_loc m = Some t ∧ strand t = m_strand m ∧
          score_ t = m_score m ∧ attrs t !! GTFAttr_TRANSCRIPT_ID = m_id m ∧
          split_exons t bs = Some (m_nodes m)) →
  match foldlM (add_resolved_step h bs) (B, nd) (m_loc <$> ms), mapM m_id ms with
  | Some (B1, nd1), Some _ =>
      B1 = (B.1.1 ++ (m_loc <$> filter (λ m, m_strand m = POS_STRAND) ms),
            B.1.2 ++ (m_loc <$> filter (λ m, m_strand m = NEG_STRAND) ms),
            B.2) ∧
      ∀ n, nd_val nd1 n = folded ms (nd_val nd n) n
  | None, None => True
  | _, _ => False
  end.
Proof.
  revert B nd. induction ms as [|m ms IH]; intros B nd Hms.
  { cbn. split.
    - rewrite !app_nil_r. by destruct B as [[??]?].
    - intros n. unfold folded. cbn. by destruct (nd_val nd n) as [? [[??]?]]. }
  destruct (Hms m ltac:(by left)) as (Hne & t & Hl & Hs & Hsc & Hid & Hsplit).
  assert (add_resolved_step h bs (B, nd) (m_loc m)
          = (_ ← m_id m;
             Some (update3 (λ ts, ts ++ [m_loc m]) B (strand t),
                   foldl (nd_update (λ d, mkNodeData (ref_strands d)
                            (update3 (λ x, s_add x (score_ t)) (scores d) (strand t))))
                         nd (m_nodes m)))) as Hstep.
  { unfold add_resolved_step. rewrite Hl. cbn [mbind option_bind].
    rewrite Hsplit. cbn [mbind option_bind fst snd].
    rewrite add_transcript_unfold, Hl. cbn [mbind option_bind]. by rewrite Hid. }
  cbn [fmap list_fmap foldlM mapM]. rewrite Hstep. clear Hstep.
  destruct (m_id m) as [i|]; cbn [mbind option_bind].
  2:{ done. }
  specialize (IH (update3 (λ ts, ts ++ [m_loc m]) B (strand t))
                 (foldl (nd_update (λ d, mkNodeData (ref_strands d)
                    (update3 (λ x, s_add x (score_ t)) (scores d) (strand t))))
                    nd (m_nodes m))
                 ltac:(intros ??; apply Hms; by right)).
  destruct (foldlM _ _ (m_loc <$> ms)) as [[B1 nd1]|], (mapM m_id ms) as [ids|];
    try done.
  cbn [mbind option_bind]. destruct IH as [-> Hnd]. split.
  - rewrite !filter_cons, Hs.
    destruct B as [[Bp Bn] Bu], (m_strand m); [| |done]; cbn [update3 fst snd];
      repeat first [rewrite decide_True by done|rewrite decide_False by done];
      cbn [fmap list_fmap]; by rewrite <-(assoc_L (++)).
  - intros n. rewrite Hnd, nd_update_fold_val, iter_add_score, Hs, Hsc.
    unfold folded. rewrite !shares_cons. cbn [ref_strands scores].
    destruct (scores (nd_val nd n)) as [[sp sn] su], (m_strand m); [| |done];
      cbn [update3 fst snd];
      repeat first [rewrite decide_True by done|rewrite decide_False by done];
      cbn [app]; by rewrite ?foldl_app.
Qed.

(** C7. The in-place resolution pass of step 4 is equivalent to the
    two-phase reference: both fail together, and when they return, the
    heap, the buckets, the deferred batch and its nodes are equal, and
    [node_data] reads at every node what the reference gives: the
    snapshot with the scores of the members that resolved folded in. *)
Theorem resolve_unstranded_refines bs h nd B (U : list nat) :
  match resolve_unstranded bs h nd B U,
        resolve_unstranded_reference bs h nd B U with
  | Some (h1, nd1, B1, U1, N1), Some (h2, rd2, B2, U2, N2) =>
      h1 = h2 ∧ (∀ n, nd_val nd1 n = rd2 n) ∧ B1 = B2 ∧ U1 = U2 ∧ N1 = N2
  | None, None => True
  | _, _ => False
  end.
Proof.
  unfold resolve_unstranded, resolve_unstranded_reference.
  destruct (decide (0 < length U)%nat); [|done].
  pose proof (resolve_loop_refines bs h nd U h nd [] [] ∅ (frame_refl h)
                (nd_equiv_refl nd)) as Hloop.
  rewrite (mapM_ext _ _ U (score_verdict_examine bs h nd)) in Hloop.
  rewrite mapM_fmap_inner in Hloop.
  destruct (mapM (examine bs h (nd_val nd)) U) as [batch|] eqn:Hbatch;
    [|by rewrite Hloop].
  cbn [fmap option_fmap option_map] in Hloop.
  destruct Hloop as (nd' & Hnd' & ->). cbn [mbind option_bind app].
  rewrite (left_id_L ∅ (∪)), foldl_fmap. cbn [fst snd].
  rewrite !filter_fmap_comm, <-!list_fmap_compose. cbn [fst snd].
  set (h' := foldl _ h batch).
  set (resolved := filter (λ m, m_strand m ≠ NO_STRAND) batch).
  set (deferred := filter (λ m, m_strand m = NO_STRAND) batch).
  change ((λ x : member, m_strand x ≠ NO_STRAND)) with (λ m : member, m_strand m ≠ NO_STRAND).
  pose proof (add_resolved_loop_folds bs h' resolved B nd') as HB.
  rewrite (list_fmap_ext _ m_loc resolved) by done.
  assert (∀ m, m ∈ resolved → m_strand m ≠ NO_STRAND ∧
            ∃ t, h' !! m_loc m = Some t ∧ strand t = m_strand m ∧
                 score_ t = m_score m ∧ attrs t !! GTFAttr_TRANSCRIPT_ID = m_id m ∧
                 split_exons t bs = Some (m_nodes m)) as Hres.
  { intros m [Hne Hm]%list_elem_of_filter. split; [done|].
    pose proof (batch_examined _ _ _ _ _ _ Hbatch Hm) as Hex.
    destruct (examine_fields _ _ _ _ _ Hex) as (_ & t & Hl & Hsplit & Hsc & Hid).
    exists (set_strand t (m_strand m)). split_and!; [|done..].
    apply (assign_batch_lookup (examine bs h (nd_val nd))); [|done..].
    intros m' Hm'. by eapply batch_examined. }
  specialize (HB Hres).
  destruct (foldlM (add_resolved_step h' bs) (B, nd') (m_loc <$> resolved))
    as [[B1 nd1]|], (mapM m_id resolved) as [ids|]; cbn [mbind option_bind];
    [|done..].
  destruct HB as [-> Hnd1]. split_and!; [done| |done|done|done].
  intros n. by rewrite Hnd1, (Hnd' n).
Qed.

End refinement.

(** A batch of two. The second member meets the first only, so on the
    snapshot it has no evidence and is handed on; the score of the first,
    which resolves, is folded into its two nodes after the batch. *)
Example resolve_unstranded_reference_example :
  let h : list (Transcript float) :=
    [example_transcript NO_STRAND [mkExon 10 30] 2%float "u2" false;
     example_transcript NO_STRAND [mkExon 10 20] 1%float "u1" false] in
  let nd : gmap node NodeData :=
    {[ (20, 30) := mkNodeData (false, false) (3, 0, 0)%float ]} in
  match @resolve_unstranded_reference float (float_arith eps_1e8) example_env
          [10; 20; 30] h nd ([], [], []) [0; 1]%nat with
  | Some (h', rd, B, U, N) =>
      strand <$> h' = [POS_STRAND; NO_STRAND] ∧
      B = ([0%nat], [], []) ∧ U = [1%nat] ∧ N = {[ (10, 20) ]} ∧
      rd (10, 20) = mkNodeData (false, false) (2, 0, 0)%float ∧
      rd (20, 30) = mkNodeData (false, false) (5, 0, 0)%float
  | None => False
  end.
Proof. vm_compute. repeat split; reflexivity. Qed.



(** ** The interval clusters *)
Section cluster_facts.
Implicit Types (tree regions : list ClusterTree.region) (r : ClusterTree.region)
  (i : nat).

(** Identifier [i] belongs to one of the regions. *)
Definition has_id regions i : Prop := ∃ r, r ∈ regions ∧ i ∈ r.2.

Lemma merge_fold_ids r0 (hits : list ClusterTree.region) i :
  i ∈ (foldl ClusterTree.merge r0 hits).2 ↔ i ∈ r0.2 ∨ has_id hits i.
Proof.
  unfold has_id. revert r0. induction hits as [|r hits IH]; intros r0; cbn [foldl].
  - split; [auto|]. intros [?|(r & ?%elem_of_nil & _)]; done.
  - rewrite IH. unfold ClusterTree.merge. cbn [snd]. rewrite elem_of_app.
    setoid_rewrite elem_of_cons. split.
    + intros [[?|?]|(r' & ? & ?)]; eauto 6.
    + intros [?|(r' & [->|?] & ?)]; eauto 6.
Qed.

Lemma insert_has_id tree (s e : Z) i0 i :
  has_id (ClusterTree.insert tree s e i0) i ↔ i = i0 ∨ has_id tree i.
Proof.
  unfold ClusterTree.insert. unfold has_id at 1. setoid_rewrite elem_of_cons. split.
  - intros (r & [->|Hr] & Hi).
    + apply merge_fold_ids in Hi as [Hi|(r & Hr & Hi)].
      * left. cbn in Hi. by apply list_elem_of_singleton in Hi.
      * right. exists r. by apply list_elem_of_filter in Hr as [_ ?].
    + right. exists r. by apply list_elem_of_filter in Hr as [_ ?].
  - intros [->|(r & Hr & Hi)].
    + eexists. split; [by left|]. apply merge_fold_ids. left. cbn. by left.
    + destruct (decide (ClusterTree.touches s e r)) as [Ht|Ht].
      * eexists. split; [by left|]. apply merge_fold_ids. right.
        exists r. split; [|done]. by apply list_elem_of_filter.
      * exists r. split; [|done]. right. by apply list_elem_of_filter.
Qed.

Lemma getregions_has_id tree i :
  has_id (ClusterTree.getregions tree) i ↔ has_id tree i.
Proof.
  unfold has_id, ClusterTree.getregions. setoid_rewrite merge_sort_Permutation.
  setoid_rewrite list_elem_of_fmap. split.
  - intros (r' & (r & -> & Hr) & Hi). cbn [snd] in Hi.
    rewrite merge_sort_Permutation in Hi. eauto.
  - intros (r & Hr & Hi). eexists. split; [by eauto|]. cbn [snd].
    by rewrite merge_sort_Permutation.
Qed.

(** Every node that was inserted is in a region, and the regions hold
    nothing else. *)
Lemma cluster_tree_ids (L : list node) i :
  has_id (ClusterTree.getregions
            (foldl (λ tree '(i, n), ClusterTree.insert tree n.1 n.2 i) []
                   (imap pair L))) i ↔ (i < length L)%nat.
Proof.
  rewrite getregions_has_id.
  assert (∀ (ps : list (nat * node)) tree,
            has_id (foldl (λ tree '(i, n), ClusterTree.insert tree n.1 n.2 i) tree ps) i
            ↔ has_id tree i ∨ i ∈ ps.*1) as Hgen.
  { induction ps as [|[i0 n] ps IH]; intros tree; cbn [foldl fmap list_fmap fst].
    - split; [auto|]. by intros [?|?%elem_of_nil].
    - rewrite IH, insert_has_id, elem_of_cons. tauto. }
  rewrite Hgen. split.
  - intros [(r & ?%elem_of_nil & _)|Hi]; [done|].
    apply list_elem_of_fmap in Hi as ([i' n] & -> & Hin).
    apply elem_of_lookup_imap in Hin as (j & m & [= -> ->] & Hj).
    by eapply lookup_lt_Some.
  - intros Hi. right. destruct (lookup_lt_is_Some_2 L i Hi) as [n Hn].
    apply list_elem_of_fmap. exists (i, n). split; [done|].
    apply elem_of_lookup_imap. eauto.
Qed.

End cluster_facts.

(** ** The clustering fallback *)
Section fallback_facts.
Context {score : Type} `{!ScoreArith score} `{!Env}.
Implicit Types (h : list (Transcript score)) (t : Transcript score) (l : nat)
  (nd : gmap node (@NodeData score)) (B : buckets) (bs : list Z)
  (nodes : list node) (s : Strand) (nsm : gmap node Strand).

Lemma cluster_step_spec (L : list node) nsm nd (r : ClusterTree.region) :
  (∀ i, i ∈ r.2 → (i < length L)%nat) →
  ∃ nsm' nd', cluster_step L (nsm, nd) r = Some (nsm', nd') ∧
    (∀ n, is_Some (nsm !! n) → is_Some (nsm' !! n)) ∧
    (∀ i n, i ∈ r.2 → L !! i = Some n → is_Some (nsm' !! n)).
Proof.
  intros Hr. unfold cluster_step.
  assert (∃ nodes, mapM (λ i, L !! i) r.2 = Some nodes ∧
            ∀ i n, i ∈ r.2 → L !! i = Some n → n ∈ nodes) as (nodes & -> & Hnodes).
  { induction r.2 as [|i ids IH].
    - exists []. split; [done|]. by intros ?? ?%elem_of_nil.
    - destruct (lookup_lt_is_Some_2 L i) as [n Hn]; [apply Hr; by left|].
      destruct IH as (nodes & Hm & Hin); [intros; apply Hr; by right|].
      exists (n :: nodes). cbn [mapM]. rewrite Hn, Hm. split; [done|].
      intros j m [->|Hj]%elem_of_cons Hjm; [|right; eauto].
      assert (m = n) as -> by congruence. by left. }
  cbn [mbind option_bind]. destruct (resolve_strand nodes nd) as [s nd'].
  eexists _, _. split; [reflexivity|].
  assert (∀ n, is_Some (foldl (λ m n, <[n := s]> m) nsm nodes !! n) ↔
               is_Some (nsm !! n) ∨ n ∈ nodes) as Hdom.
  { clear Hnodes. revert nsm. induction nodes as [|m nodes IH]; intros nsm n; cbn [foldl].
    - split; [auto|]. by intros [?|?%elem_of_nil].
    - rewrite IH, elem_of_cons, lookup_insert_is_Some. split.
      + intros [[->|[??]]|?]; auto.
      + intros [?|[->|?]]; auto. destruct (decide (m = n)); auto. }
  split.
  - intros n Hn. apply Hdom. by left.
  - intros i n Hi Hn. apply Hdom. right. eauto.
Qed.

Lemma cluster_loop (L : list node) regions nsm nd :
  (∀ r i, r ∈ regions → i ∈ r.2 → (i < length L)%nat) →
  ∃ nsm' nd', foldlM (cluster_step L) (nsm, nd) regions = Some (nsm', nd') ∧
    (∀ n, is_Some (nsm !! n) → is_Some (nsm' !! n)) ∧
    (∀ r i n, r ∈ regions → i ∈ r.2 → L !! i = Some n → is_Some (nsm' !! n)).
Proof.
  revert nsm nd. induction regions as [|r regions IH]; intros nsm nd Hr.
  - exists nsm, nd. split_and!; [done..|]. by intros ??? ?%elem_of_nil.
  - destruct (cluster_step_spec L nsm nd r) as (nsm1 & nd1 & Hstep & Hk & Hn);
      [intros i; apply Hr; by left|].
    destruct (IH nsm1 nd1) as (nsm' & nd' & Hloop & Hk' & Hn');
      [intros r' i ?; apply Hr; by right|].
    exists nsm', nd'. cbn [foldlM]. rewrite Hstep. cbn [mbind option_bind].
    split_and!; [done|by auto|].
    intros r' i n [->|Hr']%elem_of_cons Hi HL; eauto.
Qed.

(** The strand that the last loop gives to a transcript with the given
    nodes and current strand. *)
Definition cluster_strand nsm nodes (cur : Strand) : Strand :=
  match overlap_bp nsm nodes with
  | Some strand_bp =>
      if bool_decide (0 < 0 + strand_bp.1 + strand_bp.2) then
        if bool_decide (strand_bp.2 ≤ strand_bp.1) then POS_STRAND else NEG_STRAND
      else cur
  | None => cur
  end.

Lemma cluster_strand_stable nsm nodes cur :
  cur = NO_STRAND ∨ cur = cluster_strand nsm nodes NO_STRAND →
  cluster_strand nsm nodes cur = cluster_strand nsm nodes NO_STRAND.
Proof.
  unfold cluster_strand. destruct (overlap_bp nsm nodes) as [bp|]; [|by intros [->| ->]].
  destruct (bool_decide (0 < 0 + bp.1 + bp.2)); [done|]. by intros [->| ->].
Qed.

Lemma overlap_bp_Some nsm nodes :
  (∀ n, n ∈ nodes → is_Some (nsm !! n)) → is_Some (overlap_bp nsm nodes).
Proof.
  unfold overlap_bp. generalize (0, 0). induction nodes as [|n nodes IH]; intros bp Hn.
  - by eexists.
  - cbn [foldlM]. destruct (Hn n) as [s ->]; [by left|]. cbn [mbind option_bind].
    destruct s; cbn; apply IH; intros; apply Hn; by right.
Qed.

Lemma assign_step_spec bs nsm h B nd l t :
  Sorted Z.le bs → h !! l = Some t → wf t →
  (∀ n, n ∈ nodes_of bs t → is_Some (nsm !! n)) →
  ∃ nd', assign_step bs nsm (h, B, nd) l =
    Some (alter (λ t', set_strand t' (cluster_strand nsm (nodes_of bs t) (strand t))) l h,
          update3 (λ ts, ts ++ [l]) B
                  (cluster_strand nsm (nodes_of bs t) (strand t)),
          nd').
Proof.
  intros Hbs Hl Hwf Hcov. unfold assign_step, cluster_strand. rewrite Hl.
  cbn [mbind option_bind]. rewrite (split_exons_nodes_of bs t Hbs (proj1 Hwf)).
  cbn [mbind option_bind].
  destruct (overlap_bp_Some nsm (nodes_of bs t) Hcov) as [bp ->].
  cbn [mbind option_bind].
  set (s' := if bool_decide (0 < 0 + bp.1 + bp.2)
             then if bool_decide (bp.2 ≤ bp.1) then POS_STRAND else NEG_STRAND
             else strand t).
  assert ((if bool_decide (0 < 0 + bp.1 + bp.2)
           then if bool_decide (bp.2 ≤ bp.1)
                then <[l := set_strand t POS_STRAND]> h
                else <[l := set_strand t NEG_STRAND]> h
           else h) = alter (λ t', set_strand t' s') l h) as ->.
  { subst s'. rewrite <-(list_alter_insert_lookup (λ t', set_strand t' _) h l t Hl).
    repeat case_bool_decide; try done.
    rewrite set_strand_id. by rewrite list_insert_id. }
  destruct (add_transcript_Some (alter (λ t', set_strand t' s') l h) l
              (set_strand t s') (nodes_of bs t) B nd) as [nd' ->].
  { by rewrite list_lookup_alter_eq, Hl. }
  { by apply wf_set_strand. }
  by eexists.
Qed.

(** The last loop assigns to every deferred transcript the strand of its
    clusters and appends it to the bucket of that strand. *)
Lemma assign_loop bs nsm (d : nat → Strand) (U : list nat) h B nd :
  Sorted Z.le bs →
  Forall (λ l, ∃ t, h !! l = Some t ∧ wf t ∧
               (∀ n, n ∈ nodes_of bs t → is_Some (nsm !! n)) ∧
               cluster_strand nsm (nodes_of bs t) NO_STRAND = d l ∧
               (strand t = NO_STRAND ∨ strand t = d l)) U →
  ∃ B' nd',
    foldlM (assign_step bs nsm) (h, B, nd) U = Some (assign_strands d h U, B', nd') ∧
    ∀ s, lookup3 B' s = lookup3 B s ++ filter (λ l, d l = s) U.
Proof.
  intros Hbs. revert h B nd. induction U as [|l U IH]; intros h B nd HU.
  - exists B, nd. split; [done|]. intros s. by rewrite app_nil_r.
  - apply Forall_cons in HU as [(t & Hl & Hwf & Hcov & Hd & Hcur) HU].
    destruct (assign_step_spec bs nsm h B nd l t Hbs Hl Hwf Hcov) as [nd1 Hstep].
    rewrite cluster_strand_stable, Hd in Hstep by (by rewrite Hd).
    cbn [foldlM]. rewrite Hstep. cbn [mbind option_bind].
    destruct (IH (alter (λ t', set_strand t' (d l)) l h)
                 (update3 (λ ts, ts ++ [l]) B (d l)) nd1) as (B' & nd' & Hloop & HB').
    { eapply Forall_impl; [exact HU|]. cbn.
      intros l' (t' & Hl' & Hwf' & Hcov' & Hd' & Hcur').
      rewrite list_lookup_alter. case_decide as Hll; [subst l'|by eauto 10].
      rewrite Hl'. cbn. exists (set_strand t' (d l)).
      split_and!; [done|by apply wf_set_strand|done..|by right]. }
    exists B', nd'. split; [exact Hloop|].
    intros s. rewrite HB', lookup3_update3, filter_cons.
    destruct (decide (d l = s)) as [Heq|Hne]; [|done].
    by rewrite <-(assoc_L (++)).
Qed.

Lemma sorted_nodes_elem_of (N : gset node) n : n ∈ sorted_nodes N ↔ n ∈ N.
Proof. unfold sorted_nodes. by rewrite merge_sort_Permutation, elem_of_elements. Qed.

Lemma resolve_clusters_spec bs h nd B (U : list nat) (N : gset node) :
  Sorted Z.le bs → Forall (readable_at h) U →
  (∀ l, l ∈ U → strand_at h l = Some NO_STRAND) →
  (∀ l n, l ∈ U → n ∈ nodes_at bs h l → n ∈ N) →
  ∃ h' B' (d : nat → Strand),
    resolve_clusters bs h nd B U N = Some (h', B') ∧
    frame h h' ∧
    (∀ l, l ∉ U → h' !! l = h !! l) ∧
    (∀ l, l ∈ U → strand_at h' l = Some (d l)) ∧
    (∀ s, lookup3 B' s = lookup3 B s ++ filter (λ l, d l = s) U).
Proof.
  intros Hbs HU Hno Hcov. unfold resolve_clusters.
  destruct (decide (0 < length U)%nat) as [Hlen|Hlen].
  2:{ destruct U; [|cbn in Hlen; lia]. exists h, B, (λ _, NO_STRAND).
      split_and!; [done|apply frame_refl|done|by intros ? ?%elem_of_nil|
                   by intros; rewrite app_nil_r]. }
  set (L := sorted_nodes N).
  set (regions := ClusterTree.getregions _).
  destruct (cluster_loop L regions ∅ nd) as (nsm & nd1 & -> & _ & Hnsm).
  { intros r i Hr Hi. apply cluster_tree_ids. by exists r. }
  cbn [mbind option_bind].
  assert (∀ n, n ∈ N → is_Some (nsm !! n)) as Hdom.
  { intros n Hn%sorted_nodes_elem_of. fold L in Hn.
    apply list_elem_of_lookup in Hn as [i Hi].
    destruct (proj2 (cluster_tree_ids L i)) as (r & Hr & Hir);
      [by eapply lookup_lt_Some|]. by eapply Hnsm. }
  set (d := λ l, cluster_strand nsm (nodes_at bs h l) NO_STRAND).
  destruct (assign_loop bs nsm d U h B nd1 Hbs) as (B' & nd' & -> & HB').
  { apply Forall_forall. intros l Hl. rewrite Forall_forall in HU.
    destruct (HU l Hl) as (t & Ht & Hwf). exists t.
    assert (nodes_at bs h l = nodes_of bs t) as Hn by (unfold nodes_at; by rewrite Ht).
    split_and!; [done..| | |].
    - intros n Hin. eapply Hdom, Hcov; [done|]. by rewrite Hn.
    - subst d. cbn. by rewrite Hn.
    - left. specialize (Hno l Hl). unfold strand_at in Hno. rewrite Ht in Hno.
      by injection Hno. }
  cbn [mbind option_bind]. exists (assign_strands d h U), B', d.
  destruct (assign_strands_spec d U h) as (Hf & Hout & Hin).
  split_and!; [done..| |done].
  intros l Hl. apply Hin; [done|]. rewrite Forall_forall in HU.
  destruct (HU l Hl) as (t & -> & _). by eexists.
Qed.

End fallback_facts.

(** ** The resolver as a whole *)
Section partition_facts.
Context {score : Type} `{!ScoreArith score} `{!Env}.
Implicit Types (h : list (Transcript score)) (t : Transcript score) (l : nat)
  (B : buckets) (bs : list Z) (s : Strand).

(** The transcript at a location is not a reference transcript. *)
Definition nonref h l : Prop := fst <$> kind h l = Some false.

Global Instance nonref_dec h l : Decision (nonref h l).
Proof. unfold nonref. apply _. Defined.

Lemma eq_reflexive_Permutation {A} (l k : list A) : l = k → l ≡ₚ k.
Proof. by intros ->. Qed.

(** Splitting a list by a three-valued classifier. *)
Lemma filter_by_strand {A} (c : A → Strand) (ls : list A) :
  filter (λ x, c x = POS_STRAND) ls ++ filter (λ x, c x = NEG_STRAND) ls
    ++ filter (λ x, c x = NO_STRAND) ls ≡ₚ ls.
Proof.
  induction ls as [|x ls IH]; [done|]. rewrite !filter_cons.
  destruct (c x); repeat case_decide; try done; cbn [app].
  - by rewrite IH.
  - by rewrite <-Permutation_middle, IH.
  - rewrite (assoc_L (++)), <-Permutation_middle, <-(assoc_L (++)). by rewrite IH.
Qed.

Lemma valid_kind h (ts : list nat) l :
  valid h ts → l ∈ ts →
  ∃ t r, h !! l = Some t ∧ wf t ∧ is_ref t = Some r ∧ kind h l = Some (r, strand t).
Proof.
  intros Hv Hl. unfold valid in Hv. rewrite Forall_forall in Hv.
  destruct (Hv l Hl) as (t & Ht & Hwf & _). pose proof Hwf as (_ & [r Hr] & _).
  exists t, r. split_and!; [done..|]. unfold kind. rewrite Ht. cbn. by rewrite Hr.
Qed.

(** What the resolver returns on valid input: the final heap differs
    from the initial one in strands only, and only at unstranded
    non-reference transcripts of the input; each bucket is made of the
    stranded transcripts of its strand followed by the unstranded
    transcripts that ended with that strand. *)
Lemma partition_spec h (ts : list nat) :
  valid h ts →
  ∃ h' B (R : ref_buckets) (c : nat → Strand),
    partition_transcripts_by_strand h ts = Some (h', B, R) ∧
    frame h h' ∧
    (∀ l, ¬ (l ∈ ts ∧ unstranded h l) → h' !! l = h !! l) ∧
    (∀ l, l ∈ ts → unstranded h l → strand_at h' l = Some (c l)) ∧
    (∀ s, lookup3 B s ≡ₚ
          filter (stranded h s) ts ++ filter (λ l, c l = s) (filter (unstranded h) ts)) ∧
    R.1 = filter (reference h POS_STRAND) ts ∧
    R.2 = filter (reference h NEG_STRAND) ts.
Proof.
  intros Hv. unfold partition_transcripts_by_strand.
  assert (is_Some (mapM (λ l, h !! l) ts)) as [objs ->].
  { apply mapM_is_Some. eapply Forall_impl; [exact Hv|].
    intros l (t & Ht & _). cbn. rewrite Ht. by eexists. }
  cbn [mbind option_bind].
  set (bs := find_exon_boundaries objs).
  assert (Sorted Z.le bs) as Hbs by apply find_exon_boundaries_sorted.
  destruct (classify_loop bs h ts ∅ ([], [], []) ([], []) [] Hbs Hv)
    as (nd1 & B1 & R & U & -> & HB1 & HU & HR1 & HR2).
  cbn [mbind option_bind fst snd app] in *. subst U.
  set (U := filter (unstranded h) ts) in *.
  assert (Forall (readable_at h) U) as HUr.
  { apply Forall_forall. intros l [_ Hl]%list_elem_of_filter.
    destruct (valid_kind h ts l Hv Hl) as (t & r & ? & ? & _). by exists t. }
  destruct (resolve_unstranded_spec bs h nd1 B1 U Hbs HUr)
    as (h2 & nd2 & B2 & N & -> & Hf2 & Hout2 & Hin2 & HB2 & HN).
  cbn [mbind option_bind].
  set (v := verdict_of bs h nd1) in *.
  set (U2 := filter (λ l, v l = NO_STRAND) U) in *.
  destruct (resolve_clusters_spec bs h2 nd2 B2 U2 N Hbs)
    as (h3 & B3 & d & -> & Hf3 & Hout3 & Hin3 & HB3).
  { apply Forall_forall. intros l [_ Hl]%list_elem_of_filter.
    rewrite Forall_forall in HUr. by eapply readable_at_frame; [|apply HUr]. }
  { intros l [Hvl Hl]%list_elem_of_filter. by rewrite (Hin2 l Hl), Hvl. }
  { intros l n [Hvl Hl]%list_elem_of_filter Hn.
    rewrite (nodes_at_frame bs h h2 l Hf2) in Hn. by eapply HN. }
  cbn [mbind option_bind].
  exists h3, B3, R, (λ l, if decide (v l = NO_STRAND) then d l else v l).
  split_and!; [done|by eapply frame_trans| | | |done..].
  - intros l Hl. rewrite Hout3, Hout2; [done|..].
    + intros [??]%list_elem_of_filter. by apply Hl.
    + intros [_ [??]%list_elem_of_filter]%list_elem_of_filter. by apply Hl.
  - intros l Hl Hun. assert (l ∈ U) as HlU by (by apply list_elem_of_filter).
    case_decide as Hvl.
    + apply Hin3. by apply list_elem_of_filter.
    + unfold strand_at. rewrite Hout3; [by apply Hin2|].
      by intros [? _]%list_elem_of_filter.
  - intros s. rewrite HB3, HB2, HB1.
    assert (lookup3 (([], [], []) : buckets) s = []) as -> by (by destruct s).
    cbn [app]. rewrite <-(assoc_L (++)).
    apply Permutation_app_head. subst U2.
    rewrite <-(filter_app_complement (λ l, v l = NO_STRAND)
                 (filter (λ l, (if decide (v l = NO_STRAND) then d l else v l) = s) U)).
    rewrite !list_filter_filter. rewrite (comm (++)).
    apply Permutation_app; apply eq_reflexive_Permutation, filter_ext_elem;
      intros l _; case_decide; intuition congruence.
Qed.

Lemma nonref_split h (ts : list nat) :
  filter (nonref h) ts ≡ₚ
  filter (stranded h POS_STRAND) ts ++ filter (stranded h NEG_STRAND) ts
    ++ filter (unstranded h) ts.
Proof.
  set (k := λ l, match kind h l with Some (_, s) => s | None => NO_STRAND end).
  rewrite <-(filter_by_strand k (filter (nonref h) ts)). rewrite !list_filter_filter.
  repeat apply Permutation_app; apply eq_reflexive_Permutation, filter_ext_elem;
    intros l _; unfold stranded, unstranded, nonref, k;
    destruct (kind h l) as [[[] []]|]; cbn; intuition congruence.
Qed.

(** Buckets made of the stranded transcripts of each strand and of the
    unstranded transcripts by final strand hold the non-reference
    transcripts of the input. *)
Lemma buckets_cover h (ts : list nat) B (c : nat → Strand) :
  (∀ s, lookup3 B s ≡ₚ
        filter (stranded h s) ts ++ filter (λ l, c l = s) (filter (unstranded h) ts)) →
  lookup3 B POS_STRAND ++ lookup3 B NEG_STRAND ++ lookup3 B NO_STRAND
    ≡ₚ filter (nonref h) ts.
Proof.
  intros HB. rewrite !HB, nonref_split.
  rewrite <-(filter_by_strand c (filter (unstranded h) ts)) at 4.
  rewrite (filter_Forall_nil (stranded h NO_STRAND))
    by (apply Forall_forall; by intros ? _ [_ ?]).
  cbn [app]. solve_Permutation.
Qed.

(** C1, as amended. On every input in which the transcripts can be read
    and every reference transcript has a concrete strand,
    [partition_transcripts_by_strand] returns, and the three strand
    buckets together hold the non-reference transcripts of the input,
    each as often as the input lists it: exactly once, and in exactly
    one bucket, when the input lists no transcript twice. *)
Theorem partition_transcripts_by_strand_total h (ts : list nat) :
  valid h ts →
  ∃ h' B (R : ref_buckets),
    partition_transcripts_by_strand h ts = Some (h', B, R) ∧
    lookup3 B POS_STRAND ++ lookup3 B NEG_STRAND ++ lookup3 B NO_STRAND
      ≡ₚ filter (nonref h) ts ∧
    (NoDup ts →
     NoDup (lookup3 B POS_STRAND ++ lookup3 B NEG_STRAND ++ lookup3 B NO_STRAND)).
Proof.
  intros Hv.
  destruct (partition_spec h ts Hv) as (h' & B & R & c & Hrun & _ & _ & _ & HB & _).
  exists h', B, R. split; [done|].
  pose proof (buckets_cover h ts B c HB) as Hperm.
  split; [done|]. intros Hnd. rewrite Hperm. by apply NoDup_filter.
Qed.

(** C10. [partition_transcripts_by_strand] updates its input in place:
    when it returns, every non-reference transcript of the input is in a
    bucket, the strand of every transcript in a bucket is the strand of
    that bucket (so the transcripts of the third bucket are still
    unstranded), no field other than the strand of any transcript has
    changed, and the reference transcripts have not changed at all. *)
Theorem partition_transcripts_by_strand_frame h (ts : list nat) :
  valid h ts →
  ∃ h' B (R : ref_buckets),
    partition_transcripts_by_strand h ts = Some (h', B, R) ∧
    (∀ l, l ∈ ts → nonref h l → ∃ s, l ∈ lookup3 B s) ∧
    (∀ s l, l ∈ lookup3 B s → strand_at h' l = Some s) ∧
    Forall2 (λ t t', exons t' = exons t ∧ score_ t' = score_ t ∧ attrs t' = attrs t)
            h h' ∧
    (∀ l, l ∈ R.1 ++ R.2 → h' !! l = h !! l).
Proof.
  intros Hv.
  destruct (partition_spec h ts Hv)
    as (h' & B & R & c & Hrun & Hf & Hout & Hin & HB & HR1 & HR2).
  exists h', B, R. split_and!; [done|..].
  - intros l Hl Hnr.
    assert (l ∈ lookup3 B POS_STRAND ++ lookup3 B NEG_STRAND ++ lookup3 B NO_STRAND)
      as Hin'.
    { rewrite (buckets_cover h ts B c HB). by apply list_elem_of_filter. }
    rewrite !elem_of_app in Hin'. destruct Hin' as [?|[?|?]]; eauto.
  - intros s l. rewrite HB, elem_of_app, !list_elem_of_filter.
    intros [[[Hk Hs] Hl]|[Hc [Hun Hl]]].
    + unfold strand_at. rewrite Hout.
      * unfold kind in Hk. destruct (h !! l) as [t|]; [|done]. cbn in *.
        destruct (is_ref t); [|done]. cbn in Hk. by injection Hk as _ ->.
      * intros [_ Hun]. unfold unstranded in Hun. rewrite Hk in Hun.
        by injection Hun as ->.
    + by rewrite (Hin l Hl Hun), Hc.
  - eapply Forall2_impl; [exact Hf|]. by intros t t' ->.
  - intros l. rewrite HR1, HR2, elem_of_app, !list_elem_of_filter.
    intros [[Hk _]|[Hk _]]; apply Hout; intros [_ Hun];
      unfold reference, unstranded in *; congruence.
Qed.

End partition_facts.

(** ** The resolver on concrete loci *)

(** A locus with a reference transcript, a stranded transcript and three
    unstranded ones. *)
Definition example_locus : list (Transcript float) :=
  [example_transcript NEG_STRAND [mkExon 100 200] 0%float "ref1" true;
   example_transcript POS_STRAND [mkExon 20 30] 3%float "s1" false;
   example_transcript NO_STRAND [mkExon 10 20] 1%float "u1" false;
   example_transcript NO_STRAND [mkExon 10 30] 2%float "u2" false;
   example_transcript NO_STRAND [mkExon 150 180; mkExon 300 300] 1%float "u3" false].

Lemma example_locus_valid :
  @valid float example_env example_locus [0; 1; 2; 3; 4]%nat.
Proof.
  repeat constructor; (eexists; split; [reflexivity|]);
    (split; [split_and!; [repeat constructor; cbn; lia
                         |by eexists; vm_compute
                         |by eexists; vm_compute]|]);
    try (intros _; by vm_compute); by vm_compute.
Qed.

Lemma partition_transcripts_by_strand_total_witness :
  @valid float example_env example_locus [0; 1; 2; 3; 4]%nat ∧
  ∃ h' B (R : ref_buckets),
    @partition_transcripts_by_strand float (float_arith eps_1e8) example_env
      example_locus [0; 1; 2; 3; 4]%nat = Some (h', B, R) ∧
    lookup3 B POS_STRAND ++ lookup3 B NEG_STRAND ++ lookup3 B NO_STRAND
      ≡ₚ [1; 2; 3; 4]%nat.
Proof.
  split; [exact example_locus_valid|].
  destruct (@partition_transcripts_by_strand_total float (float_arith eps_1e8)
              example_env example_locus [0; 1; 2; 3; 4]%nat example_locus_valid)
    as (h' & B & R & Hrun & Hperm & _).
  exists h', B, R. split; [done|]. rewrite Hperm. by vm_compute.
Defined.

Lemma partition_transcripts_by_strand_frame_witness :
  @valid float example_env example_locus [0; 1; 2; 3; 4]%nat ∧
  outcome (@partition_transcripts_by_strand float (float_arith eps_1e8) example_env
             example_locus [0; 1; 2; 3; 4]%nat)
  = Some ([NEG_STRAND; POS_STRAND; POS_STRAND; POS_STRAND; NEG_STRAND],
          ([1; 3; 2]%nat, [4%nat], []), ([], [0%nat])).
Proof.
  split; [exact example_locus_valid|].
  destruct (@partition_transcripts_by_strand_frame float (float_arith eps_1e8)
              example_env example_locus [0; 1; 2; 3; 4]%nat example_locus_valid)
    as (h' & B & R & Hrun & _).
  rewrite Hrun. vm_compute in Hrun. injection Hrun as <- <- <-.
  by vm_compute.
Defined.

(** A reference transcript without a concrete strand makes the resolver
    fail: the per-strand reference flags and reference lists have two
    slots only. *)
Lemma partition_fails_on_unstranded_reference :
  @partition_transcripts_by_strand float (float_arith eps_1e8) example_env
    [example_transcript NO_STRAND [mkExon 10 20] 5%float "ref1" true] [0%nat]
  = None.
Proof. by vm_compute. Qed.

(** * Further properties of the sources *)

(** ** Boundaries and nodes *)
Section node_facts.
Context {score : Type}.
Implicit Types (bs : list Z) (e : Exon) (t : Transcript score) (p : node).

(** X1. [find_exon_boundaries] returns a strictly increasing list (sorted,
    without duplicates) that holds exactly the start and end coordinates
    of the exons of the transcripts. *)
Theorem find_exon_boundaries_spec (ts : list (Transcript score)) :
  StronglySorted Z.lt (find_exon_boundaries ts) ∧
  ∀ x, x ∈ find_exon_boundaries ts ↔
       ∃ t e, t ∈ ts ∧ e ∈ exons t ∧ (x = start e ∨ x = end_ e).
Proof.
  split.
  - apply Sorted_NoDup_lt; apply find_exon_boundaries_sorted.
  - apply find_exon_boundaries_elem_of.
Qed.

(** X2. The boundaries depend on the transcripts as a set only: neither
    the order of the transcripts nor listing one twice changes what
    [find_exon_boundaries] returns. *)
Theorem find_exon_boundaries_order (ts ts' : list (Transcript score)) :
  (∀ t, t ∈ ts ↔ t ∈ ts') → find_exon_boundaries ts = find_exon_boundaries ts'.
Proof.
  intros Hsame.
  assert (∀ x, x ∈ find_exon_boundaries ts ↔ x ∈ find_exon_boundaries ts') as Hmem.
  { intros x. rewrite !find_exon_boundaries_elem_of.
    split; intros (t & e & Ht & He); exists t, e; (split; [by apply Hsame|done]). }
  unfold find_exon_boundaries, Py.sorted_set in *.
  set (S := foldl _ ∅ ts) in *. set (S' := foldl _ ∅ ts') in *.
  assert (S = S') as ->; [|done].
  apply set_eq. intros x. specialize (Hmem x).
  by rewrite !merge_sort_Permutation, !elem_of_elements in Hmem.
Qed.

(** The points that delimit the pieces of an exon. *)
Definition cut_points e bs : list Z := start e :: interior e bs ++ [end_ e].

Lemma cut_points_sorted e bs :
  Sorted Z.le bs → NoDup bs → start e < end_ e →
  StronglySorted Z.lt (cut_points e bs).
Proof.
  intros Hbs Hnd Hlt. unfold cut_points. constructor.
  - apply StronglySorted_app. split_and!.
    + intros x y [? _]%list_elem_of_filter ->%list_elem_of_singleton. lia.
    + apply StronglySorted_filter. by apply Sorted_NoDup_lt.
    + repeat constructor.
  - apply Forall_app. split; [|repeat constructor; lia].
    apply Forall_forall. intros x [? _]%list_elem_of_filter. lia.
Qed.

Lemma consecutive_elem_of (L : list Z) p :
  p ∈ consecutive L → ∃ pre post, L = pre ++ p.1 :: p.2 :: post.
Proof.
  induction L as [|x L IH]; [by intros ?%elem_of_nil|].
  destruct L as [|y L]; [by intros ?%elem_of_nil|].
  change (consecutive (x :: y :: L)) with ((x, y) :: consecutive (y :: L)).
  intros [->|Hp]%elem_of_cons.
  - by exists [], L.
  - destruct (IH Hp) as (pre & post & Heq). exists (x :: pre), post.
    cbn [app]. by rewrite Heq.
Qed.

(** Two neighbours of a strictly increasing list have nothing of the
    list between them. *)
Lemma neighbours_tight (pre post : list Z) (x y b : Z) :
  StronglySorted Z.lt (pre ++ x :: y :: post) →
  b ∈ pre ++ x :: y :: post → x < y ∧ (b ≤ x ∨ y ≤ b).
Proof.
  intros (Hcross & Hpre & Hxy)%StronglySorted_app Hb.
  apply StronglySorted_inv in Hxy as [Hy Hx].
  apply Forall_cons in Hx as [Hlt Hx].
  apply StronglySorted_inv in Hy as [_ Hy].
  rewrite Forall_forall in Hx, Hy. split; [done|].
  rewrite elem_of_app, !elem_of_cons in Hb.
  destruct Hb as [Hb|[->|[->|Hb]]]; [|lia|lia|].
  - left. assert (b < x); [|lia]. apply Hcross; [done|]. by left.
  - right. specialize (Hy b Hb). lia.
Qed.

(** A piece of an exon is a non-empty interval inside the exon, each of
    its ends is an end of the exon or a boundary, and no boundary lies
    strictly inside it. *)
Lemma segments_piece e bs p :
  Sorted Z.le bs → NoDup bs → start e ≤ end_ e → p ∈ segments e bs →
  p.1 < p.2 ∧ start e ≤ p.1 ∧ p.2 ≤ end_ e ∧
  (p.1 = start e ∨ p.1 ∈ bs) ∧ (p.2 = end_ e ∨ p.2 ∈ bs) ∧
  ∀ b, b ∈ bs → ¬ (p.1 < b < p.2).
Proof.
  intros Hbs Hnd Hle Hp.
  destruct (decide (start e = end_ e)) as [Heq|Hne].
  { rewrite (proj2 (segments_nil e bs) Heq) in Hp. by apply elem_of_nil in Hp. }
  rewrite segments_consecutive in Hp by done.
  pose proof (cut_points_sorted e bs Hbs Hnd ltac:(lia)) as Hs.
  unfold cut_points in Hs.
  destruct (consecutive_elem_of _ _ Hp) as (pre & post & HL).
  rewrite HL in Hs.
  assert (∀ b, b ∈ start e :: interior e bs ++ [end_ e] →
               start e ≤ b ≤ end_ e ∧ (b = start e ∨ b = end_ e ∨ b ∈ bs)) as Hin.
  { intros b. rewrite elem_of_cons, elem_of_app, list_elem_of_singleton.
    unfold interior. rewrite list_elem_of_filter.
    intros [->|[[??]| ->]]; split; (lia || auto). }
  assert (p.1 ∈ start e :: interior e bs ++ [end_ e]) as H1.
  { rewrite HL, elem_of_app, elem_of_cons. auto. }
  assert (p.2 ∈ start e :: interior e bs ++ [end_ e]) as H2.
  { rewrite HL, elem_of_app, !elem_of_cons. auto. }
  destruct (neighbours_tight pre post p.1 p.2 p.1 Hs) as [Hlt _].
  { rewrite elem_of_app, elem_of_cons. auto. }
  destruct (Hin _ H1) as [? Hb1], (Hin _ H2) as [? Hb2].
  split_and!; [done|lia|lia| | |].
  - destruct Hb1 as [?|[?|?]]; auto. lia.
  - destruct Hb2 as [?|[?|?]]; auto. lia.
  - intros b Hb Hbetween.
    assert (b ∈ pre ++ p.1 :: p.2 :: post) as Hb'.
    { rewrite <-HL, elem_of_cons, elem_of_app. right. left.
      unfold interior. rewrite list_elem_of_filter. split; [lia|done]. }
    destruct (neighbours_tight pre post p.1 p.2 b Hs Hb') as [_ ?]. lia.
Qed.

(** X3. The nodes that [split_exon] produces against strictly increasing
    boundaries are non-empty intervals inside the exon, and no boundary
    lies strictly inside a node. *)
Theorem split_exon_respects_boundaries e bs pieces :
  Sorted Z.le bs → NoDup bs → start e ≤ end_ e →
  split_exon e bs = Some pieces →
  Forall (λ p, start e ≤ p.1 ∧ p.1 < p.2 ∧ p.2 ≤ end_ e ∧
               ∀ b, b ∈ bs → ¬ (p.1 < b < p.2)) pieces.
Proof.
  intros Hbs Hnd Hle. rewrite split_exon_segments by done. intros [= <-].
  apply Forall_forall. intros p Hp.
  destruct (segments_piece e bs p Hbs Hnd Hle Hp) as (? & ? & ? & _ & _ & ?).
  done.
Qed.

(** X4. Splitting is stable: a node that [split_exon] produced, split
    again against the same boundaries, comes back as it is. *)
Theorem split_exon_stable e bs pieces p :
  Sorted Z.le bs → NoDup bs → start e ≤ end_ e →
  split_exon e bs = Some pieces → p ∈ pieces →
  split_exon (mkExon p.1 p.2) bs = Some [p].
Proof.
  intros Hbs Hnd Hle. rewrite split_exon_segments by done. intros [= <-] Hp.
  destruct (segments_piece e bs p Hbs Hnd Hle Hp) as (Hlt & _ & _ & _ & _ & Hno).
  rewrite split_exon_segments by (done || cbn; lia).
  unfold segments, interior. cbn [start end_].
  rewrite decide_False by lia.
  rewrite filter_Forall_nil by (apply Forall_forall; exact Hno).
  by destruct p.
Qed.

Lemma nodes_of_elem_of bs t p :
  p ∈ nodes_of bs t ↔ ∃ e, e ∈ exons t ∧ p ∈ segments e bs.
Proof.
  unfold nodes_of. induction (exons t) as [|e0 es IH]; cbn [fmap list_fmap concat].
  - split; [by intros ?%elem_of_nil|]. by intros (e & ?%elem_of_nil & _).
  - rewrite elem_of_app, IH. setoid_rewrite elem_of_cons. naive_solver.
Qed.

(** Two nodes of a locus are equal or disjoint, and a node is not empty. *)
Lemma nodes_of_disjoint (ts : list (Transcript score)) t1 t2 p1 p2 :
  t1 ∈ ts → t2 ∈ ts → intervals t1 → intervals t2 →
  p1 ∈ nodes_of (find_exon_boundaries ts) t1 →
  p2 ∈ nodes_of (find_exon_boundaries ts) t2 →
  p1.1 < p1.2 ∧ (p1 = p2 ∨ p1.2 ≤ p2.1 ∨ p2.2 ≤ p1.1).
Proof.
  intros Ht1 Ht2 Hi1 Hi2.
  destruct (find_exon_boundaries_sorted ts) as [Hbs Hnd].
  intros (e1 & He1 & Hp1)%nodes_of_elem_of (e2 & He2 & Hp2)%nodes_of_elem_of.
  unfold intervals in Hi1, Hi2. rewrite Forall_forall in Hi1, Hi2.
  destruct (segments_piece e1 _ p1 Hbs Hnd (Hi1 _ He1) Hp1)
    as (Hlt1 & _ & _ & Ha1 & Hb1 & Hno1).
  destruct (segments_piece e2 _ p2 Hbs Hnd (Hi2 _ He2) Hp2)
    as (Hlt2 & _ & _ & Ha2 & Hb2 & Hno2).
  assert (∀ x, x = start e1 ∨ x = end_ e1 ∨ x = start e2 ∨ x = end_ e2 →
               x ∈ find_exon_boundaries ts) as Hends.
  { intros x Hx. apply find_exon_boundaries_elem_of.
    destruct Hx as [->|[->|[->| ->]]]; eauto 8. }
  assert (p1.1 ∈ find_exon_boundaries ts) as H11 by (destruct Ha1 as [->|?]; auto).
  assert (p1.2 ∈ find_exon_boundaries ts) as H12 by (destruct Hb1 as [->|?]; auto).
  assert (p2.1 ∈ find_exon_boundaries ts) as H21 by (destruct Ha2 as [->|?]; auto).
  assert (p2.2 ∈ find_exon_boundaries ts) as H22 by (destruct Hb2 as [->|?]; auto).
  pose proof (Hno1 _ H21). pose proof (Hno1 _ H22).
  pose proof (Hno2 _ H11). pose proof (Hno2 _ H12).
  split; [done|].
  destruct p1 as [a1 b1], p2 as [a2 b2]. cbn [fst snd] in *.
  destruct (decide (a1 = a2 ∧ b1 = b2)) as [[-> ->]|]; [by left|right; lia].
Qed.

(** X5. The nodes of a locus do not overlap: two nodes obtained by
    splitting exons of the transcripts of a set against the boundaries of
    that set are equal or disjoint. *)
Theorem locus_nodes_disjoint (ts : list (Transcript score)) t1 t2 ns1 ns2 p1 p2 :
  t1 ∈ ts → t2 ∈ ts → intervals t1 → intervals t2 →
  split_exons t1 (find_exon_boundaries ts) = Some ns1 →
  split_exons t2 (find_exon_boundaries ts) = Some ns2 →
  p1 ∈ ns1 → p2 ∈ ns2 →
  p1 = p2 ∨ p1.2 ≤ p2.1 ∨ p2.2 ≤ p1.1.
Proof.
  intros Ht1 Ht2 Hi1 Hi2.
  rewrite !split_exons_nodes_of by (done || apply find_exon_boundaries_sorted).
  intros [= <-] [= <-] Hp1 Hp2.
  by destruct (nodes_of_disjoint ts t1 t2 p1 p2).
Qed.

(** A list of neighbours covers every point between its first and last
    element. *)
Lemma consecutive_cover (a : Z) (L : list Z) (x : Z) :
  a ≤ x → x < default a (last L) →
  ∃ p, p ∈ consecutive (a :: L) ∧ p.1 ≤ x < p.2.
Proof.
  revert a. induction L as [|b L IH]; intros a Ha Hx; [cbn in Hx; lia|].
  change (consecutive (a :: b :: L)) with ((a, b) :: consecutive (b :: L)).
  destruct (decide (x < b)) as [Hlt|Hge].
  - exists (a, b). split; [by left|cbn; lia].
  - destruct (IH b) as (p & Hp & ?); [lia| |].
    + destruct L as [|c L]; [cbn in *; lia|].
      rewrite last_cons_cons in Hx.
      destruct (last (c :: L)) eqn:Hl; [done|by apply last_None in Hl].
    + exists p. split; [by right|done].
Qed.

(** X6. More boundaries give finer nodes: when the transcripts of one set
    all belong to a second set, every node that an exon yields against
    the boundaries of the second set lies inside a node that it yields
    against the boundaries of the first. (The graph builder splits against
    the boundaries of one strand bucket, the resolver against those of
    the whole locus.) *)
Theorem split_exon_refines (ts ts' : list (Transcript score)) e pieces pieces' p' :
  (∀ t, t ∈ ts → t ∈ ts') → start e ≤ end_ e →
  split_exon e (find_exon_boundaries ts) = Some pieces →
  split_exon e (find_exon_boundaries ts') = Some pieces' →
  p' ∈ pieces' →
  ∃ p, p ∈ pieces ∧ p.1 ≤ p'.1 ∧ p'.2 ≤ p.2.
Proof.
  intros Hsub Hle.
  destruct (find_exon_boundaries_sorted ts) as [Hbs Hnd].
  destruct (find_exon_boundaries_sorted ts') as [Hbs' Hnd'].
  rewrite !split_exon_segments by done. intros [= <-] [= <-] Hp'.
  destruct (segments_piece e _ p' Hbs' Hnd' Hle Hp') as (Hlt' & Hs' & He' & _ & _ & Hno').
  assert (start e ≠ end_ e) as Hne by lia.
  assert (∃ p, p ∈ segments e (find_exon_boundaries ts) ∧ p.1 ≤ p'.1 < p.2)
    as (p & Hp & Hcov).
  { rewrite segments_consecutive by done.
    apply consecutive_cover; [done|]. rewrite last_snoc. cbn. lia. }
  exists p. split; [done|]. split; [lia|].
  destruct (segments_piece e _ p Hbs Hnd Hle Hp) as (_ & _ & ? & _ & Hb & _).
  destruct Hb as [->|Hb]; [done|].
  assert (p.2 ∈ find_exon_boundaries ts') as Hb'.
  { apply find_exon_boundaries_elem_of.
    apply find_exon_boundaries_elem_of in Hb as (t & e0 & ? & ? & ?). eauto 8. }
  specialize (Hno' _ Hb'). lia.
Qed.

End node_facts.

Lemma find_exon_boundaries_order_witness :
  let t1 : Transcript Z := mkTranscript POS_STRAND [mkExon 100 500] 1 ∅ in
  let t2 : Transcript Z := mkTranscript NEG_STRAND [mkExon 200 350; mkExon 600 700] 2 ∅ in
  find_exon_boundaries [t1; t2] = find_exon_boundaries [t2; t1; t2].
Proof.
  cbv zeta. apply find_exon_boundaries_order. intros t.
  rewrite !elem_of_cons. tauto.
Defined.

Lemma split_exon_respects_boundaries_witness :
  Forall (λ p : node, 100 ≤ p.1 ∧ p.1 < p.2 ∧ p.2 ≤ 500 ∧
                      ∀ b, b ∈ [50; 100; 200; 350; 500; 700] → ¬ (p.1 < b < p.2))
         [(100, 200); (200, 350); (350, 500)].
Proof.
  apply (split_exon_respects_boundaries (mkExon 100 500) [50; 100; 200; 350; 500; 700]).
  - repeat constructor; cbn; lia.
  - apply (bool_decide_unpack _). reflexivity.
  - cbn; lia.
  - reflexivity.
Defined.

Lemma split_exon_stable_witness :
  split_exon (mkExon 200 350) [50; 100; 200; 350; 500; 700] = Some [(200, 350)].
Proof.
  apply (split_exon_stable (mkExon 100 500) [50; 100; 200; 350; 500; 700]
           [(100, 200); (200, 350); (350, 500)] (200, 350)).
  - repeat constructor; cbn; lia.
  - apply (bool_decide_unpack _). reflexivity.
  - cbn; lia.
  - reflexivity.
  - apply (bool_decide_unpack _). reflexivity.
Defined.

(** Two transcripts with overlapping exons. *)
Definition overlapping_pair : list (Transcript Z) :=
  [mkTranscript POS_STRAND [mkExon 100 500] 1 ∅;
   mkTranscript NEG_STRAND [mkExon 200 350; mkExon 600 700] 2 ∅].

Lemma locus_nodes_disjoint_witness :
  split_exons (mkTranscript POS_STRAND [mkExon 100 500] (1 : Z) ∅)
              (find_exon_boundaries overlapping_pair)
    = Some [(100, 200); (200, 350); (350, 500)] ∧
  split_exons (mkTranscript NEG_STRAND [mkExon 200 350; mkExon 600 700] (2 : Z) ∅)
              (find_exon_boundaries overlapping_pair)
    = Some [(200, 350); (600, 700)] ∧
  ((350, 500) = (200, 350) ∨ (350, 500).2 ≤ (200, 350).1
   ∨ (200, 350).2 ≤ (350, 500).1).
Proof.
  split_and!; [reflexivity..|].
  apply (locus_nodes_disjoint overlapping_pair
           (mkTranscript POS_STRAND [mkExon 100 500] 1 ∅)
           (mkTranscript NEG_STRAND [mkExon 200 350; mkExon 600 700] 2 ∅)
           [(100, 200); (200, 350); (350, 500)] [(200, 350); (600, 700)]).
  - by left.
  - right. by left.
  - repeat constructor; cbn; lia.
  - repeat constructor; cbn; lia.
  - reflexivity.
  - reflexivity.
  - apply (bool_decide_unpack _). reflexivity.
  - apply (bool_decide_unpack _). reflexivity.
Defined.

Lemma split_exon_refines_witness :
  ∃ p : node, p ∈ [(100, 500)] ∧ p.1 ≤ 200 ∧ 350 ≤ p.2.
Proof.
  apply (split_exon_refines
           [mkTranscript POS_STRAND [mkExon 100 500] (1 : Z) ∅] overlapping_pair
           (mkExon 100 500) [(100, 500)] [(100, 200); (200, 350); (350, 500)]
           (200, 350)).
  - intros t ->%list_elem_of_singleton. by left.
  - cbn; lia.
  - reflexivity.
  - reflexivity.
  - apply (bool_decide_unpack _). reflexivity.
Defined.

(** ** The directed graph *)
Section graph_structure.
Context {score : Type} `{!ScoreArith score}.
Implicit Types (G : DiGraph score) (t : Transcript score) (u v n : Exon)
  (m : gmap Exon (NodeAttr score)) (bs : list Z) (s : Strand).

(** The node sequence of a transcript in the order of its exons, and in
    the order in which the graph builder walks it. *)
Definition node_seq bs t : list Exon :=
  (λ p : node, mkExon p.1 p.2) <$> default [] (split_exons t bs).

Definition path_nodes s bs t : list Exon :=
  if decide (s = NEG_STRAND) then reverse (node_seq bs t) else node_seq bs t.

(** The scores that the visits of a node add, in the order of the
    visits: each transcript adds its score once for every occurrence of
    the node in its node sequence. *)
Definition visit_scores bs (ts : list (Transcript score)) n : list score :=
  foldr (λ t acc, replicate (count_of n (node_seq bs t)) (score_ t) ++ acc) [] ts.

(** Pairs of neighbours of a sequence. *)
Definition adjacent (l : list Exon) : list (Exon * Exon) := zip l (tail l).

(** The effect of one visit on the node dictionary. *)
Definition bump (sc : score) m n : gmap Exon (NodeAttr score) :=
  alter (λ nd, mkNodeAttr (NODE_LENGTH nd) (s_add (NODE_SCORE nd) sc)) n
        (match m !! n with
         | None => <[n := mkNodeAttr (end_ n - start n) s_zero]> m
         | Some _ => m
         end).

(** The effect of a list of visits on the entry of a node. *)
Definition credit (scs : list score) n (a : option (NodeAttr score))
  : option (NodeAttr score) :=
  match scs with
  | [] => a
  | _ => Some (mkNodeAttr (from_option NODE_LENGTH (end_ n - start n) a)
                          (foldl s_add (from_option NODE_SCORE s_zero a) scs))
  end.

Lemma credit_app scs1 scs2 n a :
  credit scs2 n (credit scs1 n a) = credit (scs1 ++ scs2) n a.
Proof.
  destruct scs1 as [|x scs1]; [done|].
  destruct scs2 as [|y scs2]; [by rewrite app_nil_r|].
  change ((x :: scs1) ++ y :: scs2) with (x :: (scs1 ++ y :: scs2)).
  unfold credit. cbn [from_option NODE_LENGTH NODE_SCORE]. do 2 f_equal.
  cbn [foldl]. rewrite foldl_app. reflexivity.
Qed.

Lemma bump_lookup sc m n n' :
  bump sc m n !! n' = if decide (n = n') then credit [sc] n (m !! n) else m !! n'.
Proof.
  unfold bump. case_decide as Hn.
  - subst n'. rewrite lookup_alter_eq.
    destruct (m !! n) as [a|] eqn:Hm; [by rewrite Hm|].
    by rewrite lookup_insert_eq.
  - rewrite lookup_alter_ne by done.
    destruct (m !! n); [done|]. by rewrite lookup_insert_ne.
Qed.

Lemma bump_fold_lookup sc (l : list Exon) m n :
  foldl (bump sc) m l !! n = credit (replicate (count_of n l) sc) n (m !! n).
Proof.
  revert m. induction l as [|x l IH]; intros m; [done|].
  cbn [foldl]. rewrite IH, bump_lookup, count_of_cons.
  case_decide as Hx; [|done]. subst x.
  by rewrite credit_app.
Qed.

Lemma count_of_path s bs t n :
  count_of n (path_nodes s bs t) = count_of n (node_seq bs t).
Proof. unfold path_nodes. case_decide; [apply count_of_reverse|done]. Qed.

(** The walk along one transcript. *)
Lemma walk_graph sc (rest : list Exon) G u :
  G_node (foldl (walk sc) (G, u) rest).1 = foldl (bump sc) (G_node G) rest ∧
  G_edges (foldl (walk sc) (G, u) rest).1
    = list_to_set (adjacent (u :: rest)) ∪ G_edges G.
Proof.
  revert G u. induction rest as [|v rest IH]; intros G u.
  - cbn. split; [done|]. set_solver.
  - cbn [foldl]. unfold walk at 2 4. cbn [fst snd].
    destruct (IH (add_edge (add_node_directed G v sc) u v) v) as [-> ->].
    split; [done|].
    change (adjacent (u :: v :: rest)) with ((u, v) :: adjacent (v :: rest)).
    cbn [add_edge G_edges add_node_directed list_to_set]. set_solver.
Qed.

Lemma add_transcript_path_graph s bs G t G' :
  add_transcript_path s bs G t = Some G' →
  path_nodes s bs t ≠ [] ∧
  G_node G' = foldl (bump (score_ t)) (G_node G) (path_nodes s bs t) ∧
  G_edges G' = list_to_set (adjacent (path_nodes s bs t)) ∪ G_edges G.
Proof.
  rewrite add_transcript_path_unfold. unfold path_nodes, node_seq.
  destruct (split_exons t bs) as [pieces|]; [|done].
  cbn [mbind option_bind default].
  destruct (if decide (s = NEG_STRAND) then _ else _) as [|u rest]; [done|].
  intros [= <-]. split; [done|].
  destruct (walk_graph (score_ t) rest (add_node_directed G u (score_ t)) u)
    as [-> ->].
  done.
Qed.

Lemma build_loop s bs (ts : list (Transcript score)) G G' :
  foldlM (add_transcript_path s bs) G ts = Some G' →
  (∀ n, G_node G' !! n = credit (visit_scores bs ts n) n (G_node G !! n)) ∧
  (∀ e, e ∈ G_edges G' ↔
        e ∈ G_edges G ∨ ∃ t, t ∈ ts ∧ e ∈ adjacent (path_nodes s bs t)).
Proof.
  revert G. induction ts as [|t ts IH]; intros G; cbn [foldlM].
  - intros [= <-]. split; [done|]. intros e. split; [auto|].
    intros [?|(t & ?%elem_of_nil & _)]; done.
  - destruct (add_transcript_path s bs G t) as [G1|] eqn:HG1; [|done].
    cbn [mbind option_bind]. intros HG'.
    destruct (add_transcript_path_graph _ _ _ _ _ HG1) as (_ & Hn1 & He1).
    destruct (IH _ HG') as [Hn He]. split.
    + intros n. rewrite Hn, Hn1, bump_fold_lookup, credit_app, count_of_path.
      done.
    + intros e. rewrite He, He1, elem_of_union, elem_of_list_to_set.
      setoid_rewrite elem_of_cons. naive_solver.
Qed.

Lemma visit_scores_nil bs (ts : list (Transcript score)) n :
  visit_scores bs ts n = [] ↔ ∀ t, t ∈ ts → n ∉ node_seq bs t.
Proof.
  induction ts as [|t ts IH]; cbn [visit_scores foldr].
  - split; [|done]. by intros _ t ?%elem_of_nil.
  - fold (visit_scores bs ts n). split.
    + intros [Hr Hts]%app_eq_nil t' [->|Ht']%elem_of_cons.
      * intros Hn%count_of_pos. destruct (count_of n (node_seq bs t)); [lia|done].
      * by apply IH.
    + intros Hall. apply app_nil. split.
      * destruct (count_of n (node_seq bs t)) eqn:Hc; [done|].
        destruct (Hall t); [by left|]. apply count_of_pos. lia.
      * apply IH. intros t' Ht'. apply Hall. by right.
Qed.

Lemma visit_scores_visited bs (ts : list (Transcript score)) n :
  visit_scores bs ts n ≠ [] → ∃ t, t ∈ ts ∧ n ∈ node_seq bs t.
Proof.
  induction ts as [|t ts IH]; cbn [visit_scores foldr]; [done|].
  fold (visit_scores bs ts n).
  destruct (count_of n (node_seq bs t)) eqn:Hc; cbn [replicate app].
  - intros (t' & ? & ?)%IH. exists t'. split; [by right|done].
  - intros _. exists t. split; [by left|]. apply count_of_pos. lia.
Qed.

(** X7. The nodes of the graph that [create_directed_graph] returns are
    the nodes that the transcripts visit; each carries its length
    [end - start] and, as score, the scores of its visits added up from
    [0.0] one after the other in the order of the transcripts (a
    transcript adds its score once for each occurrence of the node in
    its node sequence). The graph records the boundaries of its
    transcripts. This holds for every strand and in floating-point
    arithmetic. *)
Theorem create_directed_graph_nodes s (ts : list (Transcript score)) G :
  create_directed_graph s ts = Some G →
  G_boundaries G = find_exon_boundaries ts ∧
  (∀ n, is_Some (G_node G !! n) ↔
        ∃ t, t ∈ ts ∧ n ∈ node_seq (find_exon_boundaries ts) t) ∧
  ∀ n a, G_node G !! n = Some a →
    NODE_LENGTH a = end_ n - start n ∧
    NODE_SCORE a = foldl s_add s_zero (visit_scores (find_exon_boundaries ts) ts n).
Proof.
  unfold create_directed_graph.
  destruct (foldlM _ _ _) as [G0|] eqn:HG0; [|done]. intros [= <-].
  cbn [G_boundaries G_node]. split; [done|].
  destruct (build_loop _ _ _ _ _ HG0) as [Hn _]. cbn [G_node] in Hn.
  split.
  - intros n. rewrite Hn, lookup_empty.
    destruct (visit_scores _ ts n) as [|x scs] eqn:Hv.
    + pose proof (proj1 (visit_scores_nil _ ts n) Hv) as Hno.
      cbn. split; [by intros []|].
      intros (t & Ht & Hin). by destruct (Hno t Ht).
    + cbn. split; [intros _|by eauto].
      apply visit_scores_visited. by rewrite Hv.
  - intros n a. rewrite Hn, lookup_empty.
    destruct (visit_scores _ ts n) as [|x scs]; [done|].
    cbn [credit from_option]. by intros [= <-].
Qed.

Lemma adjacent_lookup (l : list Exon) u v :
  (u, v) ∈ adjacent l ↔ ∃ i, l !! i = Some u ∧ l !! S i = Some v.
Proof.
  unfold adjacent. rewrite list_elem_of_lookup.
  setoid_rewrite lookup_zip_with_Some. setoid_rewrite lookup_tail.
  split.
  - intros (i & x & y & [= -> ->] & ? & ?). eauto.
  - intros (i & ? & ?). exists i, u, v. done.
Qed.

(** X8. The edges of the graph that [create_directed_graph] returns are
    the pairs of neighbours of the node sequences of the transcripts,
    each sequence taken in reverse for the negative strand; both ends of
    every edge are nodes of the graph. *)
Theorem create_directed_graph_edges s (ts : list (Transcript score)) G :
  create_directed_graph s ts = Some G →
  (∀ u v, (u, v) ∈ G_edges G ↔
     ∃ t i, t ∈ ts ∧
       path_nodes s (find_exon_boundaries ts) t !! i = Some u ∧
       path_nodes s (find_exon_boundaries ts) t !! S i = Some v) ∧
  (∀ u v, (u, v) ∈ G_edges G →
     is_Some (G_node G !! u) ∧ is_Some (G_node G !! v)).
Proof.
  unfold create_directed_graph.
  destruct (foldlM _ _ _) as [G0|] eqn:HG0; [|done]. intros [= <-].
  cbn [G_edges G_node].
  destruct (build_loop _ _ _ _ _ HG0) as [Hn He]. cbn [G_node G_edges] in *.
  assert (∀ u v, (u, v) ∈ G_edges G0 ↔
     ∃ t i, t ∈ ts ∧
       path_nodes s (find_exon_boundaries ts) t !! i = Some u ∧
       path_nodes s (find_exon_boundaries ts) t !! S i = Some v) as Hedges.
  { intros u v. rewrite He. setoid_rewrite adjacent_lookup. split.
    - intros [?%elem_of_empty|(t & ? & i & ? & ?)]; [done|eauto].
    - intros (t & i & ? & ? & ?). right. exists t. split; [done|]. by exists i. }
  split; [done|]. intros u v (t & i & Ht & Hu & Hv)%Hedges.
  assert (∀ n, n ∈ path_nodes s (find_exon_boundaries ts) t →
               is_Some (G_node G0 !! n)) as Hnode.
  { intros n Hin. rewrite Hn, lookup_empty.
    destruct (visit_scores _ ts n) as [|x scs] eqn:Hvs; [|by eexists].
    destruct (proj1 (visit_scores_nil _ ts n) Hvs t Ht).
    apply count_of_pos. rewrite <-(count_of_path s). by apply count_of_pos. }
  split; apply Hnode; by eapply list_elem_of_lookup_2.
Qed.

Lemma adjacent_reverse (l : list Exon) u v :
  (u, v) ∈ adjacent (reverse l) ↔ (v, u) ∈ adjacent l.
Proof.
  assert (∀ (l : list Exon) u v,
            (u, v) ∈ adjacent (reverse l) → (v, u) ∈ adjacent l) as Hhalf.
  { clear. intros l u v. rewrite !adjacent_lookup. intros (i & Hu & Hv).
    pose proof (lookup_lt_Some _ _ _ Hv) as Hlt. rewrite length_reverse in Hlt.
    rewrite reverse_lookup in Hu by lia. rewrite reverse_lookup in Hv by lia.
    exists (length l - S (S i))%nat. split; [done|].
    by replace (S (length l - S (S i))) with (length l - S i)%nat by lia. }
  split; [apply Hhalf|]. intros H. apply Hhalf. by rewrite reverse_involutive.
Qed.

(** X9. The strand only turns the edges: on the same transcripts,
    [create_directed_graph] fails for the negative strand exactly when it
    fails for the positive strand, and otherwise the two graphs have the
    same nodes with the same lengths and scores (in floating-point
    arithmetic as well) and the same boundaries, and each edge of one is
    an edge of the other reversed. For the third strand value the graph
    is that of the positive strand. *)
Theorem create_directed_graph_strand_symmetry (ts : list (Transcript score)) :
  match create_directed_graph POS_STRAND ts, create_directed_graph NEG_STRAND ts with
  | Some Gp, Some Gn =>
      G_node Gn = G_node Gp ∧ G_boundaries Gn = G_boundaries Gp ∧
      ∀ u v, (u, v) ∈ G_edges Gn ↔ (v, u) ∈ G_edges Gp
  | None, None => True
  | _, _ => False
  end ∧
  create_directed_graph NO_STRAND ts = create_directed_graph POS_STRAND ts.
Proof.
  split; [|reflexivity].
  unfold create_directed_graph.
  set (bs := find_exon_boundaries ts).
  assert (∀ s, is_Some (foldlM (add_transcript_path s bs) (mkDiGraph ∅ ∅ []) ts) ↔
               Forall (λ t, ∃ nodes, split_exons t bs = Some nodes ∧ nodes ≠ []) ts)
    as Hsome.
  { intros s. apply foldlM_is_Some_Forall. intros. apply add_transcript_path_is_Some. }
  pose proof (Hsome POS_STRAND) as Hp. pose proof (Hsome NEG_STRAND) as Hn.
  destruct (foldlM (add_transcript_path POS_STRAND bs) _ ts) as [Gp|] eqn:HGp,
           (foldlM (add_transcript_path NEG_STRAND bs) _ ts) as [Gn|] eqn:HGn;
    cbn [mbind option_bind].
  - destruct (build_loop _ _ _ _ _ HGp) as [Hnp Hep].
    destruct (build_loop _ _ _ _ _ HGn) as [Hnn Hen].
    cbn [G_node G_edges G_boundaries]. split_and!; [|done|].
    + apply map_eq. intros n. by rewrite Hnp, Hnn.
    + intros u v. rewrite Hep, Hen. cbn [G_edges].
      split; (intros [?%elem_of_empty|(t & Ht & Hadj)]; [done|]);
        right; exists t; (split; [done|]).
      * exact (proj1 (adjacent_reverse (node_seq bs t) u v) Hadj).
      * exact (proj2 (adjacent_reverse (node_seq bs t) u v) Hadj).
  - destruct (proj2 Hn) as [? [=]]. apply Hp. by eexists.
  - destruct (proj2 Hp) as [? [=]]. apply Hn. by eexists.
  - done.
Qed.

(** Transcripts whose exons are intervals listed in genomic order
    without overlap. *)
Definition before (a b : Exon) : Prop := end_ a ≤ start b.

Definition genomic_order t : Prop :=
  intervals t ∧ StronglySorted before (exons t).

Lemma consecutive_before (L : list Z) :
  StronglySorted Z.lt L →
  StronglySorted (λ p q : node, p.2 ≤ q.1) (consecutive L).
Proof.
  induction 1 as [|x L HL IH Hx]; [constructor|].
  destruct L as [|y L]; [constructor|].
  change (consecutive (x :: y :: L)) with ((x, y) :: consecutive (y :: L)).
  constructor; [done|].
  apply StronglySorted_inv in HL as [_ Hy].
  assert (Forall (λ z, y ≤ z) (y :: L)) as Hge.
  { constructor; [lia|]. eapply Forall_impl; [exact Hy|]. cbn. lia. }
  apply consecutive_Forall in Hge.
  eapply Forall_impl; [exact Hge|]. by intros p [? _].
Qed.

Lemma StronglySorted_concat {A} (R : relation A) (ls : list (list A)) :
  Forall (StronglySorted R) ls →
  StronglySorted (λ l1 l2, ∀ x y, x ∈ l1 → y ∈ l2 → R x y) ls →
  StronglySorted R (concat ls).
Proof.
  intros Hin Hcross. induction Hcross as [|l ls Hls IH Hl]; [constructor|].
  apply Forall_cons in Hin as [Hl0 Hin]. cbn [concat].
  apply StronglySorted_app. split_and!; [|done|by apply IH].
  intros x y Hx Hy. clear IH Hls Hin.
  induction ls as [|l' ls IH]; [by apply elem_of_nil in Hy|].
  apply Forall_cons in Hl as [Hl' Hl]. cbn [concat] in Hy.
  apply elem_of_app in Hy as [Hy|Hy]; [by apply Hl'|by apply IH].
Qed.

Lemma StronglySorted_fmap_2 {A B} (R : relation A) (R' : relation B) (f : A → B)
    (l : list A) :
  (∀ x y, R x y → R' (f x) (f y)) → StronglySorted R l → StronglySorted R' (f <$> l).
Proof.
  intros Hf. induction 1 as [|x l Hl IH Hx]; [constructor|].
  cbn. constructor; [done|]. apply Forall_fmap.
  eapply Forall_impl; [exact Hx|]. intros y. apply Hf.
Qed.

Lemma node_seq_ordered bs t :
  Sorted Z.le bs → NoDup bs → genomic_order t →
  StronglySorted before (node_seq bs t) ∧
  Forall (λ n, start n < end_ n) (node_seq bs t).
Proof.
  intros Hbs Hnd [Hint Hord]. unfold node_seq.
  rewrite split_exons_nodes_of by done. cbn [default].
  assert (∀ e p, e ∈ exons t → p ∈ segments e bs →
                 p.1 < p.2 ∧ start e ≤ p.1 ∧ p.2 ≤ end_ e) as Hpiece.
  { intros e p He Hp. unfold intervals in Hint. rewrite Forall_forall in Hint.
    destruct (segments_piece e bs p Hbs Hnd (Hint e He) Hp) as (? & ? & ? & _).
    done. }
  split.
  - apply (StronglySorted_fmap_2 (λ p q : node, p.2 ≤ q.1)); [by intros ???|].
    unfold nodes_of. apply StronglySorted_concat.
    + apply Forall_fmap, Forall_forall. intros e He. cbn.
      destruct (decide (start e = end_ e)) as [Heq|Hne].
      * rewrite (proj2 (segments_nil e bs) Heq). constructor.
      * rewrite segments_consecutive by done. apply consecutive_before.
        apply cut_points_sorted; [done..|].
        unfold intervals in Hint. rewrite Forall_forall in Hint.
        specialize (Hint e He). lia.
    + clear Hint. induction Hord as [|e es Hes IH He]; [constructor|].
      cbn [fmap list_fmap]. constructor.
      * apply IH. intros e' p He'. apply Hpiece. by right.
      * apply Forall_fmap, Forall_forall. intros e' He' p q Hp Hq. cbn in Hq.
        rewrite Forall_forall in He. specialize (He e' He'). unfold before in He.
        destruct (Hpiece e p) as (_ & _ & ?); [by left|done|].
        destruct (Hpiece e' q) as (_ & ? & _); [by right|done|]. lia.
  - apply Forall_fmap, Forall_forall.
    intros p (e & He & Hp)%nodes_of_elem_of. cbn.
    by destruct (Hpiece e p He Hp).
Qed.

Lemma StronglySorted_neighbours {A} (R : relation A) (l : list A) i x y :
  StronglySorted R l → l !! i = Some x → l !! S i = Some y → R x y.
Proof.
  intros Hl. revert i. induction Hl as [|z l Hl IH Hz]; intros i; [done|].
  destruct i as [|i]; cbn.
  - intros [= ->] Hy. rewrite Forall_forall in Hz. apply Hz.
    by eapply list_elem_of_lookup_2.
  - apply IH.
Qed.

(** X10. When the exons of every transcript are intervals listed in
    genomic order without overlap, every edge of the graph points in the
    direction of transcription: from a node to a node that lies entirely
    after it for the positive strand (and the third strand value),
    entirely before it for the negative strand. The nodes being non-empty
    intervals, the graph has no loop and no cycle. *)
Theorem create_directed_graph_edges_forward s (ts : list (Transcript score)) G u v :
  Forall genomic_order ts →
  create_directed_graph s ts = Some G → (u, v) ∈ G_edges G →
  start u < end_ u ∧ start v < end_ v ∧
  if decide (s = NEG_STRAND) then before v u else before u v.
Proof.
  intros Hord. unfold create_directed_graph.
  destruct (foldlM _ _ _) as [G0|] eqn:HG0; [|done]. intros [= <-].
  cbn [G_edges]. destruct (build_loop _ _ _ _ _ HG0) as [_ He].
  rewrite He. cbn [G_edges]. intros [?%elem_of_empty|(t & Ht & Hadj)]; [done|].
  destruct (find_exon_boundaries_sorted ts) as [Hbs Hnd].
  rewrite Forall_forall in Hord.
  destruct (node_seq_ordered _ t Hbs Hnd (Hord t Ht)) as [Hsorted Hpos].
  rewrite Forall_forall in Hpos.
  unfold path_nodes in Hadj. case_decide.
  - apply (proj1 (adjacent_reverse _ u v)), (proj1 (adjacent_lookup _ v u)) in Hadj
      as (i & Hv & Hu).
    split_and!.
    + apply Hpos. by eapply list_elem_of_lookup_2.
    + apply Hpos. by eapply list_elem_of_lookup_2.
    + by eapply StronglySorted_neighbours.
  - apply (proj1 (adjacent_lookup _ u v)) in Hadj as (i & Hu & Hv).
    split_and!.
    + apply Hpos. by eapply list_elem_of_lookup_2.
    + apply Hpos. by eapply list_elem_of_lookup_2.
    + by eapply StronglySorted_neighbours.
Qed.

Lemma ordered_NoDup (l : list Exon) :
  StronglySorted before l → Forall (λ n, start n < end_ n) l → NoDup l.
Proof.
  induction 1 as [|x l Hl IH Hx]; intros Hpos; [constructor|].
  apply Forall_cons in Hpos as [Hxpos Hpos]. constructor; [|by apply IH].
  intros Hin. rewrite Forall_forall in Hx. specialize (Hx x Hin).
  unfold before in Hx. lia.
Qed.

Lemma count_of_NoDup (l : list Exon) n :
  NoDup l → count_of n l = if decide (n ∈ l) then 1%nat else 0%nat.
Proof.
  induction 1 as [|x l Hx Hl IH]; [done|].
  rewrite count_of_cons, IH. destruct (decide (x = n)) as [->|Hne].
  - rewrite decide_False by done. rewrite decide_True; [done|by left].
  - destruct (decide (n ∈ l)) as [Hin|Hin].
    + rewrite decide_True; [done|by right].
    + rewrite decide_False; [done|]. by intros [?|?]%elem_of_cons.
Qed.

Lemma visit_scores_ordered bs (ts : list (Transcript score)) n :
  Sorted Z.le bs → NoDup bs → Forall genomic_order ts →
  visit_scores bs ts n = score_ <$> filter (λ t, n ∈ node_seq bs t) ts.
Proof.
  intros Hbs Hnd. induction 1 as [|t ts Ht Hord IH]; [done|].
  cbn [visit_scores foldr]. fold (visit_scores bs ts n). rewrite IH.
  destruct (node_seq_ordered bs t Hbs Hnd Ht) as [Hsorted Hpos].
  rewrite (count_of_NoDup _ n (ordered_NoDup _ Hsorted Hpos)).
  rewrite filter_cons. by case_decide.
Qed.

(** X11. Transcripts whose exons are intervals in genomic order without
    overlap visit each of their nodes once, so the score of a node of the
    graph is the sum of the scores of the transcripts that have the node,
    each counted once, added from [0.0] in the order of the transcripts. *)
Theorem create_directed_graph_node_score s (ts : list (Transcript score)) G n a :
  Forall genomic_order ts →
  create_directed_graph s ts = Some G → G_node G !! n = Some a →
  NODE_SCORE a =
  foldl s_add s_zero
        (score_ <$> filter (λ t, n ∈ node_seq (find_exon_boundaries ts) t) ts).
Proof.
  intros Hord. unfold create_directed_graph.
  destruct (foldlM _ _ _) as [G0|] eqn:HG0; [|done]. intros [= <-].
  cbn [G_node]. destruct (build_loop _ _ _ _ _ HG0) as [Hn _].
  cbn [G_node] in Hn. rewrite Hn, lookup_empty.
  destruct (find_exon_boundaries_sorted ts) as [Hbs Hnd].
  rewrite (visit_scores_ordered _ ts n Hbs Hnd Hord).
  destruct (score_ <$> filter _ ts) as [|x scs]; [done|].
  cbn [credit from_option]. by intros [= <-].
Qed.

End graph_structure.

(** Two transcripts with float scores that share a node. *)
Definition scored_pair : list (Transcript float) :=
  [mkTranscript NEG_STRAND [mkExon 100 500] 0.5%float ∅;
   mkTranscript NEG_STRAND [mkExon 200 350; mkExon 600 700] 0.25%float ∅].

Lemma create_directed_graph_nodes_witness :
  ∃ G, @create_directed_graph float (float_arith eps_1e8) NEG_STRAND scored_pair
         = Some G ∧
       G_boundaries G = [100; 200; 350; 500; 600; 700] ∧
       G_node G !! mkExon 200 350 = Some (mkNodeAttr 150 (0 + 0.5 + 0.25)%float).
Proof.
  destruct (@create_directed_graph float (float_arith eps_1e8) NEG_STRAND scored_pair)
    as [G|] eqn:HG; [|by vm_compute in HG].
  exists G. split; [done|].
  destruct (@create_directed_graph_nodes float (float_arith eps_1e8) NEG_STRAND
              scored_pair G HG) as (Hb & _ & Hattr).
  split; [rewrite Hb; reflexivity|].
  destruct (G_node G !! mkExon 200 350) as [a|] eqn:Ha.
  - destruct (Hattr _ _ Ha) as [Hlen Hsc]. destruct a as [len sc].
    cbn [NODE_LENGTH NODE_SCORE] in *. subst len sc. reflexivity.
  - vm_compute in HG. injection HG as <-. by vm_compute in Ha.
Defined.

Lemma create_directed_graph_edges_witness :
  ∃ G, @create_directed_graph float (float_arith eps_1e8) NEG_STRAND scored_pair
         = Some G ∧
       (mkExon 600 700, mkExon 200 350) ∈ G_edges G.
Proof.
  destruct (@create_directed_graph float (float_arith eps_1e8) NEG_STRAND scored_pair)
    as [G|] eqn:HG; [|by vm_compute in HG].
  exists G. split; [done|].
  apply (proj1 (@create_directed_graph_edges float (float_arith eps_1e8) NEG_STRAND
                  scored_pair G HG)).
  exists (mkTranscript NEG_STRAND [mkExon 200 350; mkExon 600 700] 0.25%float ∅), 0%nat.
  split_and!; [right; by left|reflexivity|reflexivity].
Defined.

Lemma create_directed_graph_node_score_witness :
  ∃ G, @create_directed_graph float (float_arith eps_1e8) NEG_STRAND scored_pair
         = Some G ∧
       ∃ a, G_node G !! mkExon 200 350 = Some a ∧ NODE_SCORE a = (0 + 0.5 + 0.25)%float.
Proof.
  destruct (@create_directed_graph float (float_arith eps_1e8) NEG_STRAND scored_pair)
    as [G|] eqn:HG; [|by vm_compute in HG].
  exists G. split; [done|].
  destruct (G_node G !! mkExon 200 350) as [a|] eqn:Ha.
  - exists a. split; [done|].
    rewrite (@create_directed_graph_node_score float (float_arith eps_1e8) NEG_STRAND
               scored_pair G (mkExon 200 350) a); [reflexivity| |done..].
    repeat constructor; cbn; unfold before; cbn; lia.
  - vm_compute in HG. injection HG as <-. by vm_compute in Ha.
Defined.

Lemma create_directed_graph_edges_forward_witness :
  Forall (@genomic_order float) scored_pair ∧
  ∃ G, @create_directed_graph float (float_arith eps_1e8) NEG_STRAND scored_pair
         = Some G ∧
       (mkExon 600 700, mkExon 200 350) ∈ G_edges G ∧
       before (mkExon 200 350) (mkExon 600 700).
Proof.
  assert (Forall (@genomic_order float) scored_pair) as Hord.
  { repeat constructor; cbn; unfold before; cbn; lia. }
  split; [exact Hord|].
  destruct (@create_directed_graph float (float_arith eps_1e8) NEG_STRAND scored_pair)
    as [G|] eqn:HG; [|by vm_compute in HG].
  exists G. split; [done|].
  assert ((mkExon 600 700, mkExon 200 350) ∈ G_edges G) as Hedge.
  { vm_compute in HG. injection HG as <-. apply (bool_decide_unpack _). reflexivity. }
  split; [done|].
  apply (@create_directed_graph_edges_forward float (float_arith eps_1e8) NEG_STRAND
           scored_pair G (mkExon 600 700) (mkExon 200 350) Hord HG Hedge).
Defined.

(** ** The partial paths of the components *)
Section path_accumulation.
Context {score : Type} `{!ScoreArith score}.
Implicit Types (graphs : list (gmap (list Exon) score)) (t : Transcript score)
  (trim : gset Exon) (chain : gmap Exon Exon) (sub : gmap Exon nat)
  (m : gmap nat (gset Exon)) (bs : list Z) (s : Strand)
  (pp : gmap (list Exon) score) (p : list Exon).

(** The collapsed nodes of a transcript, binned by component (the first
    inner loop of the path mapper), and the path tuple that the
    transcript contributes to a component, if any. *)
Definition bins bs trim chain sub t : option (gmap nat (gset Exon)) :=
  nodes ← split_exons t bs; foldlM (bin_node trim chain sub) ∅ nodes.

Definition path_in s bs trim chain sub t (i : nat) : option (list Exon) :=
  m ← bins bs trim chain sub t; ns ← m !! i; Some (sorted_path s ns).

(** The scores of the transcripts that contribute a given path to a
    given component, in the order of the transcripts. *)
Definition path_scores s bs trim chain sub (i : nat) p
    (ts : list (Transcript score)) : list score :=
  omap (λ t, if decide (path_in s bs trim chain sub t i = Some p)
             then Some (score_ t) else None) ts.

(** What one transcript does to the accumulator of one component. *)
Definition path_step s bs trim chain sub (i : nat) pp t : gmap (list Exon) score :=
  match path_in s bs trim chain sub t i with
  | Some p => contribute p (score_ t) pp
  | None => pp
  end.

Lemma sub_bound sub : ∃ N : nat, ∀ cn i, sub !! cn = Some i → (i < N)%nat.
Proof.
  induction sub as [|cn i sub Hcn IH] using map_ind.
  - exists 0%nat. intros cn i. by rewrite lookup_empty.
  - destruct IH as [N HN]. exists (Nat.max N (S i)). intros cn' i'.
    destruct (decide (cn = cn')) as [<-|Hne].
    + rewrite lookup_insert_eq. intros [= <-]. lia.
    + rewrite lookup_insert_ne by done. intros Hi'%HN. lia.
Qed.

Lemma bin_nodes_defined trim chain sub (nodes : list node) m0 m :
  foldlM (bin_node trim chain sub) m0 nodes = Some m →
  ∀ n, n ∈ nodes → mkExon n.1 n.2 ∉ trim →
    ∃ cn i, chain !! mkExon n.1 n.2 = Some cn ∧ sub !! cn = Some i.
Proof.
  revert m0. induction nodes as [|n0 nodes IH]; intros m0 Hrun n Hn Htrim.
  { by apply elem_of_nil in Hn. }
  cbn [foldlM] in Hrun.
  destruct (bin_node trim chain sub m0 n0) as [m1|] eqn:Hstep; [|done].
  cbn [mbind option_bind] in Hrun.
  apply elem_of_cons in Hn as [->|Hn]; [|by eapply IH].
  unfold bin_node in Hstep. rewrite decide_False in Hstep by done.
  destruct (chain !! mkExon n0.1 n0.2) as [cn|] eqn:Hcn; [|done].
  cbn [mbind option_bind] in Hstep.
  destruct (sub !! cn) as [i|] eqn:Hi; [|done]. eauto.
Qed.

(** The bins of a transcript hold the collapsed nodes of its nodes that
    survived trimming. *)
Lemma bins_survivors bs trim chain sub t m :
  bins bs trim chain sub t = Some m →
  ∃ nodes, split_exons t bs = Some nodes ∧
    (∀ i cn, cn ∈ default ∅ (m !! i) ↔ survives trim chain sub nodes cn i) ∧
    (∀ i, is_Some (m !! i) ↔ ∃ cn, survives trim chain sub nodes cn i).
Proof.
  unfold bins. destruct (split_exons t bs) as [nodes|]; [|done].
  cbn [mbind option_bind]. intros Hrun. exists nodes. split; [done|].
  destruct (sub_bound sub) as [N HN].
  destruct (bin_nodes_spec trim chain sub nodes N ∅) as (m' & Hm' & H1 & H2).
  { intros n Hn Htrim.
    destruct (bin_nodes_defined _ _ _ _ _ _ Hrun n Hn Htrim) as (cn & i & ? & Hi).
    exists cn, i. split_and!; [done..|]. by eapply HN. }
  rewrite Hrun in Hm'. injection Hm' as <-. split.
  - intros i cn. rewrite H1, lookup_empty. cbn. set_solver.
  - intros i. rewrite H2, lookup_empty. split; [|auto].
    intros [[? [=]]|?]; done.
Qed.

Lemma add_partial_paths_bound s (sc : score) (kvs : list (nat * gset Exon))
    graphs graphs' :
  foldlM (add_partial_path s sc) graphs kvs = Some graphs' →
  ∀ i ns, (i, ns) ∈ kvs → (i < length graphs)%nat.
Proof.
  revert graphs. induction kvs as [|[j ns0] kvs IH]; intros graphs Hrun i ns Hin.
  { by apply elem_of_nil in Hin. }
  cbn [foldlM] in Hrun.
  destruct (add_partial_path s sc graphs (j, ns0)) as [g1|] eqn:Hstep; [|done].
  cbn [mbind option_bind] in Hrun.
  unfold add_partial_path in Hstep.
  destruct (graphs !! j) as [pp|] eqn:Hj; [|done].
  cbn [mbind option_bind] in Hstep. injection Hstep as <-.
  apply elem_of_cons in Hin as [[= -> ->]|Hin].
  - by eapply lookup_lt_Some.
  - specialize (IH _ Hrun i ns Hin). by rewrite length_insert in IH.
Qed.

(** One transcript: every component takes its step. *)
Lemma map_transcript_path_step s bs trim chain sub graphs t graphs' :
  map_transcript_path s bs trim chain sub graphs t = Some graphs' →
  length graphs' = length graphs ∧
  ∀ i, graphs' !! i = (λ pp, path_step s bs trim chain sub i pp t) <$> graphs !! i.
Proof.
  unfold map_transcript_path, path_step, path_in, bins.
  destruct (split_exons t bs) as [nodes|]; [|done]. cbn [mbind option_bind].
  destruct (foldlM (bin_node trim chain sub) ∅ nodes) as [m|]; [|done].
  cbn [mbind option_bind]. intros Hrun.
  destruct (add_partial_paths_spec s (score_ t) (map_to_list m) graphs)
    as (g & Hg & Hlen & Hlook).
  { apply NoDup_fst_map_to_list. }
  { by eapply add_partial_paths_bound. }
  rewrite Hrun in Hg. injection Hg as <-. split; [done|].
  intros i. rewrite Hlook, list_to_map_to_list.
  destruct (m !! i); cbn [mbind option_bind]; [done|].
  by destruct (graphs !! i).
Qed.

Lemma populate_partial_paths_fold s bs trim chain sub graphs
    (ts : list (Transcript score)) graphs' :
  populate_partial_paths s bs trim chain sub graphs ts = Some graphs' →
  length graphs' = length graphs ∧
  ∀ i, graphs' !! i
       = (λ pp, foldl (path_step s bs trim chain sub i) pp ts) <$> graphs !! i.
Proof.
  unfold populate_partial_paths. revert graphs.
  induction ts as [|t ts IH]; intros graphs; cbn [foldlM].
  - intros [= <-]. split; [done|]. intros i. by destruct (graphs !! i).
  - destruct (map_transcript_path s bs trim chain sub graphs t) as [g1|] eqn:H1;
      [|done].
    cbn [mbind option_bind]. intros Hrun.
    destruct (map_transcript_path_step _ _ _ _ _ _ _ _ H1) as [Hlen1 Hstep].
    destruct (IH _ Hrun) as [Hlen Hrest]. split; [congruence|].
    intros i. rewrite Hrest, Hstep. by destruct (graphs !! i).
Qed.

(** The entry of a path after a list of contributions. *)
Definition tally (scs : list score) (a : option score) : option score :=
  match scs with
  | [] => a
  | _ => Some (foldl s_add (default s_zero a) scs)
  end.

Lemma tally_cons sc scs a :
  tally scs (Some (s_add (default s_zero a) sc)) = tally (sc :: scs) a.
Proof. by destruct scs. Qed.

Lemma path_step_fold_lookup s bs trim chain sub (i : nat)
    (ts : list (Transcript score)) pp p :
  foldl (path_step s bs trim chain sub i) pp ts !! p
  = tally (path_scores s bs trim chain sub i p ts) (pp !! p).
Proof.
  revert pp. induction ts as [|t ts IH]; intros pp; [done|].
  cbn [foldl path_scores omap list_omap]. rewrite IH.
  fold (path_scores s bs trim chain sub i p ts).
  unfold path_step at 1.
  destruct (path_in s bs trim chain sub t i) as [p'|]; [|by rewrite decide_False].
  unfold contribute. destruct (decide (p' = p)) as [->|Hne].
  - rewrite decide_True by done. rewrite lookup_insert_eq. apply tally_cons.
  - rewrite decide_False by congruence. by rewrite lookup_insert_ne.
Qed.

(** Every transcript of a run that returns has been binned. *)
Lemma populate_partial_paths_bins s bs trim chain sub graphs
    (ts : list (Transcript score)) graphs' t :
  populate_partial_paths s bs trim chain sub graphs ts = Some graphs' →
  t ∈ ts → is_Some (bins bs trim chain sub t).
Proof.
  unfold populate_partial_paths. revert graphs.
  induction ts as [|t0 ts IH]; intros graphs Hrun Ht.
  { by apply elem_of_nil in Ht. }
  cbn [foldlM] in Hrun.
  destruct (map_transcript_path s bs trim chain sub graphs t0) as [g1|] eqn:H1;
    [|done].
  cbn [mbind option_bind] in Hrun.
  apply elem_of_cons in Ht as [->|Ht]; [|by eapply IH].
  unfold map_transcript_path in H1. unfold bins.
  destruct (split_exons t0 bs) as [nodes|]; [|done]. cbn [mbind option_bind] in *.
  by destruct (foldlM (bin_node trim chain sub) ∅ nodes).
Qed.

Local Instance start_le_total : Total start_le.
Proof. intros a b. unfold start_le. lia. Qed.
Local Instance start_le_trans : Transitive start_le.
Proof. intros a b c. unfold start_le. lia. Qed.
Local Instance start_ge_total : Total start_ge.
Proof. intros a b. unfold start_ge. lia. Qed.
Local Instance start_ge_trans : Transitive start_ge.
Proof. intros a b c. unfold start_ge. lia. Qed.

(** The tuple of a set of collapsed nodes: its members, each once, by
    start (descending for the negative strand). *)
Lemma sorted_path_spec s (ns : gset Exon) :
  NoDup (sorted_path s ns) ∧
  (∀ cn, cn ∈ sorted_path s ns ↔ cn ∈ ns) ∧
  StronglySorted (λ a b, if decide (s = NEG_STRAND)
                         then start b ≤ start a else start a ≤ start b)
                 (sorted_path s ns).
Proof.
  unfold sorted_path. destruct (decide (s = NEG_STRAND)).
  - split_and!.
    + rewrite merge_sort_Permutation. apply NoDup_elements.
    + intros cn. by rewrite merge_sort_Permutation, elem_of_elements.
    + apply (StronglySorted_merge_sort start_ge).
  - split_and!.
    + rewrite merge_sort_Permutation. apply NoDup_elements.
    + intros cn. by rewrite merge_sort_Permutation, elem_of_elements.
    + apply (StronglySorted_merge_sort start_le).
Qed.

(** X12. The path mapper as a whole: when the loop over the transcripts
    returns, it has kept the number of components, and in every
    component the entry of a path is the entry it had before the loop
    (zero when it had none) with the scores of the transcripts that
    contribute exactly this path to this component added one after the
    other in the order of the transcripts; a path that no transcript
    contributes keeps its entry, or has none. A transcript contributes a
    path to a component exactly when one of its nodes survives trimming
    and collapses into the component, and the path then lists the
    collapsed nodes of the transcript that fall into the component, each
    once, ordered by start (descending for the negative strand). This
    holds in floating-point arithmetic. *)
Theorem populate_partial_paths_spec s bs trim chain sub graphs
    (ts : list (Transcript score)) graphs' :
  populate_partial_paths s bs trim chain sub graphs ts = Some graphs' →
  length graphs' = length graphs ∧
  (∀ i pp, graphs !! i = Some pp →
     ∃ pp', graphs' !! i = Some pp' ∧
       ∀ p, pp' !! p =
            match path_scores s bs trim chain sub i p ts with
            | [] => pp !! p
            | scs => Some (foldl s_add (default s_zero (pp !! p)) scs)
            end) ∧
  (∀ t, t ∈ ts →
     ∃ nodes, split_exons t bs = Some nodes ∧
       ∀ i, match path_in s bs trim chain sub t i with
            | Some p =>
                p ≠ [] ∧ NoDup p ∧
                (∀ cn, cn ∈ p ↔ survives trim chain sub nodes cn i) ∧
                StronglySorted (λ a b, if decide (s = NEG_STRAND)
                                       then start b ≤ start a
                                       else start a ≤ start b) p
            | None => ∀ cn, ¬ survives trim chain sub nodes cn i
            end).
Proof.
  intros Hrun.
  destruct (populate_partial_paths_fold _ _ _ _ _ _ _ _ Hrun) as [Hlen Hfold].
  split_and!; [done| |].
  - intros i pp Hi. rewrite Hfold, Hi. cbn [fmap option_fmap option_map].
    eexists. split; [done|]. intros p. rewrite path_step_fold_lookup.
    unfold tally. by destruct (path_scores _ _ _ _ _ _ _ _).
  - intros t Ht.
    destruct (populate_partial_paths_bins _ _ _ _ _ _ _ _ _ Hrun Ht) as [m Hm].
    destruct (bins_survivors _ _ _ _ _ _ Hm) as (nodes & Hsplit & H1 & H2).
    exists nodes. split; [done|]. intros i. unfold path_in. rewrite Hm.
    cbn [mbind option_bind]. specialize (H1 i). specialize (H2 i).
    destruct (m !! i) as [ns|]; cbn [mbind option_bind default] in *.
    + destruct (sorted_path_spec s ns) as (Hnd & Hin & Hsorted).
      split_and!; [|done| |done].
      * destruct (proj1 H2 ltac:(by eexists)) as [cn Hcn].
        apply H1, Hin in Hcn. intros Hnil. rewrite Hnil in Hcn.
        by apply elem_of_nil in Hcn.
      * intros cn. by rewrite Hin, H1.
    + intros cn Hcn. destruct (proj2 H2 ltac:(by exists cn)) as [? [=]].
Qed.

End path_accumulation.

(** Two transcripts that share their path through the first component;
    the second also reaches a second component. *)
Definition example_trim : gset Exon := {[ mkExon 350 500 ]}.
Definition example_chain : gmap Exon Exon :=
  {[ mkExon 100 200 := mkExon 100 350; mkExon 200 350 := mkExon 100 350;
     mkExon 600 700 := mkExon 600 700 ]}.
Definition example_sub : gmap Exon nat :=
  {[ mkExon 100 350 := 0%nat; mkExon 600 700 := 1%nat ]}.
Definition example_paths : list (Transcript float) :=
  [mkTranscript POS_STRAND [mkExon 100 500] 0.5%float ∅;
   mkTranscript POS_STRAND [mkExon 100 350; mkExon 600 700] 0.25%float ∅].

Lemma populate_partial_paths_spec_witness :
  ∃ graphs',
    @populate_partial_paths float (float_arith eps_1e8) POS_STRAND
      [100; 200; 350; 500; 600; 700] example_trim example_chain example_sub
      [∅; ∅] example_paths = Some graphs' ∧
    ∃ pp', graphs' !! 0%nat = Some pp' ∧
           pp' !! [mkExon 100 350] = Some (0 + 0.5 + 0.25)%float.
Proof.
  destruct (@populate_partial_paths float (float_arith eps_1e8) POS_STRAND
              [100; 200; 350; 500; 600; 700] example_trim example_chain example_sub
              [∅; ∅] example_paths) as [g|] eqn:Hrun; [|by vm_compute in Hrun].
  exists g. split; [done|].
  destruct (@populate_partial_paths_spec float (float_arith eps_1e8) _ _ _ _ _ _ _ _
              Hrun) as (_ & Hacc & _).
  destruct (Hacc 0%nat ∅ eq_refl) as (pp' & Hpp' & Hentry).
  exists pp'. split; [done|]. rewrite Hentry. reflexivity.
Defined.

(** ** The strand resolver *)
Section resolver_run.
Context {score : Type} `{!ScoreArith score} `{!Env}.
Implicit Types (h : list (Transcript score)) (t : Transcript score) (l : nat)
  (nd : gmap node (@NodeData score)) (B : buckets) (bs : list Z)
  (nodes : list node) (s : Strand) (n : node).

(** *** [resolve_strand] and the [defaultdict] *)

(** [node_data[n]] read for its effect on the dictionary. *)
Definition touch nd n : gmap node NodeData := (nd_get nd n).2.

Lemma resolve_strand_touch nodes nd :
  (resolve_strand nodes nd).2 = foldl touch nd nodes.
Proof.
  unfold resolve_strand.
  assert (∀ acc, (foldl resolve_strand_step acc nodes).2 = foldl touch acc.2 nodes)
    as Hfold.
  { induction nodes as [|n nodes IH]; intros acc; [done|].
    cbn [foldl]. rewrite IH. f_equal.
    destruct acc as [[ts rb] nd0]. unfold resolve_strand_step, touch.
    cbn [snd]. by destruct (nd_get nd0 n). }
  specialize (Hfold ((s_zero, s_zero), (0, 0), nd)).
  by destruct (foldl resolve_strand_step _ nodes) as [[??]?].
Qed.

(** X13. [resolve_strand] only reads the node data, but reading goes
    through the [defaultdict]: afterwards every entry that existed is
    unchanged, every node that was asked for and had no entry is bound to
    the default value (no reference flag, zero scores), and no other
    entry exists. *)
Theorem resolve_strand_reads_only nodes nd n :
  (resolve_strand nodes nd).2 !! n =
  match nd !! n with
  | Some d => Some d
  | None => if decide (n ∈ nodes) then Some node_data_func else None
  end.
Proof.
  rewrite resolve_strand_touch. revert nd.
  induction nodes as [|n0 nodes IH]; intros nd.
  - cbn. destruct (nd !! n); [done|]. by rewrite decide_False by apply not_elem_of_nil.
  - cbn [foldl]. rewrite IH. unfold touch, nd_get.
    destruct (nd !! n0) as [d0|] eqn:Hn0; cbn [snd].
    + destruct (nd !! n) as [d|] eqn:Hn; [done|].
      assert (n ≠ n0) by congruence.
      destruct (decide (n ∈ nodes)).
      * rewrite decide_True; [done|by right].
      * rewrite decide_False; [done|]. by intros [?|?]%elem_of_cons.
    + destruct (decide (n = n0)) as [->|Hne].
      * rewrite lookup_insert_eq, Hn0. rewrite decide_True; [done|by left].
      * rewrite lookup_insert_ne by done. destruct (nd !! n); [done|].
        destruct (decide (n ∈ nodes)).
        -- rewrite decide_True; [done|by right].
        -- rewrite decide_False; [done|]. by intros [?|?]%elem_of_cons.
Qed.

(** *** Failure *)

Lemma foldlM_None_at {X Y : Type} (f : Y → X → option Y) (x : X) (l : list X) (b : Y) :
  (∀ b, f b x = None) → x ∈ l → foldlM f b l = None.
Proof.
  intros Hf Hin. revert b. induction l as [|y l IH]; intros b.
  { by apply elem_of_nil in Hin. }
  cbn [foldlM]. apply elem_of_cons in Hin as [<-|Hin]; [by rewrite Hf|].
  destruct (f b y); [by apply IH|done].
Qed.

Lemma classify_step_unstranded_reference bs h l st :
  Sorted Z.le bs → readable_at h l → reference h NO_STRAND l →
  classify_step h bs st l = None.
Proof.
  intros Hbs (t & Hl & Hwf) Href. unfold reference, kind in Href.
  rewrite Hl in Href. cbn [mbind option_bind] in Href.
  destruct (is_ref t) as [r|] eqn:Hr; [|done]. cbn in Href.
  injection Href as -> Hs.
  destruct st as [[[nd B] R] U]. unfold classify_step.
  rewrite Hl. cbn [mbind option_bind]. rewrite Hr. cbn [mbind option_bind].
  rewrite (split_exons_nodes_of bs t Hbs (proj1 Hwf)). cbn [mbind option_bind].
  rewrite Hs. destruct (foldlM _ nd (nodes_of bs t)); [|done].
  cbn [mbind option_bind update2]. done.
Qed.

(** X14. On transcripts that can be read, [partition_transcripts_by_strand]
    fails exactly when some reference transcript of the input has no
    concrete strand: the per-strand reference flags and reference lists
    have no slot for it. *)
Theorem partition_fails_iff h (ts : list nat) :
  Forall (readable_at h) ts →
  partition_transcripts_by_strand h ts = None ↔
  Exists (reference h NO_STRAND) ts.
Proof.
  intros Hread. split.
  - intros Hnone.
    destruct (decide (Exists (reference h NO_STRAND) ts)) as [|Hno]; [done|].
    apply not_Exists_Forall in Hno; [|apply _].
    assert (valid h ts) as Hv.
    { unfold valid. rewrite Forall_forall in Hread, Hno. apply Forall_forall.
      intros l Hl. destruct (Hread l Hl) as (t & Ht & Hwf).
      exists t. split_and!; [done..|]. intros Hr Hs. apply (Hno l Hl).
      unfold reference, kind. rewrite Ht. cbn. rewrite Hr. cbn. by rewrite Hs. }
    destruct (partition_spec h ts Hv) as (? & ? & ? & ? & Hrun & _). congruence.
  - intros (l & Hl & Hbad)%Exists_exists.
    unfold partition_transcripts_by_strand.
    destruct (mapM (λ l, h !! l) ts) as [objs|]; [|done].
    cbn [mbind option_bind].
    rewrite (foldlM_None_at _ l); [done| |done].
    intros st. apply classify_step_unstranded_reference; [| |done].
    + apply find_exon_boundaries_sorted.
    + rewrite Forall_forall in Hread. by apply Hread.
Qed.

(** *** The run of the resolver in detail *)

(** On valid input the resolver returns; the verdict of score
    resolution is taken against the node data [nd1] that the first loop
    leaves, and [d] is what the clusters decide for the rest. *)
Lemma partition_run h (ts : list nat) objs :
  valid h ts → mapM (λ l, h !! l) ts = Some objs →
  ∃ h' B (R : ref_buckets) nd1 B1 (d : nat → Strand),
    foldlM (classify_step h (find_exon_boundaries objs))
           (∅, ([], [], []), ([], []), []) ts
      = Some (nd1, B1, R, filter (unstranded h) ts) ∧
    partition_transcripts_by_strand h ts = Some (h', B, R) ∧
    frame h h' ∧
    (∀ l, ¬ (l ∈ ts ∧ unstranded h l) → h' !! l = h !! l) ∧
    (∀ l, l ∈ ts → unstranded h l →
       strand_at h' l =
       Some (if decide (verdict_of (find_exon_boundaries objs) h nd1 l = NO_STRAND)
             then d l else verdict_of (find_exon_boundaries objs) h nd1 l)) ∧
    (∀ s, lookup3 B s =
          filter (stranded h s) ts
          ++ filter (λ l, verdict_of (find_exon_boundaries objs) h nd1 l = s
                          ∧ s ≠ NO_STRAND)
                    (filter (unstranded h) ts)
          ++ filter (λ l, d l = s)
               (filter (λ l, verdict_of (find_exon_boundaries objs) h nd1 l = NO_STRAND)
                       (filter (unstranded h) ts))).
Proof.
  intros Hv Hobjs. unfold partition_transcripts_by_strand. rewrite Hobjs.
  cbn [mbind option_bind].
  set (bs := find_exon_boundaries objs).
  assert (Sorted Z.le bs) as Hbs by apply find_exon_boundaries_sorted.
  destruct (classify_loop bs h ts ∅ ([], [], []) ([], []) [] Hbs Hv)
    as (nd1 & B1 & R & U & Hcl & HB1 & HU & _).
  rewrite Hcl. cbn [mbind option_bind fst snd app] in *. subst U.
  set (U := filter (unstranded h) ts) in *.
  assert (Forall (readable_at h) U) as HUr.
  { apply Forall_forall. intros l [_ Hl]%list_elem_of_filter.
    destruct (valid_kind h ts l Hv Hl) as (t & r & ? & ? & _). by exists t. }
  destruct (resolve_unstranded_spec bs h nd1 B1 U Hbs HUr)
    as (h2 & nd2 & B2 & N & -> & Hf2 & Hout2 & Hin2 & HB2 & HN).
  cbn [mbind option_bind].
  set (v := verdict_of bs h nd1) in *.
  set (U2 := filter (λ l, v l = NO_STRAND) U) in *.
  destruct (resolve_clusters_spec bs h2 nd2 B2 U2 N Hbs)
    as (h3 & B3 & d & -> & Hf3 & Hout3 & Hin3 & HB3).
  { apply Forall_forall. intros l [_ Hl]%list_elem_of_filter.
    rewrite Forall_forall in HUr. by eapply readable_at_frame; [|apply HUr]. }
  { intros l [Hvl Hl]%list_elem_of_filter. by rewrite (Hin2 l Hl), Hvl. }
  { intros l n [Hvl Hl]%list_elem_of_filter Hn.
    rewrite (nodes_at_frame bs h h2 l Hf2) in Hn. by eapply HN. }
  cbn [mbind option_bind].
  exists h3, B3, R, nd1, B1, d.
  split_and!; [done|done|by eapply frame_trans| | |].
  - intros l Hl. rewrite Hout3, Hout2; [done|..].
    + intros [??]%list_elem_of_filter. by apply Hl.
    + intros [_ [??]%list_elem_of_filter]%list_elem_of_filter. by apply Hl.
  - intros l Hl Hun. assert (l ∈ U) as HlU by (by apply list_elem_of_filter).
    case_decide as Hvl.
    + apply Hin3. by apply list_elem_of_filter.
    + unfold strand_at. rewrite Hout3; [by apply Hin2|].
      by intros [? _]%list_elem_of_filter.
  - intros s. rewrite HB3, HB2, HB1.
    assert (lookup3 (([], [], []) : buckets) s = []) as -> by (by destruct s).
    cbn [app]. by rewrite <-(assoc_L (++)).
Qed.

Lemma valid_objs h (ts : list nat) :
  valid h ts → ∃ objs, mapM (λ l, h !! l) ts = Some objs.
Proof.
  intros Hv. apply mapM_is_Some. eapply Forall_impl; [exact Hv|].
  intros l (t & Ht & _). cbn. rewrite Ht. by eexists.
Qed.

(** X15. The reference lists: on valid input the two lists that
    [partition_transcripts_by_strand] returns beside the buckets hold
    the reference transcripts of the positive and of the negative strand,
    in input order, and no bucket holds a reference transcript. *)
Theorem partition_reference_lists h (ts : list nat) :
  valid h ts →
  ∃ h' B (R : ref_buckets),
    partition_transcripts_by_strand h ts = Some (h', B, R) ∧
    R.1 = filter (reference h POS_STRAND) ts ∧
    R.2 = filter (reference h NEG_STRAND) ts ∧
    ∀ s l, l ∈ lookup3 B s → nonref h l.
Proof.
  intros Hv.
  destruct (partition_spec h ts Hv) as (h' & B & R & c & Hrun & _ & _ & _ & HB & HR1 & HR2).
  exists h', B, R. split_and!; [done..|].
  intros s l. rewrite HB, elem_of_app, !list_elem_of_filter. unfold nonref.
  intros [[[Hk _] _]|[_ [Hk _]]]; unfold unstranded in *; by rewrite Hk.
Qed.

(** X16. Transcripts that come with a strand are left alone: on valid
    input the resolver changes no transcript other than the unstranded
    non-reference transcripts of the input; each bucket starts with the
    transcripts that came with its strand, in input order (the
    transcripts that were resolved follow); the third bucket lists
    transcripts that came unstranded, in input order; and when no
    transcript comes unstranded, nothing is changed at all and the
    buckets are the input sorted by strand. *)
Theorem partition_keeps_stranded h (ts : list nat) :
  valid h ts →
  ∃ h' B (R : ref_buckets),
    partition_transcripts_by_strand h ts = Some (h', B, R) ∧
    (∀ l, ¬ (l ∈ ts ∧ unstranded h l) → h' !! l = h !! l) ∧
    (∀ s, filter (stranded h s) ts `prefix_of` lookup3 B s) ∧
    lookup3 B NO_STRAND `sublist_of` filter (unstranded h) ts ∧
    (filter (unstranded h) ts = [] →
     h' = h ∧ ∀ s, lookup3 B s = filter (stranded h s) ts).
Proof.
  intros Hv. destruct (valid_objs h ts Hv) as [objs Hobjs].
  destruct (partition_run h ts objs Hv Hobjs)
    as (h' & B & R & nd1 & B1 & d & _ & Hrun & Hf & Hout & _ & HB).
  exists h', B, R. split_and!; [done|done| | |].
  - intros s. rewrite HB. by eexists.
  - rewrite HB.
    rewrite (filter_Forall_nil (stranded h NO_STRAND))
      by (apply Forall_forall; by intros ? _ [_ ?]).
    rewrite (filter_Forall_nil (λ l, _ ∧ NO_STRAND ≠ NO_STRAND))
      by (apply Forall_forall; by intros ? _ [_ ?]).
    cbn [app]. etrans; apply sublist_filter.
  - intros HU. split.
    + apply list_eq. intros l. apply Hout. intros [Hl Hun].
      assert (l ∈ filter (unstranded h) ts) as Hin by (by apply list_elem_of_filter).
      rewrite HU in Hin. by apply elem_of_nil in Hin.
    + intros s. rewrite HB, HU. cbn. by rewrite app_nil_r.
Qed.

(** *** The evidence that score resolution sees *)

(** The scores that the transcripts that come with strand [s] add to node
    [n], in input order (a transcript adds its score once for each
    occurrence of the node in its node sequence), and whether a
    reference transcript of strand [s] has the node. *)
Definition votes bs h s n (ls : list nat) : list score :=
  foldr (λ l acc,
           match h !! l with
           | Some t => if decide (stranded h s l)
                       then replicate (count_of n (nodes_of bs t)) (score_ t)
                       else []
           | None => []
           end ++ acc) [] ls.

Definition flagged bs h s n (ls : list nat) : bool :=
  bool_decide (Exists (λ l, reference h s l ∧ n ∈ nodes_at bs h l) ls).

(** What the first loop adds to the data [d0] of a node. *)
Definition gather bs h (ls : list nat) n (d0 : @NodeData score) : NodeData :=
  mkNodeData
    ((ref_strands d0).1 || flagged bs h POS_STRAND n ls,
     (ref_strands d0).2 || flagged bs h NEG_STRAND n ls)
    (foldl s_add (scores d0).1.1 (votes bs h POS_STRAND n ls),
     foldl s_add (scores d0).1.2 (votes bs h NEG_STRAND n ls),
     (scores d0).2).

(** The evidence on a node: the reference flags and the score totals of
    the two strands, from the transcripts that come with a strand. *)
Definition evidence bs h (ls : list nat) n : NodeData :=
  gather bs h ls n node_data_func.

Lemma flagged_cons bs h s n l (ls : list nat) :
  flagged bs h s n (l :: ls) =
  bool_decide (reference h s l ∧ n ∈ nodes_at bs h l) || flagged bs h s n ls.
Proof.
  unfold flagged.
  destruct (decide (reference h s l ∧ n ∈ nodes_at bs h l)) as [Hl|Hl].
  - rewrite (bool_decide_eq_true_2 (_ ∧ _)) by done. cbn [orb].
    apply bool_decide_eq_true_2. by apply Exists_cons_hd.
  - rewrite (bool_decide_eq_false_2 (_ ∧ _)) by done. cbn [orb].
    apply bool_decide_ext. rewrite Exists_cons. tauto.
Qed.

Lemma flagged_nil bs h s n : flagged bs h s n [] = false.
Proof. unfold flagged. apply bool_decide_eq_false_2. by intros ?%Exists_nil. Qed.

Lemma gather_nil bs h n d0 : gather bs h [] n d0 = d0.
Proof.
  unfold gather. rewrite !flagged_nil. cbn. rewrite !orb_false_r.
  by destruct d0 as [[??] [[??]?]].
Qed.

Lemma votes_cons bs h s n l (ls : list nat) :
  votes bs h s n (l :: ls) = votes bs h s n [l] ++ votes bs h s n ls.
Proof. unfold votes. cbn [foldr]. by rewrite app_nil_r. Qed.

Lemma gather_cons bs h l (ls : list nat) n d0 :
  gather bs h (l :: ls) n d0 = gather bs h ls n (gather bs h [l] n d0).
Proof.
  unfold gather. cbn [ref_strands scores fst snd].
  rewrite !(votes_cons _ _ _ _ l ls), !(flagged_cons _ _ _ _ l ls).
  rewrite !(flagged_cons _ _ _ _ l []), !flagged_nil, !foldl_app.
  by rewrite !orb_false_r, !orb_assoc.
Qed.

(** Setting the reference flag of a strand. *)
Definition set_pos (flags : bool * bool) : bool * bool := (true, flags.2).
Definition set_neg (flags : bool * bool) : bool * bool := (flags.1, true).

(** A reference flag, set once or more. *)
Lemma iter_set_flag (F : bool * bool → bool * bool) (k : nat) (d0 : @NodeData score) :
  (∀ x, F (F x) = F x) →
  Nat.iter k (λ d, mkNodeData (F (ref_strands d)) (scores d)) d0
  = if decide (0 < k)%nat then mkNodeData (F (ref_strands d0)) (scores d0) else d0.
Proof.
  intros HF. induction k as [|k IH]; [done|].
  rewrite Nat.iter_succ, IH. rewrite (decide_True (P := (0 < S k)%nat)) by lia.
  case_decide; [|done]. cbn [ref_strands scores]. by rewrite HF.
Qed.

Lemma label_nodes_fold (flag_strand : Strand) (F : bool * bool → bool * bool)
    nodes nd :
  (∀ flags, update2 (λ _, true) flags flag_strand = Some (F flags)) →
  foldlM (λ node_data n,
            let '(d, node_data) := nd_get node_data n in
            flags ← update2 (λ _, true) (ref_strands d) flag_strand;
            Some (<[n := mkNodeData flags (scores d)]> node_data))
         nd nodes
  = Some (foldl (nd_update (λ d, mkNodeData (F (ref_strands d)) (scores d))) nd nodes).
Proof.
  intros HF. revert nd. induction nodes as [|n nodes IH]; intros nd; [done|].
  cbn [foldlM foldl]. unfold nd_update at 2.
  destruct (nd_get nd n) as [d nd1]. rewrite HF. cbn [mbind option_bind].
  apply IH.
Qed.

(** What one transcript adds to the data of a node, by its kind. *)
Lemma gather_single bs h l t r n d0 :
  h !! l = Some t → is_ref t = Some r →
  gather bs h [l] n d0 =
  if r then
    match strand t with
    | POS_STRAND =>
        mkNodeData ((ref_strands d0).1 || bool_decide (n ∈ nodes_of bs t),
                    (ref_strands d0).2) (scores d0)
    | NEG_STRAND =>
        mkNodeData ((ref_strands d0).1,
                    (ref_strands d0).2 || bool_decide (n ∈ nodes_of bs t)) (scores d0)
    | NO_STRAND => d0
    end
  else
    mkNodeData (ref_strands d0)
      (match strand t with
       | NO_STRAND => scores d0
       | s0 => update3 (λ x, foldl s_add x
                               (replicate (count_of n (nodes_of bs t)) (score_ t)))
                       (scores d0) s0
       end).
Proof.
  intros Hl Hr.
  assert (kind h l = Some (r, strand t)) as Hkind.
  { unfold kind. rewrite Hl. cbn. by rewrite Hr. }
  assert (∀ s, flagged bs h s n [l]
               = bool_decide (r = true ∧ strand t = s) && bool_decide (n ∈ nodes_of bs t))
    as Hflag.
  { intros s. unfold flagged, nodes_at, reference. rewrite <-bool_decide_and.
    apply bool_decide_ext. rewrite Exists_cons, Exists_nil, Hl, Hkind.
    split.
    - intros [[[= ??] ?]|[]]. done.
    - intros [[-> <-] ?]. by left. }
  assert (∀ s, votes bs h s n [l]
               = if decide (r = false ∧ strand t = s ∧ s ≠ NO_STRAND)
                 then replicate (count_of n (nodes_of bs t)) (score_ t) else [])
    as Hvotes.
  { intros s. unfold votes. cbn [foldr]. rewrite Hl, app_nil_r.
    assert (stranded h s l ↔ r = false ∧ strand t = s ∧ s ≠ NO_STRAND) as Hst.
    { unfold stranded. rewrite Hkind. split.
      - by intros [[= -> <-] ?].
      - by intros (-> & <- & ?). }
    destruct (decide (stranded h s l)) as [Hs|Hs],
             (decide (r = false ∧ strand t = s ∧ s ≠ NO_STRAND)) as [Hs'|Hs'];
      try done; exfalso.
    - apply Hs'. by apply Hst.
    - apply Hs. by apply Hst. }
  unfold gather. rewrite !Hflag, !Hvotes.
  destruct d0 as [[f1 f2] [[s1 s2] s3]]. cbn [ref_strands scores fst snd].
  destruct r, (strand t) eqn:Hs; cbn [update3 fst snd];
    repeat (first [rewrite decide_True by done
                  |rewrite decide_False by (intros (? & ? & ?); congruence)
                  |rewrite bool_decide_eq_true_2 by done
                  |rewrite bool_decide_eq_false_2 by (intros [??]; congruence)]);
    cbn [foldl andb]; by rewrite ?orb_false_r.
Qed.

(** One step of the first loop, read at a node. *)
Lemma classify_step_gather bs h l nd B (R : ref_buckets) (U : list nat)
    nd' B' (R' : ref_buckets) (U' : list nat) n :
  Sorted Z.le bs → readable_at h l →
  classify_step h bs (nd, B, R, U) l = Some (nd', B', R', U') →
  nd_val nd' n = gather bs h [l] n (nd_val nd n).
Proof.
  intros Hbs (t & Hl & Hwf). pose proof Hwf as (Hint & [r Hr] & Hid).
  rewrite (gather_single bs h l t r n _ Hl Hr).
  unfold classify_step. rewrite Hl. cbn [mbind option_bind]. rewrite Hr.
  cbn [mbind option_bind]. rewrite (split_exons_nodes_of bs t Hbs Hint).
  cbn [mbind option_bind].
  destruct r.
  - (* a reference transcript labels its nodes *)
    destruct (strand t) eqn:Hs.
    + rewrite (label_nodes_fold POS_STRAND set_pos) by done.
      cbn [mbind option_bind update2]. intros [= <- _ _ _].
      rewrite nd_update_fold_val, iter_set_flag by done. unfold set_pos.
      destruct (nd_val nd n) as [[f1 f2] [[s1 s2] s3]]. cbn [ref_strands scores fst snd].
      destruct (decide (0 < count_of n (nodes_of bs t))%nat) as [Hc|Hc].
      * rewrite bool_decide_eq_true_2 by (by apply count_of_pos). by rewrite orb_true_r.
      * rewrite bool_decide_eq_false_2 by (by rewrite <-count_of_pos).
        by rewrite orb_false_r.
    + rewrite (label_nodes_fold NEG_STRAND set_neg) by done.
      cbn [mbind option_bind update2]. intros [= <- _ _ _].
      rewrite nd_update_fold_val, iter_set_flag by done. unfold set_neg.
      destruct (nd_val nd n) as [[f1 f2] [[s1 s2] s3]]. cbn [ref_strands scores fst snd].
      destruct (decide (0 < count_of n (nodes_of bs t))%nat) as [Hc|Hc].
      * rewrite bool_decide_eq_true_2 by (by apply count_of_pos). by rewrite orb_true_r.
      * rewrite bool_decide_eq_false_2 by (by rewrite <-count_of_pos).
        by rewrite orb_false_r.
    + destruct (foldlM _ nd (nodes_of bs t)); [|done]. done.
  - destruct (decide (strand t ≠ NO_STRAND)) as [Hne|Heq].
    + (* a stranded transcript votes with its score *)
      rewrite add_transcript_unfold, Hl. cbn [mbind option_bind].
      destruct Hid as [t_id ->]. cbn [mbind option_bind]. intros [= <- _ _ _].
      rewrite nd_update_fold_val, iter_add_score.
      by destruct (strand t).
    + (* an unstranded transcript waits *)
      apply dec_stable in Heq. intros [= <- _ _ _]. rewrite Heq.
      by destruct (nd_val nd n).
Qed.

Lemma classify_loop_gather bs h (ts : list nat) nd B (R : ref_buckets) (U : list nat)
    nd' B' (R' : ref_buckets) (U' : list nat) n :
  Sorted Z.le bs → Forall (readable_at h) ts →
  foldlM (classify_step h bs) (nd, B, R, U) ts = Some (nd', B', R', U') →
  nd_val nd' n = gather bs h ts n (nd_val nd n).
Proof.
  intros Hbs. revert nd B R U.
  induction ts as [|l ts IH]; intros nd B R U Hread; cbn [foldlM].
  - intros [= <- _ _ _]. by rewrite gather_nil.
  - apply Forall_cons in Hread as [Hl Hread].
    destruct (classify_step h bs (nd, B, R, U) l) as [[[[nd1 B1] R1] U1]|] eqn:Hstep;
      [|done].
    cbn [mbind option_bind]. intros Hrest.
    rewrite (IH _ _ _ _ Hread Hrest), gather_cons.
    by rewrite (classify_step_gather _ _ _ _ _ _ _ _ _ _ _ n Hbs Hl Hstep).
Qed.

(** X17. Score resolution votes with the transcripts that came with a
    strand: on valid input, an unstranded transcript for which the vote
    of [resolve_strand] over its nodes is conclusive, the vote being
    taken on the evidence of the input (for each node and strand, the
    scores of the transcripts that came with that strand, added up in
    input order, and the flags of the reference transcripts), ends with
    the strand voted and in the bucket of that strand. Transcripts that
    are resolved in the same batch do not vote. *)
Theorem partition_score_resolution h (ts : list nat) objs l t :
  valid h ts → mapM (λ l, h !! l) ts = Some objs →
  l ∈ ts → h !! l = Some t → unstranded h l →
  resolve_pure (nodes_of (find_exon_boundaries objs) t)
               (evidence (find_exon_boundaries objs) h ts) ≠ NO_STRAND →
  ∃ h' B (R : ref_buckets),
    partition_transcripts_by_strand h ts = Some (h', B, R) ∧
    strand_at h' l =
      Some (resolve_pure (nodes_of (find_exon_boundaries objs) t)
                         (evidence (find_exon_boundaries objs) h ts)) ∧
    l ∈ lookup3 B (resolve_pure (nodes_of (find_exon_boundaries objs) t)
                                (evidence (find_exon_boundaries objs) h ts)).
Proof.
  intros Hv Hobjs Hl Ht Hun.
  set (bs := find_exon_boundaries objs).
  assert (Sorted Z.le bs) as Hbs by apply find_exon_boundaries_sorted.
  destruct (partition_run h ts objs Hv Hobjs)
    as (h' & B & R & nd1 & B1 & d & Hcl & Hrun & _ & _ & Hin & HB).
  fold bs in Hcl, Hin, HB.
  assert (Forall (readable_at h) ts) as Hread.
  { eapply Forall_impl; [exact Hv|]. intros l' (t' & ? & ? & _). by exists t'. }
  assert (verdict_of bs h nd1 l = resolve_pure (nodes_of bs t) (evidence bs h ts))
    as Hverdict.
  { unfold verdict_of, score_verdict. rewrite Ht. cbn [mbind option_bind].
    pose proof Hread as Hread'. rewrite Forall_forall in Hread'.
    destruct (Hread' l Hl) as (t' & Ht' & Hwf).
    assert (t' = t) as -> by congruence.
    rewrite (split_exons_nodes_of bs t Hbs (proj1 Hwf)). cbn [mbind option_bind fst snd].
    rewrite (proj1 (resolve_strand_pure _ _)). unfold resolve_pure.
    assert (∀ n, nd_val nd1 n = evidence bs h ts n) as Hev.
    { intros n. by rewrite (classify_loop_gather _ _ _ _ _ _ _ _ _ _ _ n Hbs Hread Hcl). }
    by rewrite !(total_score_ext _ _ _ _ Hev), !(ref_length_ext _ _ _ _ Hev). }
  intros Hne. exists h', B, R. split_and!; [done| |].
  - rewrite (Hin l Hl Hun), Hverdict. by rewrite decide_False.
  - rewrite HB, !elem_of_app, !list_elem_of_filter. right. left.
    rewrite Hverdict. done.
Qed.

End resolver_run.

Lemma partition_fails_iff_witness :
  let h := [example_transcript NO_STRAND [mkExon 10 20] 5%float "ref1" true] in
  Forall (@readable_at float example_env h) [0%nat] ∧
  @partition_transcripts_by_strand float (float_arith eps_1e8) example_env h [0%nat]
    = None.
Proof.
  cbv zeta.
  assert (Forall (@readable_at float example_env
            [example_transcript NO_STRAND [mkExon 10 20] 5%float "ref1" true]) [0%nat])
    as Hread.
  { repeat constructor. eexists. split; [reflexivity|].
    split_and!; [repeat constructor; cbn; lia|by eexists; vm_compute..]. }
  split; [exact Hread|].
  apply (proj2 (@partition_fails_iff float (float_arith eps_1e8) example_env _ _ Hread)).
  apply Exists_cons_hd. by vm_compute.
Defined.

Lemma partition_reference_lists_witness :
  @valid float example_env example_locus [0; 1; 2; 3; 4]%nat ∧
  ∃ h' B (R : ref_buckets),
    @partition_transcripts_by_strand float (float_arith eps_1e8) example_env
      example_locus [0; 1; 2; 3; 4]%nat = Some (h', B, R) ∧
    R = ([], [0%nat]).
Proof.
  split; [exact example_locus_valid|].
  destruct (@partition_reference_lists float (float_arith eps_1e8) example_env
              example_locus [0; 1; 2; 3; 4]%nat example_locus_valid)
    as (h' & B & [R1 R2] & Hrun & HR1 & HR2 & _).
  exists h', B, (R1, R2). split; [done|]. cbn [fst snd] in *. subst R1 R2.
  by vm_compute.
Defined.

Lemma partition_keeps_stranded_witness :
  @valid float example_env example_locus [0; 1; 2; 3; 4]%nat ∧
  ∃ h' B (R : ref_buckets),
    @partition_transcripts_by_strand float (float_arith eps_1e8) example_env
      example_locus [0; 1; 2; 3; 4]%nat = Some (h', B, R) ∧
    h' !! 1%nat = example_locus !! 1%nat ∧
    [1%nat] `prefix_of` lookup3 B POS_STRAND.
Proof.
  split; [exact example_locus_valid|].
  destruct (@partition_keeps_stranded float (float_arith eps_1e8) example_env
              example_locus [0; 1; 2; 3; 4]%nat example_locus_valid)
    as (h' & B & R & Hrun & Hout & Hpre & _).
  exists h', B, R. split_and!; [done| |].
  - apply Hout. intros [_ Hun]. by vm_compute in Hun.
  - apply (Hpre POS_STRAND).
Defined.

(** The voting example: the third transcript takes the strand of the
    first, whose score prevails. *)
Definition voting_locus : list (Transcript float) :=
  [example_transcript POS_STRAND [mkExon 10 20] 5%float "a" false;
   example_transcript NEG_STRAND [mkExon 10 20] 1%float "b" false;
   example_transcript NO_STRAND [mkExon 10 20] 2%float "c" false].

Lemma partition_score_resolution_witness :
  ∃ h' B (R : ref_buckets),
    @partition_transcripts_by_strand float (float_arith eps_1e8) example_env
      voting_locus [0; 1; 2]%nat = Some (h', B, R) ∧
    strand_at h' 2%nat = Some POS_STRAND ∧ 2%nat ∈ lookup3 B POS_STRAND.
Proof.
  apply (@partition_score_resolution float (float_arith eps_1e8) example_env
           voting_locus [0; 1; 2]%nat voting_locus 2%nat
           (example_transcript NO_STRAND [mkExon 10 20] 2%float "c" false)).
  - repeat constructor; (eexists; split; [reflexivity|]);
      (split; [split_and!; [repeat constructor; cbn; lia
                           |by eexists; vm_compute
                           |by eexists; vm_compute]|]);
      try (intros _; by vm_compute); by vm_compute.
  - reflexivity.
  - apply (bool_decide_unpack _). reflexivity.
  - reflexivity.
  - by vm_compute.
  - by vm_compute.
Defined.

(** ** [Transfrag]: exons and introns *)
Section transfrag_methods.
Import Transfrag.
Context {strand_t expr_t : Type}.
Implicit Types (t : Transfrag.Transfrag strand_t expr_t) (es : list (Z * Z)).

(** The gaps between consecutive exons. *)
Definition introns_of es : list (Z * Z) :=
  zip_with (λ e1 e2 : Z * Z, (e1.2, e2.1)) es (tail es).

Lemma introns_fold (rest : list (Z * Z)) (e1 : Z * Z) (out : list (Z * Z)) :
  (foldl (λ (st : (Z * Z) * list (Z * Z)) e2, (e2, st.2 ++ [((st.1).2, e2.1)]))
         (e1, out) rest).2
  = out ++ introns_of (e1 :: rest).
Proof.
  revert e1 out. induction rest as [|e2 rest IH]; intros e1 out.
  - cbn. by rewrite app_nil_r.
  - cbn [foldl fst snd]. rewrite IH. by rewrite <-(assoc_L (++)).
Qed.

Lemma iterintrons_cons t e1 rest :
  exons t = e1 :: rest → iterintrons t = Some (introns_of (e1 :: rest)).
Proof.
  intros Hes. unfold iterintrons. rewrite Hes.
  change (Py.index (e1 :: rest) 0) with (Some e1). cbn [mbind option_bind].
  pose proof (index_loop_fold
                (λ (st : (Z * Z) * list (Z * Z)) e2, (e2, st.2 ++ [((st.1).2, e2.1)]))
                (e1 :: rest) 1 (e1, [])) as Hloop.
  cbn [drop] in Hloop. rewrite drop_0 in Hloop.
  change 1 with (Z.of_nat 1). rewrite Hloop by (cbn [length]; lia).
  cbn [mbind option_bind]. by rewrite introns_fold.
Qed.

(** X18. [iterintrons]: a transfrag with [n] exons, [n] at least one,
    yields [n - 1] introns, the [j]-th running from the end of exon [j]
    to the start of exon [j + 1]; on a transfrag without exons the
    generator raises [IndexError]. *)
Theorem iterintrons_spec t :
  match exons t with
  | [] => iterintrons t = None
  | _ :: _ =>
      ∃ introns, iterintrons t = Some introns ∧
        S (length introns) = length (exons t) ∧
        ∀ j e1 e2, exons t !! j = Some e1 → exons t !! S j = Some e2 →
                   introns !! j = Some (e1.2, e2.1)
  end.
Proof.
  destruct (exons t) as [|e1 rest] eqn:Hes.
  - unfold iterintrons. by rewrite Hes.
  - exists (introns_of (e1 :: rest)). split; [by apply iterintrons_cons|].
    unfold introns_of. split.
    + rewrite length_zip_with. cbn [length tail]. lia.
    + intros j a b Ha Hb. rewrite lookup_zip_with, Ha. cbn [mbind option_bind].
      rewrite lookup_tail, Hb. done.
Qed.

(** The unit test of the repository. *)
Example test_introns :
  iterintrons (mkTransfrag "chrTest" POS_STRAND "t" None 0%float false
                 [(0, 10); (20, 30); (40, 50)])
  = Some [(10, 20); (30, 40)].
Proof. reflexivity. Qed.

Lemma index_last {A} (l : list A) : Py.index l (-1) = last l.
Proof.
  unfold Py.index. rewrite decide_False by lia.
  destruct l as [|x l _] using rev_ind; [done|].
  rewrite length_app. cbn [length]. rewrite decide_True by lia.
  rewrite last_snoc.
  replace (Z.to_nat (Z.of_nat (length l + 1) + -1)) with (length l) by lia.
  by rewrite list_lookup_middle.
Qed.

Lemma span_sum (rest : list (Z * Z)) (e1 : Z * Z) (a : Z) :
  foldl (λ acc (e : Z * Z), acc + (e.2 - e.1)) a (e1 :: rest)
  + total_length (introns_of (e1 :: rest))
  = a + (default e1 (last rest)).2 - e1.1.
Proof.
  revert e1 a. induction rest as [|e2 rest IH]; intros e1 a.
  - cbn. lia.
  - change (introns_of (e1 :: e2 :: rest))
      with ((e1.2, e2.1) :: introns_of (e2 :: rest)).
    cbn [foldl]. specialize (IH e2 (a + (e1.2 - e1.1))). cbn [foldl] in IH.
    unfold total_length in *. cbn [foldr fst snd].
    replace (default e1 (last (e2 :: rest))) with (default e2 (last rest)).
    + lia.
    + destruct rest as [|e3 rest]; [done|]. rewrite last_cons_cons.
      by destruct (last (e3 :: rest)) eqn:Hl; [|apply last_None in Hl].
Qed.

(** X19. The members [start], [end], [length] and [iterintrons] of a
    transfrag agree: on a transfrag with exons, the lengths of the exons
    and of the introns add up to [end - start]; on a transfrag without
    exons [start] and [end] raise [IndexError] (and [length] is zero). *)
Theorem transfrag_span t :
  match exons t with
  | [] => t_start t = None ∧ t_end t = None ∧ t_length t = 0
  | _ :: _ =>
      ∃ s e introns, t_start t = Some s ∧ t_end t = Some e ∧
        iterintrons t = Some introns ∧
        t_length t + total_length introns = e - s
  end.
Proof.
  destruct (exons t) as [|e1 rest] eqn:Hes.
  - unfold t_start, t_end, t_length. by rewrite Hes.
  - exists e1.1, (default e1 (last rest)).2, (introns_of (e1 :: rest)).
    split_and!.
    + unfold t_start. by rewrite Hes.
    + unfold t_end. rewrite Hes, index_last.
      destruct rest as [|e2 rest]; [done|]. rewrite last_cons_cons.
      by destruct (last (e2 :: rest)) eqn:Hl; [|apply last_None in Hl].
    + by apply iterintrons_cons.
    + unfold t_length. rewrite Hes, span_sum. lia.
Qed.

End transfrag_methods.

(** ** [Transfrag.parse_gtf]: what is returned and what is raised *)
Section parse_more.
Import Transfrag.
Context {strand_t expr_t : Type} `{!GTFEnv strand_t expr_t}.
Implicit Types (f : Feature) (fs pre post : list Feature)
  (d : list (string * Transfrag.Transfrag strand_t expr_t)) (ir : bool).

(** *** Single lines *)

Lemma fold_result_app {X Y : Type} (g : Y → X → result Y) (b : Y) (l1 l2 : list X) :
  fold_result g b (l1 ++ l2) = bind (fold_result g b l1) (λ b', fold_result g b' l2).
Proof.
  revert b. induction l1 as [|x l1 IH]; intros b; [done|].
  cbn [app fold_result]. destruct (g b x); cbn [bind]; [apply IH|done].
Qed.

Lemma omap_all_None {X Y : Type} (g : X → option Y) (l : list X) :
  Forall (λ x, g x = None) l → omap g l = [].
Proof. induction 1 as [|x l Hx _ IH]; [done|]. cbn. by rewrite Hx. Qed.

(** X20. A feature line without the transcript identifier attribute
    makes [parse_gtf] raise [KeyError], whatever its feature type and
    whether or not it is a reference feature that [ignore_ref] would
    skip: the identifier is looked up before anything else is decided. *)
Theorem parse_gtf_missing_id ir (pre post : list string) (line : string) f d :
  parse_gtf pre ir = Ok d → from_str line = Some f → feature_id f = None →
  parse_gtf (pre ++ line :: post) ir = Raise KeyError.
Proof.
  unfold parse_gtf, feature_id. intros Hpre Hf Hid.
  rewrite fold_result_app, Hpre. cbn [bind fold_result].
  unfold parse_line. rewrite Hf. cbn [of_option bind]. by rewrite Hid.
Qed.

(** Lines that the loop can examine: the line parses, the identifier is
    present and the reference attribute is an integer. *)
Definition scannable (line : string) : Prop :=
  ∃ f, from_str line = Some f ∧ is_Some (feature_id f) ∧ ∃ r, ref_flag f = Ok r.

(** Whether a line is a reference feature. *)
Definition line_is_ref (line : string) : bool :=
  match from_str line with
  | Some f => match ref_flag f with Ok r => r | Raise _ => false end
  | None => false
  end.

(** Whether a line is a transcript or an exon feature. *)
Definition line_is_used (line : string) : bool :=
  match from_str line with
  | Some f => bool_decide (feature f = "transcript"%string ∨ feature f = "exon"%string)
  | None => true
  end.

(** X21. Ignoring the reference features is the same as not having them:
    on lines that can be examined, [parse_gtf] with [ignore_ref] set
    returns (or raises) what [parse_gtf] without [ignore_ref] returns on
    the lines that are not reference features. *)
Theorem parse_gtf_ignore_ref (lines : list string) :
  Forall scannable lines →
  parse_gtf lines true = parse_gtf (filter (λ l, line_is_ref l = false) lines) false.
Proof.
  unfold parse_gtf. generalize ([] : list (string * Transfrag.Transfrag strand_t expr_t)).
  induction lines as [|line lines IH]; intros d Hs; [done|].
  apply Forall_cons in Hs as [(f & Hf & [t_id Hid] & [r Hr]) Hs].
  assert (line_is_ref line = r) as Href by (unfold line_is_ref; by rewrite Hf, Hr).
  rewrite filter_cons. unfold feature_id in Hid.
  assert (∀ ir', parse_line ir' d line =
    if r && ir' then Ok d
    else if decide (feature f = "transcript"%string) then
      if decide (t_id ∈ d.*1) then Raise (GTFError (duplicate_msg t_id))
      else bind (from_gtf f) (λ t, Ok (d ++ [(t_id, t)]))
    else if decide (feature f = "exon"%string) then
      if decide (t_id ∉ d.*1) then Raise (GTFError (missing_msg t_id))
      else Ok (append_exon t_id (start f, end_ f) d)
    else Ok d) as Hline.
  { intros ir'. unfold parse_line. rewrite Hf. cbn [of_option bind]. rewrite Hid.
    cbn [of_option bind]. by rewrite Hr. }
  destruct r.
  - rewrite decide_False by (by rewrite Href). cbn [fold_result].
    rewrite (Hline true). cbn [andb bind]. by apply IH.
  - rewrite decide_True by done. cbn [fold_result].
    rewrite (Hline true), (Hline false). cbn [andb].
    destruct (if decide (feature f = "transcript"%string) then _ else _); cbn [bind];
      [by apply IH|done].
Qed.

(** X22. Features other than transcripts and exons are ignored: on lines
    that can be examined, [parse_gtf] returns (or raises) what it returns
    on the transcript and exon features alone. *)
Theorem parse_gtf_other_features ir (lines : list string) :
  Forall scannable lines →
  parse_gtf lines ir = parse_gtf (filter (λ l, line_is_used l = true) lines) ir.
Proof.
  unfold parse_gtf. generalize ([] : list (string * Transfrag.Transfrag strand_t expr_t)).
  induction lines as [|line lines IH]; intros d Hs; [done|].
  apply Forall_cons in Hs as [(f & Hf & [t_id Hid] & [r Hr]) Hs].
  assert (line_is_used line
          = bool_decide (feature f = "transcript"%string ∨ feature f = "exon"%string))
    as Hused by (unfold line_is_used; by rewrite Hf).
  rewrite filter_cons. unfold feature_id in Hid.
  destruct (decide (feature f = "transcript"%string ∨ feature f = "exon"%string))
    as [Hyes|Hother].
  - rewrite decide_True by (by rewrite Hused, bool_decide_eq_true_2).
    cbn [fold_result]. destruct (parse_line ir d line); cbn [bind]; [by apply IH|done].
  - rewrite decide_False by (by rewrite Hused, bool_decide_eq_false_2).
    cbn [fold_result].
    assert (parse_line ir d line = Ok d) as ->.
    { unfold parse_line. rewrite Hf. cbn [of_option bind]. rewrite Hid.
      cbn [of_option bind]. rewrite Hr. cbn [bind].
      destruct (r && ir); [done|].
      rewrite decide_False by tauto. by rewrite decide_False by tauto. }
    cbn [bind]. by apply IH.
Qed.

(** *** The dictionary that is returned *)

(** The exons that the features that are read give to an identifier, in
    the order of the lines. *)
Definition exons_of ir fs (t_id : string) : list (Z * Z) :=
  omap (λ f, if is_read ir f && bool_decide (feature f = "exon"%string)
                && bool_decide (feature_id f = Some t_id)
             then Some (start f, end_ f) else None) fs.

(** An entry of the dictionary: the transfrag that [from_gtf] makes of a
    transcript feature that is read and carries the key, with the exons
    of the key. *)
Definition entry_of ir fs (kv : string * Transfrag.Transfrag strand_t expr_t) : Prop :=
  ∃ f t0, f ∈ fs ∧ is_read ir f = true ∧ feature f = "transcript"%string ∧
    feature_id f = Some kv.1 ∧ from_gtf f = Ok t0 ∧
    kv.2 = mkTransfrag (chrom t0) (t_strand t0) (_id t0) (sample_id t0) (expr t0)
                       (is_ref t0) (exons_of ir fs kv.1).

(** The invariant of the loop. *)
Definition parse_inv ir pre d : Prop :=
  d.*1 = declared ir pre ∧ NoDup d.*1 ∧ Forall (entry_of ir pre) d ∧
  ∀ f t_id, f ∈ pre → is_read ir f = true → feature f = "exon"%string →
            feature_id f = Some t_id → t_id ∈ d.*1.

Lemma from_gtf_fields f t :
  from_gtf f = Ok t →
  chrom t = seqid f ∧ feature_id f = Some (_id t) ∧
  sample_id t = Transfrag.attrs f !! Attr_SAMPLE_ID ∧
  ref_flag f = Ok (is_ref t) ∧ exons t = [].
Proof.
  unfold from_gtf, feature_id.
  destruct (Strand_from_gtf (strand f)); [|done]. cbn [of_option bind].
  destruct (Transfrag.attrs f !! Attr_TRANSCRIPT_ID); [|done]. cbn [of_option bind].
  destruct (match Transfrag.attrs f !! Attr_EXPRESSION with
            | Some v => of_option ValueError (py_float v)
            | None => Ok float_zero
            end); [|done].
  cbn [bind]. destruct (ref_flag f); [|done]. cbn [bind]. by intros [= <-].
Qed.

Lemma exons_of_snoc ir pre f t_id :
  exons_of ir (pre ++ [f]) t_id =
  exons_of ir pre t_id ++
    (if is_read ir f && bool_decide (feature f = "exon"%string)
        && bool_decide (feature_id f = Some t_id)
     then [(start f, end_ f)] else []).
Proof.
  unfold exons_of. rewrite omap_app. f_equal. cbn. by destruct (_ && _ && _).
Qed.

Lemma entry_of_snoc ir pre f kv :
  (is_read ir f && bool_decide (feature f = "exon"%string)
     && bool_decide (feature_id f = Some kv.1)) = false →
  entry_of ir pre kv → entry_of ir (pre ++ [f]) kv.
Proof.
  intros Hf (f0 & t0 & Hin & ? & ? & ? & ? & Hkv). exists f0, t0.
  split_and!; [apply elem_of_app; by left|done..|].
  by rewrite exons_of_snoc, Hf, app_nil_r.
Qed.

Lemma append_exon_lookup t_id exon d i kv :
  d !! i = Some kv →
  append_exon t_id exon d !! i =
  Some (if decide (kv.1 = t_id)
        then (kv.1, mkTransfrag (chrom kv.2) (t_strand kv.2) (_id kv.2)
                      (sample_id kv.2) (expr kv.2) (is_ref kv.2)
                      (exons kv.2 ++ [exon]))
        else kv).
Proof. intros Hi. unfold append_exon. by rewrite list_lookup_fmap, Hi. Qed.

(** One line keeps the invariant. *)
Lemma parse_line_inv ir pre d line f d' :
  parse_inv ir pre d → from_str line = Some f →
  parse_line ir d line = Ok d' → parse_inv ir (pre ++ [f]) d'.
Proof.
  intros (Hkeys & Hnd & Hent & Hex) Hf. unfold parse_line. rewrite Hf.
  cbn [of_option bind].
  destruct (Transfrag.attrs f !! Attr_TRANSCRIPT_ID) as [t_id|] eqn:Hid; [|done].
  cbn [of_option bind].
  destruct (ref_flag f) as [r|] eqn:Hr; [|done]. cbn [bind].
  assert (feature_id f = Some t_id) as Hfid by done.
  assert (is_read ir f = negb (r && ir)) as Hread by (unfold is_read; by rewrite Hr).
  destruct (r && ir) eqn:Hskip.
  { (* a reference feature that is skipped *)
    intros [= <-]. cbn [negb] in Hread. split_and!.
    - rewrite declared_snoc, Hread. cbn [andb]. by rewrite app_nil_r.
    - done.
    - eapply Forall_impl; [exact Hent|]. intros kv. apply entry_of_snoc.
      by rewrite Hread.
    - intros f' t' [Hin| ->%list_elem_of_singleton]%elem_of_app; [by eauto|].
      by rewrite Hread. }
  cbn [negb] in Hread.
  destruct (decide (feature f = "transcript"%string)) as [Htr|Hntr].
  { (* a transcript feature declares its identifier *)
    destruct (decide (t_id ∈ d.*1)) as [|Hnew]; [done|].
    destruct (from_gtf f) as [t|] eqn:Ht; [|done]. cbn [bind]. intros [= <-].
    assert (feature f ≠ "exon"%string) as Hnex by (by rewrite Htr).
    split_and!.
    - rewrite fmap_app, declared_snoc, Hread, Hfid, Hkeys.
      by rewrite bool_decide_eq_true_2 by done.
    - rewrite fmap_app. apply NoDup_app. split_and!; [done| |apply NoDup_singleton].
      intros x Hx ->%list_elem_of_singleton. done.
    - apply Forall_app. split.
      + eapply Forall_impl; [exact Hent|]. intros kv. apply entry_of_snoc.
        rewrite (bool_decide_eq_false_2 (feature f = "exon"%string)) by done.
        by rewrite andb_false_r.
      + apply Forall_singleton. exists f, t.
        split_and!; [apply elem_of_app; right; by left|done..|].
        cbn [fst snd]. destruct (from_gtf_fields f t Ht) as (_ & _ & _ & _ & Hnil).
        rewrite exons_of_snoc.
        rewrite (bool_decide_eq_false_2 (feature f = "exon"%string)) by done.
        rewrite andb_false_r, app_nil_r.
        assert (exons_of ir pre t_id = []) as ->.
        { unfold exons_of. apply omap_all_None, Forall_forall. intros f' Hf'.
          destruct (is_read ir f') eqn:Hr'; [|done].
          destruct (decide (feature f' = "exon"%string)) as [He|He];
            [|by rewrite (bool_decide_eq_false_2 _ He)].
          destruct (decide (feature_id f' = Some t_id)) as [Hi|Hi];
            [|by rewrite (bool_decide_eq_false_2 _ Hi), andb_false_r].
          destruct Hnew. by eapply Hex. }
        destruct t. cbn in *. by subst.
    - intros f' t' [Hin| ->%list_elem_of_singleton]%elem_of_app; [|congruence].
      intros. rewrite fmap_app, elem_of_app. left. by eapply Hex. }
  destruct (decide (feature f = "exon"%string)) as [Hexon|Hnex].
  { (* an exon feature extends its transfrag *)
    destruct (decide (t_id ∉ d.*1)) as [|Hold]; [done|]. apply dec_stable in Hold.
    intros [= <-]. split_and!.
    - rewrite append_exon_keys, declared_snoc.
      rewrite (bool_decide_eq_false_2 (feature f = "transcript"%string)) by done.
      by rewrite andb_false_r, app_nil_r.
    - by rewrite append_exon_keys.
    - apply Forall_lookup. intros i kv' Hi.
      destruct (lookup_lt_is_Some_2 d i) as [kv Hkv].
      { apply lookup_lt_Some in Hi. unfold append_exon in Hi.
        by rewrite length_fmap in Hi. }
      rewrite (append_exon_lookup _ _ _ _ _ Hkv) in Hi. injection Hi as <-.
      rewrite Forall_lookup in Hent. specialize (Hent i kv Hkv).
      destruct Hent as (f0 & t0 & Hin & ? & ? & ? & ? & Hkv2).
      case_decide as Hk.
      + exists f0, t0. cbn [fst snd].
        split_and!; [apply elem_of_app; by left|done..|].
        rewrite exons_of_snoc, Hread, Hfid, Hk.
        rewrite !bool_decide_eq_true_2 by done. cbn [andb].
        rewrite Hkv2. cbn [chrom t_strand _id sample_id expr is_ref exons].
        by rewrite Hk.
      + exists f0, t0.
        split_and!; [apply elem_of_app; by left|done..|].
        rewrite exons_of_snoc, Hfid.
        rewrite (bool_decide_eq_false_2 (Some t_id = Some kv.1)) by congruence.
        by rewrite andb_false_r, app_nil_r.
    - rewrite append_exon_keys.
      intros f' t' [Hin| ->%list_elem_of_singleton]%elem_of_app; [by eauto|].
      intros _ _ Hid'. congruence. }
  (* any other feature *)
  intros [= <-]. split_and!.
  - rewrite declared_snoc.
    rewrite (bool_decide_eq_false_2 (feature f = "transcript"%string)) by done.
    by rewrite andb_false_r, app_nil_r.
  - done.
  - eapply Forall_impl; [exact Hent|]. intros kv. apply entry_of_snoc.
    rewrite (bool_decide_eq_false_2 (feature f = "exon"%string)) by done.
    by rewrite andb_false_r.
  - intros f' t' [Hin| ->%list_elem_of_singleton]%elem_of_app; [by eauto|].
    intros _ Hexon'. done.
Qed.

Lemma parse_loop_inv ir (lines : list string) fs pre d d' :
  mapM from_str lines = Some fs → parse_inv ir pre d →
  fold_result (parse_line ir) d lines = Ok d' → parse_inv ir (pre ++ fs) d'.
Proof.
  revert fs pre d. induction lines as [|line lines IH]; intros fs pre d.
  - intros [= <-] Hinv [= <-]. by rewrite app_nil_r.
  - cbn [mapM]. destruct (from_str line) as [f|] eqn:Hf; [|done].
    cbn [mbind option_bind]. destruct (mapM from_str lines) as [fs'|] eqn:Hfs; [|done].
    cbn [mbind option_bind mret option_ret]. intros [= <-] Hinv. cbn [fold_result].
    destruct (parse_line ir d line) as [d1|] eqn:Hline; [|done]. cbn [bind].
    intros Hrest.
    rewrite (cons_middle f pre fs'), (assoc_L (++)).
    eapply IH; [done| |done]. by eapply parse_line_inv.
Qed.

Lemma parse_inv_nil ir : parse_inv ir [] [].
Proof.
  split_and!; [done|constructor|constructor|]. by intros f t_id ?%elem_of_nil.
Qed.

(** X23. What [parse_gtf] returns: the keys are distinct; each entry is
    the transfrag that [from_gtf] makes of a transcript feature that was
    read and carries the key, and its exons are the [(start, end)] pairs
    of the exon features that were read and carry the key, in the order
    of the lines. *)
Theorem parse_gtf_entries ir (lines : list string) fs d :
  mapM from_str lines = Some fs → parse_gtf lines ir = Ok d →
  NoDup d.*1 ∧
  Forall (λ kv, ∃ f t0, f ∈ fs ∧ is_read ir f = true ∧
                  feature f = "transcript"%string ∧
                  feature_id f = Some kv.1 ∧ from_gtf f = Ok t0 ∧
                  chrom kv.2 = chrom t0 ∧ t_strand kv.2 = t_strand t0 ∧
                  _id kv.2 = _id t0 ∧ sample_id kv.2 = sample_id t0 ∧
                  expr kv.2 = expr t0 ∧ is_ref kv.2 = is_ref t0 ∧
                  exons kv.2 = exons_of ir fs kv.1) d.
Proof.
  intros Hfs Hrun.
  destruct (parse_loop_inv ir lines fs [] [] d Hfs (parse_inv_nil ir) Hrun)
    as (_ & Hnd & Hent & _).
  split; [done|]. cbn [app] in Hent.
  eapply Forall_impl; [exact Hent|].
  intros kv (f & t0 & ? & ? & ? & ? & ? & ->). exists f, t0. by split_and!.
Qed.

Lemma parse_ok_lines ir (lines : list string) d d' :
  fold_result (parse_line ir) d lines = Ok d' → is_Some (mapM from_str lines).
Proof.
  revert d. induction lines as [|line lines IH]; intros d; [by eexists|].
  cbn [fold_result mapM].
  destruct (parse_line ir d line) as [d1|] eqn:Hline; [|done]. cbn [bind].
  intros [fs Hfs]%IH. unfold parse_line in Hline.
  destruct (from_str line) as [f|]; [|done].
  cbn [mbind option_bind]. rewrite Hfs. by eexists.
Qed.

(** X24. The entries of the dictionary that [parse_gtf] returns are keyed
    by the identifier of their transfrag, and while [ignore_ref] is set
    no transfrag of the dictionary is a reference (this is how
    [AssemblyLine.assemble] calls it unless the run is guided). *)
Theorem parse_gtf_keys_and_references ir (lines : list string) d :
  parse_gtf lines ir = Ok d →
  Forall (λ kv, _id kv.2 = kv.1 ∧ (ir = true → is_ref kv.2 = false)) d.
Proof.
  intros Hrun. destruct (parse_ok_lines ir lines [] d Hrun) as [fs Hfs].
  destruct (parse_loop_inv ir lines fs [] [] d Hfs (parse_inv_nil ir) Hrun)
    as (_ & _ & Hent & _).
  eapply Forall_impl; [exact Hent|].
  intros kv (f & t0 & _ & Hread & _ & Hid & Ht0 & ->).
  cbn [_id is_ref].
  destruct (from_gtf_fields f t0 Ht0) as (_ & Hid' & _ & Hr & _).
  split; [congruence|]. intros ->.
  unfold is_read in Hread. rewrite Hr in Hread.
  by destruct (is_ref t0).
Qed.

(** *** The error that is raised *)

Lemma parse_line_keys ir pre d line f d' :
  d.*1 = declared ir pre → from_str line = Some f →
  parse_line ir d line = Ok d' →
  d'.*1 = declared ir (pre ++ [f]) ∧ ¬ offends ir pre f.
Proof.
  intros Hkeys Hf. unfold parse_line. rewrite Hf. cbn [of_option bind].
  destruct (Transfrag.attrs f !! Attr_TRANSCRIPT_ID) as [t_id|] eqn:Hid; [|done].
  cbn [of_option bind].
  destruct (ref_flag f) as [r|] eqn:Hr; [|done]. cbn [bind].
  assert (feature_id f = Some t_id) as Hfid by done.
  assert (is_read ir f = negb (r && ir)) as Hread by (unfold is_read; by rewrite Hr).
  rewrite declared_snoc, Hread, Hfid. unfold offends. rewrite Hread, Hfid.
  destruct (r && ir); cbn [negb andb].
  { intros [= <-]. rewrite app_nil_r. split; [done|]. by intros [[=] _]. }
  destruct (decide (feature f = "transcript"%string)) as [Htr|Hntr].
  { destruct (decide (t_id ∈ d.*1)) as [|Hnew]; [done|].
    destruct (from_gtf f) as [t|]; [|done]. cbn [bind]. intros [= <-].
    rewrite bool_decide_eq_true_2 by done. rewrite fmap_app, Hkeys. split; [done|].
    intros (_ & t' & [= <-] & [[_ Hin]|[Hexon _]]).
    - apply Hnew. by rewrite Hkeys.
    - by rewrite Htr in Hexon. }
  rewrite bool_decide_eq_false_2 by done. rewrite app_nil_r.
  destruct (decide (feature f = "exon"%string)) as [Hexon|Hnex].
  { destruct (decide (t_id ∉ d.*1)) as [|Hold]; [done|]. apply dec_stable in Hold.
    intros [= <-]. rewrite append_exon_keys. split; [done|].
    intros (_ & t' & [= <-] & [[Htr _]|[_ Hnin]]); [done|].
    apply Hnin. by rewrite <-Hkeys. }
  intros [= <-]. split; [done|].
  intros (_ & t' & _ & [[? _]|[? _]]); done.
Qed.

Lemma parse_line_error ir pre d line f msg :
  d.*1 = declared ir pre → from_str line = Some f →
  parse_line ir d line = Raise (GTFError msg) →
  is_read ir f = true ∧
  ∃ t_id, feature_id f = Some t_id ∧
    ((feature f = "transcript"%string ∧ t_id ∈ declared ir pre
      ∧ msg = duplicate_msg t_id) ∨
     (feature f = "exon"%string ∧ (t_id ∉ declared ir pre)
      ∧ msg = missing_msg t_id)).
Proof.
  intros Hkeys Hf. unfold parse_line. rewrite Hf. cbn [of_option bind].
  destruct (Transfrag.attrs f !! Attr_TRANSCRIPT_ID) as [t_id|] eqn:Hid; [|done].
  cbn [of_option bind].
  destruct (ref_flag f) as [r|e] eqn:Hr; cbn [bind].
  2: { intros [= ->]. unfold ref_flag in Hr. by destruct (py_int _). }
  assert (is_read ir f = negb (r && ir)) as Hread by (unfold is_read; by rewrite Hr).
  unfold feature_id. rewrite Hread, Hid.
  destruct (r && ir); [done|]. cbn [negb].
  destruct (decide (feature f = "transcript"%string)) as [Htr|Hntr].
  { destruct (decide (t_id ∈ d.*1)) as [Hin|Hnew].
    - intros [= <-]. split; [done|]. exists t_id. split; [done|]. left.
      by rewrite <-Hkeys.
    - unfold from_gtf.
      destruct (Strand_from_gtf (strand f)); [|done]. cbn [of_option bind].
      rewrite Hid. cbn [of_option bind].
      destruct (match Transfrag.attrs f !! Attr_EXPRESSION with
                | Some v => of_option ValueError (py_float v)
                | None => Ok float_zero
                end) as [?|e] eqn:He.
      + cbn [bind]. by rewrite Hr.
      + cbn [bind]. intros [= ->].
        destruct (Transfrag.attrs f !! Attr_EXPRESSION) as [v|]; [|done].
        by destruct (py_float v). }
  destruct (decide (feature f = "exon"%string)) as [Hexon|Hnex]; [|done].
  destruct (decide (t_id ∉ d.*1)) as [Hnin|]; [|done].
  intros [= <-]. split; [done|]. exists t_id. split; [done|]. right.
  by rewrite <-Hkeys.
Qed.

Lemma parse_loop_error ir (lines : list string) fs pre d msg :
  mapM from_str lines = Some fs → d.*1 = declared ir pre →
  fold_result (parse_line ir) d lines = Raise (GTFError msg) →
  ∃ p f q t_id, fs = p ++ f :: q ∧ ¬ violation ir pre p ∧
    is_read ir f = true ∧ feature_id f = Some t_id ∧
    ((feature f = "transcript"%string ∧ t_id ∈ declared ir (pre ++ p)
      ∧ msg = duplicate_msg t_id) ∨
     (feature f = "exon"%string ∧ (t_id ∉ declared ir (pre ++ p))
      ∧ msg = missing_msg t_id)).
Proof.
  revert fs pre d. induction lines as [|line lines IH]; intros fs pre d; [done|].
  cbn [mapM]. destruct (from_str line) as [f|] eqn:Hf; [|done].
  cbn [mbind option_bind]. destruct (mapM from_str lines) as [fs'|] eqn:Hfs; [|done].
  cbn [mbind option_bind mret option_ret]. intros [= <-] Hkeys. cbn [fold_result].
  destruct (parse_line ir d line) as [d1|e] eqn:Hline; cbn [bind].
  - intros Hrest.
    destruct (parse_line_keys ir pre d line f d1 Hkeys Hf Hline) as [Hkeys1 Hclean].
    destruct (IH fs' (pre ++ [f]) d1 eq_refl Hkeys1 Hrest)
      as (p & f' & q & t_id & -> & Hnv & ? & ? & Hcase).
    exists (f :: p), f', q, t_id. split_and!; [done| |done|done|].
    + rewrite violation_cons. tauto.
    + by rewrite (cons_middle f pre p), (assoc_L (++)).
  - intros [= ->].
    destruct (parse_line_error ir pre d line f msg Hkeys Hf Hline)
      as (? & t_id & ? & Hcase).
    exists [], f, fs', t_id. rewrite app_nil_r. split_and!; [done| |done..].
    intros (p & f' & q & Heq & _). by destruct p.
Qed.

(** X25. The [GTFError] that [parse_gtf] raises is that of the first
    feature at fault: the features before it are in order, it is a
    feature that is read, and the message names its identifier, as a
    duplicate for a transcript feature whose identifier is declared
    already, as an exon prior to its transcript for an exon feature whose
    identifier is not declared yet. *)
Theorem parse_gtf_first_error ir (lines : list string) fs msg :
  mapM from_str lines = Some fs →
  parse_gtf lines ir = Raise (GTFError msg) →
  ∃ p f q t_id, fs = p ++ f :: q ∧ ¬ violation ir [] p ∧
    is_read ir f = true ∧ feature_id f = Some t_id ∧
    ((feature f = "transcript"%string ∧ t_id ∈ declared ir p
      ∧ msg = duplicate_msg t_id) ∨
     (feature f = "exon"%string ∧ (t_id ∉ declared ir p)
      ∧ msg = missing_msg t_id)).
Proof.
  intros Hfs Hrun. by apply (parse_loop_error ir lines fs [] [] msg Hfs).
Qed.

End parse_more.

(** A gene feature, a line without identifier, and a second exon. *)
Definition line_gene : string := "chr1 gene 100 500 + transcript_id=T1".
Definition line_anon : string := "chr1 exon 100 200 + ref=1".
Definition line_e2 : string := "chr1 exon 300 500 + transcript_id=T1".

Definition feature_gene : Transfrag.Feature :=
  Transfrag.mkFeature "chr1" "gene" 100 500 "+"
    {[ "transcript_id"%string := "T1"%string ]}.
Definition feature_anon : Transfrag.Feature :=
  Transfrag.mkFeature "chr1" "exon" 100 200 "+" {[ "ref"%string := "1"%string ]}.
Definition feature_e2 : Transfrag.Feature :=
  Transfrag.mkFeature "chr1" "exon" 300 500 "+"
    {[ "transcript_id"%string := "T1"%string ]}.

Definition more_features : list (string * Transfrag.Feature) :=
  example_features
    ++ [(line_gene, feature_gene); (line_anon, feature_anon); (line_e2, feature_e2)].

Definition more_gtf_env : Transfrag.GTFEnv Strand float := {|
  Transfrag.from_str line :=
    (list_to_map more_features : gmap string Transfrag.Feature) !! line;
  Transfrag.Attr_TRANSCRIPT_ID := "transcript_id";
  Transfrag.Attr_SAMPLE_ID := "sample_id";
  Transfrag.Attr_EXPRESSION := "expr";
  Transfrag.Attr_REF := "ref";
  Transfrag.Strand_from_gtf s :=
    if decide (s = "+"%string) then Some POS_STRAND
    else if decide (s = "-"%string) then Some NEG_STRAND
    else if decide (s = "."%string) then Some NO_STRAND else None;
  Transfrag.py_float s := if decide (s = "5.0"%string) then Some 5%float else None;
  Transfrag.float_zero := 0%float;
  Transfrag.py_int s :=
    if decide (s = "0"%string) then Some 0
    else if decide (s = "1"%string) then Some 1 else None
|}.

Lemma more_lines_scannable :
  Forall (@scannable _ _ more_gtf_env)
         [line_t1; line_gene; line_ref_t; line_e1; line_ref_e; line_e2].
Proof.
  repeat constructor; (eexists; split; [reflexivity|]);
    split; eexists; by vm_compute.
Qed.

Lemma parse_gtf_missing_id_witness :
  @Transfrag.parse_gtf _ _ more_gtf_env [line_t1; line_anon; line_e1] true
  = Transfrag.Raise Transfrag.KeyError.
Proof.
  apply (@parse_gtf_missing_id _ _ more_gtf_env true [line_t1] [line_e1] line_anon
           feature_anon
           [("T1"%string,
             Transfrag.mkTransfrag "chr1" POS_STRAND "T1" None 5%float false [])]).
  - reflexivity.
  - reflexivity.
  - reflexivity.
Defined.

Lemma parse_gtf_ignore_ref_witness :
  @Transfrag.parse_gtf _ _ more_gtf_env
    [line_t1; line_gene; line_ref_t; line_e1; line_ref_e; line_e2] true
  = @Transfrag.parse_gtf _ _ more_gtf_env [line_t1; line_gene; line_e1; line_e2] false.
Proof.
  apply (@parse_gtf_ignore_ref _ _ more_gtf_env
           [line_t1; line_gene; line_ref_t; line_e1; line_ref_e; line_e2]
           more_lines_scannable).
Defined.

Lemma parse_gtf_other_features_witness :
  @Transfrag.parse_gtf _ _ more_gtf_env
    [line_t1; line_gene; line_ref_t; line_e1; line_ref_e; line_e2] false
  = @Transfrag.parse_gtf _ _ more_gtf_env
      [line_t1; line_ref_t; line_e1; line_ref_e; line_e2] false.
Proof.
  apply (@parse_gtf_other_features _ _ more_gtf_env false
           [line_t1; line_gene; line_ref_t; line_e1; line_ref_e; line_e2]
           more_lines_scannable).
Defined.

Lemma parse_gtf_entries_witness :
  ∃ d, @Transfrag.parse_gtf _ _ more_gtf_env [line_t1; line_e1; line_e2] true
         = Transfrag.Ok d ∧
       Forall (λ kv, kv.1 = "T1"%string ∧
                     Transfrag.exons kv.2 = [(100, 200); (300, 500)]) d.
Proof.
  destruct (@Transfrag.parse_gtf _ _ more_gtf_env [line_t1; line_e1; line_e2] true)
    as [d|] eqn:Hrun; [|by vm_compute in Hrun].
  exists d. split; [done|].
  destruct (@parse_gtf_entries _ _ more_gtf_env true [line_t1; line_e1; line_e2]
              [feature_t1; feature_e1; feature_e2] d eq_refl Hrun) as [_ Hent].
  vm_compute in Hrun. injection Hrun as <-.
  apply Forall_singleton in Hent as (f & t0 & _ & _ & _ & _ & _ & Hall).
  destruct Hall as (_ & _ & _ & _ & _ & _ & Hexons).
  apply Forall_singleton. split; [done|]. rewrite Hexons. reflexivity.
Defined.

Lemma parse_gtf_keys_and_references_witness :
  ∃ d, @Transfrag.parse_gtf _ _ more_gtf_env
         [line_t1; line_ref_t; line_e1; line_ref_e] true = Transfrag.Ok d ∧
       Forall (λ kv, Transfrag.is_ref kv.2 = false) d.
Proof.
  destruct (@Transfrag.parse_gtf _ _ more_gtf_env
              [line_t1; line_ref_t; line_e1; line_ref_e] true)
    as [d|] eqn:Hrun; [|by vm_compute in Hrun].
  exists d. split; [done|].
  pose proof (@parse_gtf_keys_and_references _ _ more_gtf_env true _ d Hrun) as Hent.
  eapply Forall_impl; [exact Hent|]. intros kv [_ Href]. by apply Href.
Defined.

Lemma parse_gtf_first_error_witness :
  ∃ msg, @Transfrag.parse_gtf _ _ more_gtf_env [line_t1; line_e1; line_t1; line_ref_e]
           false = Transfrag.Raise (Transfrag.GTFError msg) ∧
         msg = "Transcript 'T1' duplicate detected"%string.
Proof.
  destruct (@Transfrag.parse_gtf _ _ more_gtf_env
              [line_t1; line_e1; line_t1; line_ref_e] false) as [d|e] eqn:Hrun;
    [by vm_compute in Hrun|].
  destruct e as [msg| | |]; try (by vm_compute in Hrun).
  exists msg. split; [done|].
  destruct (@parse_gtf_first_error _ _ more_gtf_env false
              [line_t1; line_e1; line_t1; line_ref_e]
              [feature_t1; feature_e1; feature_t1; feature_ref_e] msg eq_refl Hrun)
    as (p & f & q & t_id & _).
  vm_compute in Hrun. by injection Hrun as <-.
Defined.

(** ** From the resolver to the graph builder *)
Section pipeline.
Context {score : Type} `{!ScoreArith score} `{!Env}.
Implicit Types (h : list (Transcript score)) (t : Transcript score) (l : nat)
  (B : buckets) (bs : list Z) (s : Strand).

Lemma split_exons_degenerate t bs :
  Forall (λ e, start e = end_ e) (exons t) → split_exons t bs = Some [].
Proof.
  unfold split_exons. intros Hdeg.
  rewrite (mapM_Some_2 _ _ ((λ _, []) <$> exons t)).
  - cbn [mbind option_bind]. f_equal. clear Hdeg.
    induction (exons t) as [|e es IH]; [done|]. exact IH.
  - apply Forall2_fmap_r, Forall_Forall2_diag.
    eapply Forall_impl; [exact Hdeg|]. intros e He. unfold split_exon.
    by rewrite decide_True.
Qed.

Lemma create_directed_graph_None s (ts : list (Transcript score)) t :
  t ∈ ts → Forall (λ e, start e = end_ e) (exons t) →
  create_directed_graph s ts = None.
Proof.
  intros Ht Hdeg. unfold create_directed_graph.
  destruct (foldlM _ _ ts) as [G|] eqn:HG; [|done]. exfalso.
  assert (is_Some (foldlM (add_transcript_path s (find_exon_boundaries ts))
                          (mkDiGraph ∅ ∅ []) ts)) as Hsome by (by eexists).
  rewrite (foldlM_is_Some_Forall _
             (λ t, ∃ nodes, split_exons t (find_exon_boundaries ts) = Some nodes
                            ∧ nodes ≠ [])) in Hsome
    by (intros; apply add_transcript_path_is_Some).
  rewrite Forall_forall in Hsome. destruct (Hsome t Ht) as (nodes & Hsplit & Hne).
  rewrite (split_exons_degenerate t _ Hdeg) in Hsplit. congruence.
Qed.

(** X26. [create_transcript_graphs] builds a graph from each bucket that
    the resolver returns. A single non-reference transcript of the locus
    whose exons are all empty is enough to make this fail: on valid
    input the resolver returns and puts the transcript into a bucket, and
    [create_directed_graph] fails on that bucket. *)
Theorem empty_transcript_breaks_graphs h (ts : list nat) l t :
  valid h ts → l ∈ ts → h !! l = Some t → is_ref t = Some false →
  Forall (λ e, start e = end_ e) (exons t) →
  ∃ h' B (R : ref_buckets) s bucket,
    partition_transcripts_by_strand h ts = Some (h', B, R) ∧
    l ∈ lookup3 B s ∧
    mapM (λ l, h' !! l) (lookup3 B s) = Some bucket ∧
    create_directed_graph s bucket = None.
Proof.
  intros Hv Hl Ht Hr Hdeg.
  destruct (partition_spec h ts Hv) as (h' & B & R & c & Hrun & Hf & _ & _ & HB & _).
  assert (nonref h l) as Hnr.
  { unfold nonref, kind. rewrite Ht. cbn. by rewrite Hr. }
  assert (l ∈ lookup3 B POS_STRAND ++ lookup3 B NEG_STRAND ++ lookup3 B NO_STRAND)
    as Hin.
  { rewrite (buckets_cover h ts B c HB). by apply list_elem_of_filter. }
  assert (∃ s, l ∈ lookup3 B s) as [s Hs].
  { rewrite !elem_of_app in Hin. destruct Hin as [?|[?|?]]; eauto. }
  assert (is_Some (mapM (λ l, h' !! l) (lookup3 B s))) as [bucket Hbucket].
  { apply mapM_is_Some, Forall_forall. intros l' Hl'.
    assert (l' ∈ ts) as Hts.
    { rewrite HB, elem_of_app, !list_elem_of_filter in Hl'. tauto. }
    unfold valid in Hv. rewrite Forall_forall in Hv.
    destruct (Hv l' Hts) as (t' & Ht' & _).
    destruct (frame_lookup h h' l' t' Hf Ht') as (t'' & Hl'' & _).
    cbn. rewrite Hl''. by eexists. }
  exists h', B, R, s, bucket. split_and!; [done..|].
  destruct (frame_lookup h h' l t Hf Ht) as (t' & Ht' & Heq).
  apply (create_directed_graph_None s bucket t').
  - apply mapM_Some in Hbucket.
    apply list_elem_of_lookup in Hs as [i Hi].
    destruct (Forall2_lookup_l _ _ _ _ _ Hbucket Hi) as (y & Hy & Hly).
    cbn in Hly. rewrite Ht' in Hly. injection Hly as <-.
    by eapply list_elem_of_lookup_2.
  - rewrite Heq. exact Hdeg.
Qed.

End pipeline.

(** A locus with a transcript whose only exon is empty. *)
Definition locus_with_empty_transcript : list (Transcript float) :=
  [example_transcript POS_STRAND [mkExon 10 20] 3%float "a" false;
   example_transcript NEG_STRAND [mkExon 7 7] 1%float "e" false].

Lemma empty_transcript_breaks_graphs_witness :
  ∃ h' B (R : ref_buckets) s bucket,
    @partition_transcripts_by_strand float (float_arith eps_1e8) example_env
      locus_with_empty_transcript [0; 1]%nat = Some (h', B, R) ∧
    1%nat ∈ lookup3 B s ∧
    mapM (λ l, h' !! l) (lookup3 B s) = Some bucket ∧
    @create_directed_graph float (float_arith eps_1e8) s bucket = None.
Proof.
  apply (@empty_transcript_breaks_graphs float (float_arith eps_1e8) example_env
           locus_with_empty_transcript [0; 1]%nat 1%nat
           (example_transcript NEG_STRAND [mkExon 7 7] 1%float "e" false)).
  - repeat constructor; (eexists; split; [reflexivity|]);
      (split; [split_and!; [repeat constructor; cbn; lia
                           |by eexists; vm_compute
                           |by eexists; vm_compute]|]);
      try (intros _; by vm_compute); by vm_compute.
  - apply (bool_decide_unpack _). reflexivity.
  - reflexivity.
  - by vm_compute.
  - repeat constructor.
Defined.

(** ** The score track *)
Section bedgraph.
Context {score : Type} `{!ScoreArith score}.
Implicit Types (G : DiGraph score) (t : Transcript score) (n : Exon)
  (r : string * Z * Z * score).

(** The start and the end of a row. *)
Definition row_start r : Z := r.1.1.2.
Definition row_end r : Z := r.1.2.

Global Instance exon_le_total : Total exon_le.
Proof. intros a b. unfold exon_le. lia. Qed.

Global Instance exon_le_trans : Transitive exon_le.
Proof. intros a b c. unfold exon_le. lia. Qed.

(** Sorted nodes that are pairwise equal or disjoint, distinct and not
    empty, follow one another. *)
Lemma sorted_disjoint_before (l : list Exon) :
  StronglySorted exon_le l → NoDup l →
  (∀ a b, a ∈ l → b ∈ l → a = b ∨ end_ a ≤ start b ∨ end_ b ≤ start a) →
  (∀ a, a ∈ l → start a < end_ a) →
  StronglySorted before l.
Proof.
  induction 1 as [|x l Hl IH Hx]; intros Hnd Hdis Hpos; [constructor|].
  apply NoDup_cons in Hnd as [Hxl Hnd]. constructor.
  - apply IH; [done|..].
    + intros a b Ha Hb. apply Hdis; by right.
    + intros a Ha. apply Hpos. by right.
  - apply Forall_forall. intros y Hy. rewrite Forall_forall in Hx.
    specialize (Hx y Hy). unfold exon_le in Hx. unfold before.
    assert (start x < end_ x) by (apply Hpos; by left).
    assert (start y < end_ y) by (apply Hpos; by right).
    destruct (Hdis x y) as [->|[?|?]]; [by left|by right|done|lia|lia].
Qed.

Lemma StronglySorted_Forall2 {X Y : Type} (P : X → Y → Prop) (R : relation X)
    (R' : relation Y) (l : list X) (k : list Y) :
  (∀ x y x' y', P x y → P x' y' → R x x' → R' y y') →
  Forall2 P l k → StronglySorted R l → StronglySorted R' k.
Proof.
  intros HP HF. induction HF as [|x y l k Hxy HF IH]; intros Hl; [constructor|].
  apply StronglySorted_inv in Hl as [Hl Hx]. constructor; [by apply IH|].
  rewrite Forall_forall in Hx. apply Forall_forall. intros y' Hy'.
  apply list_elem_of_lookup in Hy' as [i Hi].
  destruct (Forall2_lookup_r _ _ _ _ _ HF Hi) as (x' & Hx' & ?).
  eapply HP; [done..|]. apply Hx. by eapply list_elem_of_lookup_2.
Qed.

(** The nodes of a graph built from transcripts whose exons are
    intervals are not empty and pairwise equal or disjoint. *)
Lemma graph_nodes_disjoint s (ts : list (Transcript score)) G n1 n2 :
  Forall intervals ts → create_directed_graph s ts = Some G →
  is_Some (G_node G !! n1) → is_Some (G_node G !! n2) →
  start n1 < end_ n1 ∧ (n1 = n2 ∨ end_ n1 ≤ start n2 ∨ end_ n2 ≤ start n1).
Proof.
  intros Hint. unfold create_directed_graph.
  destruct (foldlM _ _ _) as [G0|] eqn:HG0; [|done]. intros [= <-].
  cbn [G_node]. destruct (build_loop _ _ _ _ _ HG0) as [Hn _]. cbn [G_node] in Hn.
  rewrite !Hn, !lookup_empty.
  assert (∀ n, is_Some (credit (visit_scores (find_exon_boundaries ts) ts n) n None) →
               ∃ t p, t ∈ ts ∧ p ∈ nodes_of (find_exon_boundaries ts) t
                      ∧ n = mkExon p.1 p.2) as Hvisited.
  { intros n Hsome.
    destruct (visit_scores_visited (find_exon_boundaries ts) ts n) as (t & Ht & Hin).
    { intros Hnil. rewrite Hnil in Hsome. by destruct Hsome. }
    exists t. unfold node_seq in Hin.
    rewrite Forall_forall in Hint.
    rewrite (split_exons_nodes_of _ t (proj1 (find_exon_boundaries_sorted ts))
               (Hint t Ht)) in Hin.
    cbn [default] in Hin. apply list_elem_of_fmap in Hin as (p & -> & Hp). eauto. }
  intros (t1 & p1 & Ht1 & Hp1 & ->)%Hvisited (t2 & p2 & Ht2 & Hp2 & ->)%Hvisited.
  rewrite Forall_forall in Hint.
  destruct (nodes_of_disjoint ts t1 t2 p1 p2 Ht1 Ht2 (Hint _ Ht1) (Hint _ Ht2) Hp1 Hp2)
    as [Hpos Hdis].
  cbn [start end_]. split; [done|].
  destruct Hdis as [->|?]; [by left|by right].
Qed.

(** X27. The score track of a graph that [create_directed_graph] built
    from transcripts whose exons are intervals: [get_bedgraph_lines]
    returns one row for each node with a non-negative start, carrying the
    chromosome, the coordinates and the score of the node; the rows are
    in increasing order and do not overlap (each row ends before the
    next one starts). *)
Theorem get_bedgraph_lines_spec s (ts : list (Transcript score)) G (chrom : string) :
  Forall intervals ts → create_directed_graph s ts = Some G →
  ∃ rows, get_bedgraph_lines chrom G = Some rows ∧
    StronglySorted (λ r1 r2, row_end r1 ≤ row_start r2) rows ∧
    Forall (λ r, 0 ≤ row_start r < row_end r) rows ∧
    ∀ r, r ∈ rows ↔
         ∃ n a, G_node G !! n = Some a ∧ 0 ≤ start n ∧
                r = (chrom, start n, end_ n, NODE_SCORE a).
Proof.
  intros Hint HG. unfold get_bedgraph_lines.
  set (L := filter (λ n, ¬ start n < 0)
                   (merge_sort exon_le (elements (dom (G_node G))))).
  assert (∀ n, n ∈ L ↔ is_Some (G_node G !! n) ∧ 0 ≤ start n) as HL.
  { intros n. unfold L.
    rewrite list_elem_of_filter, merge_sort_Permutation, elem_of_elements, elem_of_dom.
    split; intros [??]; (split; [done||lia|done||lia]). }
  assert (is_Some (mapM (λ n, nd ← G_node G !! n;
                              Some (chrom, start n, end_ n, NODE_SCORE nd)) L))
    as [rows Hrows].
  { apply mapM_is_Some, Forall_forall. intros n [[a Ha] _]%HL.
    cbn. rewrite Ha. by eexists. }
  exists rows. split; [done|]. apply mapM_Some in Hrows.
  assert (Forall2 (λ n r, ∃ a, G_node G !! n = Some a ∧
                               r = (chrom, start n, end_ n, NODE_SCORE a)) L rows)
    as Hrel.
  { eapply Forall2_impl; [exact Hrows|]. intros n r Hr. cbn in Hr.
    destruct (G_node G !! n) as [a|]; [|done]. injection Hr as <-. eauto. }
  assert (StronglySorted before L) as Hbefore.
  { apply sorted_disjoint_before.
    - unfold L. apply StronglySorted_filter, StronglySorted_merge_sort; apply _.
    - unfold L. apply NoDup_filter. rewrite merge_sort_Permutation.
      apply NoDup_elements.
    - intros a b [Ha _]%HL [Hb _]%HL.
      by destruct (graph_nodes_disjoint s ts G a b Hint HG Ha Hb).
    - intros a [Ha _]%HL.
      by destruct (graph_nodes_disjoint s ts G a a Hint HG Ha Ha). }
  split_and!.
  - eapply (StronglySorted_Forall2 _ before); [|exact Hrel|exact Hbefore].
    intros n r n' r' (a & _ & ->) (a' & _ & ->) Hb. exact Hb.
  - apply Forall_forall. intros r Hr.
    apply list_elem_of_lookup in Hr as [i Hi].
    destruct (Forall2_lookup_r _ _ _ _ _ Hrel Hi) as (n & Hn & a & Ha & ->).
    assert (n ∈ L) as [Hsome Hpos]%HL by (by eapply list_elem_of_lookup_2).
    destruct (graph_nodes_disjoint s ts G n n Hint HG Hsome Hsome) as [? _].
    unfold row_start, row_end. cbn. lia.
  - intros r. split.
    + intros [i Hi]%list_elem_of_lookup.
      destruct (Forall2_lookup_r _ _ _ _ _ Hrel Hi) as (n & Hn & a & Ha & ->).
      assert (n ∈ L) as [_ Hpos]%HL by (by eapply list_elem_of_lookup_2).
      eauto.
    + intros (n & a & Ha & Hpos & ->).
      assert (n ∈ L) as [i Hi]%list_elem_of_lookup by (apply HL; eauto).
      destruct (Forall2_lookup_l _ _ _ _ _ Hrel Hi) as (r & Hr & a' & Ha' & ->).
      assert (a' = a) as -> by congruence.
      by eapply list_elem_of_lookup_2.
Qed.

End bedgraph.

Lemma get_bedgraph_lines_spec_witness :
  ∃ G, @create_directed_graph float (float_arith eps_1e8) NEG_STRAND scored_pair
         = Some G ∧
       @get_bedgraph_lines float "chr1" G
       = Some [("chr1"%string, 100, 200, 0.5%float);
               ("chr1"%string, 200, 350, 0.75%float);
               ("chr1"%string, 350, 500, 0.5%float);
               ("chr1"%string, 600, 700, 0.25%float)].
Proof.
  destruct (@create_directed_graph float (float_arith eps_1e8) NEG_STRAND scored_pair)
    as [G|] eqn:HG; [|by vm_compute in HG].
  exists G. split; [done|].
  destruct (@get_bedgraph_lines_spec float (float_arith eps_1e8) NEG_STRAND scored_pair
              G "chr1") as (rows & Hrows & _); [|done|].
  { repeat constructor; cbn; lia. }
  vm_compute in HG. injection HG as <-. by vm_compute.
Defined.
